(** * aws-account-name: retry utilities, account storage and console display

    A shallow embedding of the extension's retry layer (retry-utils.js), its
    storage service (storage.js with validation.js) and the display helpers of
    the console content script, with the properties stated in the
    specification.

    Conventions of the embedding.
    - A JavaScript number is an extended rational: a finite value, one of the
      two infinities, or NaN.  Comparisons follow IEEE 754 (every comparison
      with NaN is false).  Sums, products and powers are rounded to binary64,
      to the nearest value with ties to even, and overflow to an infinity;
      the sign of zero is not represented.
    - A JavaScript string is its sequence of UTF-16 code units.
    - A promise is represented by the way it settles; a loop that may run
      forever takes a fuel argument and answers [None] when it runs out. *)

From Stdlib Require Import QArith Qminmax Qround Qpower Lqa.
From stdpp Require Import gmap strings list fin_maps.

Set Warnings "-register-all".
Local Open Scope Z_scope.

(** ** JavaScript numbers *)

Module JsNum.

Inductive number : Type :=
| Fin (q : Q)
| PosInf
| NegInf
| NaN.

Definition of_Z (z : Z) : number := Fin (inject_Z z).
Definition of_nat (n : nat) : number := of_Z (Z.of_nat n).

(** The number has the value of the natural number [m]. *)
Definition is_nat (x : number) (m : nat) : Prop :=
  match x with
  | Fin q => (q == inject_Z (Z.of_nat m))%Q
  | _ => False
  end.

Definition Qlt_bool (p q : Q) : bool := negb (Qle_bool q p).

(** [a < b] *)
Definition ltb (a b : number) : bool :=
  match a, b with
  | NaN, _ | _, NaN => false
  | Fin p, Fin q => Qlt_bool p q
  | Fin _, PosInf => true
  | Fin _, NegInf => false
  | PosInf, _ => false
  | NegInf, NegInf => false
  | NegInf, _ => true
  end.

(** [a <= b] *)
Definition leb (a b : number) : bool :=
  match a, b with
  | NaN, _ | _, NaN => false
  | Fin p, Fin q => Qle_bool p q
  | Fin _, PosInf => true
  | Fin _, NegInf => false
  | PosInf, PosInf => true
  | PosInf, _ => false
  | NegInf, _ => true
  end.

(** [a > b] and [a >= b] are the mirrored comparisons. *)
Definition gtb (a b : number) : bool := ltb b a.
Definition geb (a b : number) : bool := leb b a.

Definition is_nan (a : number) : bool :=
  match a with NaN => true | _ => false end.

Definition is_finite (a : number) : bool :=
  match a with Fin _ => true | _ => false end.

(** *** Rounding to binary64 *)

(** The integer nearest to [q], the even one of two equally near. *)
Definition nearest_even (q : Q) : Z :=
  let fl := Qfloor q in
  match (q - inject_Z fl ?= 1 # 2)%Q with
  | Lt => fl
  | Gt => fl + 1
  | Eq => if Z.even fl then fl else fl + 1
  end.

(** The exponent [e] with [2^e <= q < 2^(e+1)], for positive [q]. *)
Definition binade (q : Q) : Z :=
  let e := Z.log2 (Qnum q) - Z.log2 (Zpos (Qden q)) in
  if Qle_bool (2 ^ e) q then e else e - 1.

(** A positive rational rounded to 53 significant bits, and to a multiple
    of 2^-1074 below the exponent -1022; ties go to the even significand. *)
Definition rounded (a : Q) : Q :=
  let u := Z.max (binade a) (-1022) - 52 in
  (inject_Z (nearest_even (a * 2 ^ (- u))) * 2 ^ u)%Q.

(** The Number value for a rational: the nearest binary64 value, an
    infinity when the rounded magnitude reaches 2^1024.  Finite results are
    kept in lowest terms. *)
Definition to_double (q : Q) : number :=
  let r := Qred q in
  match (r ?= 0)%Q with
  | Eq => Fin 0
  | Gt => let v := rounded r in
          if Qle_bool (2 ^ 1024) v then PosInf else Fin (Qred v)
  | Lt => let v := rounded (- r) in
          if Qle_bool (2 ^ 1024) v then NegInf else Fin (Qred (- v))
  end.

(** The rational is a binary64 value: rounding leaves it as it is. *)
Definition is_double (q : Q) : Prop := to_double q = Fin (Qred q).

(** Zero, a positive number or plus infinity. *)
Definition nonneg (x : number) : bool := leb (Fin 0) x.

(** *** Arithmetic *)

(** [a + b] *)
Definition add (a b : number) : number :=
  match a, b with
  | NaN, _ | _, NaN => NaN
  | Fin p, Fin q => to_double (p + q)
  | PosInf, NegInf | NegInf, PosInf => NaN
  | PosInf, _ | _, PosInf => PosInf
  | NegInf, _ | _, NegInf => NegInf
  end.

Definition neg (a : number) : number :=
  match a with
  | Fin p => Fin (- p)
  | PosInf => NegInf
  | NegInf => PosInf
  | NaN => NaN
  end.

(** [a - b], for the two differences the code takes: [maxAttempts - 1],
    compared with the loop counter, and the difference of two clock
    readings.  The difference is kept exact.  Rounding it would change
    neither the comparison of [maxAttempts - 1] with the counter, for a
    [maxAttempts] up to 2^53, nor the difference of two readings that are
    whole numbers ([loop_test_rounded] and [clock_difference_rounded]
    below). *)
Definition sub (a b : number) : number :=
  match a, b with
  | NaN, _ | _, NaN => NaN
  | Fin p, Fin q => Fin (p + - q)
  | PosInf, PosInf | NegInf, NegInf => NaN
  | PosInf, _ | _, NegInf => PosInf
  | NegInf, _ | _, PosInf => NegInf
  end.

(** An infinity scaled by a finite factor. *)
Definition scale_inf (positive : bool) (q : Q) : number :=
  match (q ?= 0)%Q with
  | Eq => NaN
  | Gt => if positive then PosInf else NegInf
  | Lt => if positive then NegInf else PosInf
  end.

(** [a * b] *)
Definition mul (a b : number) : number :=
  match a, b with
  | NaN, _ | _, NaN => NaN
  | Fin p, Fin q => to_double (p * q)
  | PosInf, Fin q | Fin q, PosInf => scale_inf true q
  | NegInf, Fin q | Fin q, NegInf => scale_inf false q
  | PosInf, PosInf | NegInf, NegInf => PosInf
  | PosInf, NegInf | NegInf, PosInf => NegInf
  end.

(** [Math.pow(base, n)] for an exponent that is a non-negative integer:
    the exponent zero gives 1 whatever the base, NaN included.  ECMAScript
    leaves the precision of [Math.pow] to the implementation; the power of
    a finite base is taken here as the exact power rounded once, so that it
    overflows to an infinity and underflows to zero. *)
Definition Math_pow (base : number) (n : nat) : number :=
  match n with
  | O => Fin 1
  | S _ =>
      match base with
      | NaN => NaN
      | Fin q => to_double (q ^ Z.of_nat n)
      | PosInf => PosInf
      | NegInf => if Nat.odd n then NegInf else PosInf
      end
  end.

(** [Math.min(a, b)] *)
Definition Math_min (a b : number) : number :=
  match a, b with
  | NaN, _ | _, NaN => NaN
  | _, _ => if ltb b a then b else a
  end.

(** Falsy numbers are zero and NaN. *)
Definition falsy (a : number) : bool :=
  match a with
  | Fin q => Qeq_bool q 0
  | NaN => true
  | _ => false
  end.

End JsNum.

Import JsNum.

(** ** JavaScript strings and values *)

(** A string is the list of its UTF-16 code units. *)
Abbreviation jsstring := (list N).

(** The string denoted by a literal of the source (Latin-1 range). *)
Definition lit (s : string) : jsstring :=
  Ascii.N_of_ascii <$> String.list_ascii_of_string s.

Inductive value : Type :=
| VUndefined
| VNull
| VBool (b : bool)
| VNum (n : number)
| VStr (s : jsstring)
| VObj (props : list (string * value)).

(** Property read [o.k] on an object: the first binding of [k], or
    [undefined]. *)
Fixpoint assoc (k : string) (props : list (string * value)) : value :=
  match props with
  | [] => VUndefined
  | (k', v) :: rest => if String.eqb k k' then v else assoc k rest
  end.

Definition get (o : value) (k : string) : value :=
  match o with
  | VObj props => assoc k props
  | _ => VUndefined
  end.

(** ToBoolean *)
Definition truthy (v : value) : bool :=
  match v with
  | VUndefined | VNull => false
  | VBool b => b
  | VNum n => negb (JsNum.falsy n)
  | VStr s => match s with [] => false | _ => true end
  | VObj _ => true
  end.

Inductive jstype := TUndefined | TObject | TBoolean | TNumber | TString.

(** The [typeof] operator ([typeof null] is ["object"]). *)
Definition typeof (v : value) : jstype :=
  match v with
  | VUndefined => TUndefined
  | VNull => TObject
  | VBool _ => TBoolean
  | VNum _ => TNumber
  | VStr _ => TString
  | VObj _ => TObject
  end.

Definition is_type (t : jstype) (v : value) : bool :=
  match t, typeof v with
  | TUndefined, TUndefined | TObject, TObject | TBoolean, TBoolean
  | TNumber, TNumber | TString, TString => true
  | _, _ => false
  end.

(** A relational operator applied to a value already known to be a number. *)
Definition num_test (test : number -> bool) (v : value) : bool :=
  match v with
  | VNum n => test n
  | _ => false
  end.

Definition num_rel (rel : number -> number -> bool) (a b : value) : bool :=
  match a, b with
  | VNum x, VNum y => rel x y
  | _, _ => false
  end.

(** ** Retry configuration (retry-utils.js) *)

Module Retry.

(** The destructured fields of a configuration whose four numeric fields
    hold numbers. *)
Record RetryConfig : Type := {
  maxAttempts : number;
  initialDelay : number;
  maxDelay : number;
  backoffMultiplier : number;
  backoffType : value
}.

(** The object literal with these fields. *)
Definition to_object (c : RetryConfig) : value :=
  VObj [("maxAttempts", VNum (maxAttempts c));
        ("initialDelay", VNum (initialDelay c));
        ("maxDelay", VNum (maxDelay c));
        ("backoffMultiplier", VNum (backoffMultiplier c));
        ("backoffType", backoffType c)].

(** [const { maxAttempts, initialDelay, maxDelay, backoffMultiplier,
    backoffType } = config], for numeric fields. *)
Definition fields (config : value) : option RetryConfig :=
  match get config "maxAttempts", get config "initialDelay",
        get config "maxDelay", get config "backoffMultiplier" with
  | VNum m, VNum i, VNum d, VNum b =>
      Some {| maxAttempts := m; initialDelay := i; maxDelay := d;
              backoffMultiplier := b;
              backoffType := get config "backoffType" |}
  | _, _, _, _ => None
  end.

(** [RETRY_CONFIG.portal] and [RETRY_CONFIG.console] *)
Definition RETRY_CONFIG_portal : RetryConfig :=
  {| maxAttempts := of_Z 5; initialDelay := of_Z 200; maxDelay := of_Z 2000;
     backoffMultiplier := of_Z 2; backoffType := VStr (lit "exponential") |}.

Definition RETRY_CONFIG_console : RetryConfig :=
  {| maxAttempts := of_Z 5; initialDelay := of_Z 500; maxDelay := of_Z 2500;
     backoffMultiplier := of_Z 500; backoffType := VStr (lit "linear") |}.

(** [RETRY_CONFIG.elementPolling] *)
Definition elementPolling_pollInterval : Z := 100.
Definition elementPolling_timeout : Z := 3000.

Definition zero : number := of_Z 0.
Definition one : number := of_Z 1.

(** [validateConfig(config)] *)
Definition validateConfig (config : value) : bool :=
  if negb (truthy config) || negb (is_type TObject config) then false else
  let maxAttempts := get config "maxAttempts" in
  let initialDelay := get config "initialDelay" in
  let maxDelay := get config "maxDelay" in
  let backoffMultiplier := get config "backoffMultiplier" in
  if negb (is_type TNumber maxAttempts) || num_test (fun n => leb n zero) maxAttempts
  then false else
  if negb (is_type TNumber initialDelay) || num_test (fun n => ltb n zero) initialDelay
  then false else
  if negb (is_type TNumber maxDelay) || num_test (fun n => ltb n zero) maxDelay
  then false else
  if negb (is_type TNumber backoffMultiplier)
     || num_test (fun n => leb n zero) backoffMultiplier
  then false else
  if num_rel ltb maxDelay initialDelay then false else
  true.

(** Strict equality of a value with a string literal. *)
Definition strict_eq_lit (v : value) (s : string) : bool :=
  match v with
  | VStr u => bool_decide (u = lit s)
  | _ => false
  end.

(** [calculateDelay(attemptNumber, config)] *)
Definition calculateDelay (attemptNumber : nat) (config : RetryConfig) : number :=
  let delay :=
    if strict_eq_lit (backoffType config) "exponential"
    then mul (initialDelay config) (Math_pow (backoffMultiplier config) attemptNumber)
    else add (initialDelay config)
             (mul (backoffMultiplier config) (of_nat attemptNumber)) in
  Math_min delay (maxDelay config).

(** *** The executor *)

(** How an awaited call ends. *)
Inductive outcome : Type :=
| Returns (v : value)
| Throws (error : value).

(** Console output, probe invocations and timer waits, in program order. *)
Inductive event : Type :=
| Warn_invalid_config
| Log_retry_attempt (attempt : nat) (maxAttempts : number)
| Called (o : outcome)
| Log_success (attempt : nat)
| Log_failed_retrying (attempt : nat) (delay : number)
| Log_error_on_attempt (attempt : nat) (error : value)
| Log_retrying_after_error (delay : number)
| Slept (delay : number)
| Warn_exhausted (maxAttempts : number).

Section Executor.

(** The environment of one invocation: the state the probe reads and
    writes, and what a timer wait does to it. *)
Context {World : Type}.
Variable fn : World -> outcome * World.
Variable setTimeout : number -> World -> World.

Record state : Type := { world : World; trace : list event }.

(** Computations that may throw, and diverge when the fuel is spent. *)
Definition M (A : Type) : Type := state -> option (A * state + value * state).

Definition ret {A} (a : A) : M A := fun s => Some (inl (a, s)).
Definition throw {A} (e : value) : M A := fun s => Some (inr (e, s)).
Definition diverge {A} : M A := fun _ => None.

Definition bind {A B} (m : M A) (k : A -> M B) : M B :=
  fun s =>
    match m s with
    | Some (inl (a, s')) => k a s'
    | Some (inr (e, s')) => Some (inr (e, s'))
    | None => None
    end.

Definition try_catch {A} (body : M A) (handler : value -> M A) : M A :=
  fun s =>
    match body s with
    | Some (inr (e, s')) => handler e s'
    | r => r
    end.

Local Notation "x <- m ;; k" := (bind m (fun x => k))
  (at level 100, m at next level, right associativity).
Local Notation "m ;;; k" := (bind m (fun _ => k))
  (at level 100, right associativity).

Definition console (e : event) : M unit :=
  fun s => Some (inl (tt, {| world := world s; trace := trace s ++ [e] |})).

(** [await fn()] *)
Definition await_fn : M value :=
  fun s =>
    let '(o, w) := fn (world s) in
    let s' := {| world := w; trace := trace s ++ [Called o] |} in
    match o with
    | Returns v => ret v s'
    | Throws e => throw e s'
    end.

(** [await new Promise(resolve => setTimeout(resolve, delay))] *)
Definition sleep (delay : number) : M unit :=
  fun s => Some (inl (tt, {| world := setTimeout delay (world s);
                             trace := trace s ++ [Slept delay] |})).

(** What one pass through the loop body decides. *)
Inductive pass : Type :=
| Return_ (result : value)
| Next (lastResult : value).

Definition attempt_body (config : RetryConfig) (attempt : nat)
    (lastResult : value) : M pass :=
  try_catch
    (console (Log_retry_attempt (attempt + 1) (maxAttempts config)) ;;;
     result <- await_fn ;;
     if truthy result then
       console (Log_success (attempt + 1)) ;;;
       ret (Return_ result)
     else
       (if ltb (of_nat attempt) (sub (maxAttempts config) one) then
          let delay := calculateDelay attempt config in
          console (Log_failed_retrying (attempt + 1) delay) ;;;
          sleep delay
        else ret tt) ;;;
       ret (Next result))
    (fun error =>
       console (Log_error_on_attempt (attempt + 1) error) ;;;
       (if ltb (of_nat attempt) (sub (maxAttempts config) one) then
          let delay := calculateDelay attempt config in
          console (Log_retrying_after_error delay) ;;;
          sleep delay
        else ret tt) ;;;
       ret (Next lastResult)).

(** [for (let attempt = 0; attempt < maxAttempts; attempt++) { ... }]
    and the code after the loop. *)
Fixpoint attempts (fuel : nat) (config : RetryConfig) (attempt : nat)
    (lastResult : value) : M value :=
  match fuel with
  | O => diverge
  | S fuel' =>
      if ltb (of_nat attempt) (maxAttempts config) then
        p <- attempt_body config attempt lastResult ;;
        match p with
        | Return_ result => ret result
        | Next lastResult' => attempts fuel' config (S attempt) lastResult'
        end
      else
        console (Warn_exhausted (maxAttempts config)) ;;;
        ret lastResult
  end.

(** The configuration the executor runs under: the caller's when it
    validates, otherwise none. *)
Definition accepted (config : value) : option RetryConfig :=
  if validateConfig config then fields config else None.

(** [retryWithBackoff(fn, config)] *)
Definition retryWithBackoff (fuel : nat) (config : value) : M value :=
  config' <- match accepted config with
             | Some c => ret c
             | None => console Warn_invalid_config ;;; ret RETRY_CONFIG_portal
             end ;;
  attempts fuel config' 0 VNull.

Definition start (w : World) : state := {| world := w; trace := [] |}.

End Executor.

(** The outcomes of the probe invocations recorded in a trace. *)
Definition calls (tr : list event) : list outcome :=
  omap (fun e => match e with Called o => Some o | _ => None end) tr.

(** The delays of the timer waits recorded in a trace. *)
Definition delays (tr : list event) : list number :=
  omap (fun e => match e with Slept d => Some d | _ => None end) tr.

End Retry.

(** ** Element polling (retry-utils.js) *)

Module Poller.

Import Retry.

(** How the promise returned by [waitForElement] ends: resolved, rejected,
    or left pending for ever after an error thrown inside a timer callback,
    which nothing catches. *)
Inductive promise : Type :=
| Resolved (v : value)
| Rejected (error : value)
| Pending (uncaught : value).

Inductive event : Type :=
| Queried (selector : jsstring) (o : outcome)
| Log_element_found (selector : jsstring)
| Warn_element_not_found (timeout : number) (selector : jsstring)
| Timer (delay : Z).

Section WaitForElement.

(** The page: what [Date.now()] and [document.querySelector] read, and
    the page as the next timer callback finds it. *)
Context {World : Type}.
Variable Date_now : World -> number.
Variable querySelector : jsstring -> World -> outcome.
Variable setTimeout : Z -> World -> World.

(** The function [check]; [in_executor] tells the first, synchronous call
    made by the promise executor from the later ones made by timers. *)
Fixpoint check (fuel : nat) (in_executor : bool) (selector : jsstring)
    (timeout startTime : number) (w : World) (tr : list event)
    : option (promise * World * list event) :=
  match fuel with
  | O => None
  | S fuel' =>
      let o := querySelector selector w in
      let tr := tr ++ [Queried selector o] in
      match o with
      | Throws error =>
          Some (if in_executor then Rejected error else Pending error, w, tr)
      | Returns element =>
          if truthy element then
            Some (Resolved element, w, tr ++ [Log_element_found selector])
          else
            let elapsed := sub (Date_now w) startTime in
            if geb elapsed timeout then
              Some (Resolved VNull, w,
                    tr ++ [Warn_element_not_found timeout selector])
            else
              check fuel' false selector timeout startTime
                (setTimeout elementPolling_pollInterval w)
                (tr ++ [Timer elementPolling_pollInterval])
      end
  end.

(** [waitForElement(selector, timeout = RETRY_CONFIG.elementPolling.timeout)];
    [None] for the timeout stands for an omitted argument. *)
Definition waitForElement (fuel : nat) (selector : jsstring)
    (timeout : option number) (w : World)
    : option (promise * World * list event) :=
  let timeout := default (of_Z elementPolling_timeout) timeout in
  let startTime := Date_now w in
  check fuel true selector timeout startTime w [].

(** The page as the poll number [i] finds it. *)
Fixpoint page_at (i : nat) (w : World) : World :=
  match i with
  | O => w
  | S j => setTimeout elementPolling_pollInterval (page_at j w)
  end.

(** A poll that neither finds the element, nor reaches the timeout, nor
    raises: another one follows it. *)
Definition keeps_polling (selector : jsstring) (timeout startTime : number)
    (w : World) : bool :=
  match querySelector selector w with
  | Returns element =>
      negb (truthy element) && negb (geb (sub (Date_now w) startTime) timeout)
  | Throws _ => false
  end.

End WaitForElement.

(** A page for concrete runs: a clock, the elements present with the
    selector that finds each, and the time at which each appears.  As in a
    browser, the empty selector is a syntax error. *)
Record page : Type := {
  clock : Z;
  elements : list (jsstring * Z * value)
}.

Definition SyntaxError : value :=
  VObj [("name", VStr (lit "SyntaxError"))].

Fixpoint find_element (selector : jsstring) (now : Z)
    (els : list (jsstring * Z * value)) : value :=
  match els with
  | [] => VNull
  | (sel, since, el) :: rest =>
      if bool_decide (sel = selector) && (since <=? now)
      then el else find_element selector now rest
  end.

Definition page_query (selector : jsstring) (p : page) : outcome :=
  match selector with
  | [] => Throws SyntaxError
  | _ => Returns (find_element selector (clock p) (elements p))
  end.

Definition page_now (p : page) : number := of_Z (clock p).

Definition page_timer (delay : Z) (p : page) : page :=
  {| clock := clock p + delay; elements := elements p |}.

End Poller.

(** ** Validation of account data (validation.js) *)

Module Validation.

(** [\d]: an ASCII digit. *)
Definition is_digit (c : N) : bool := (48 <=? c)%N && (c <=? 57)%N.

(** White space and line terminators, the code units [trim] removes. *)
Definition is_space (c : N) : bool :=
  match c with
  | 9 | 10 | 11 | 12 | 13 | 32 | 160 | 5760 | 8232 | 8233 | 8239 | 8287
  | 12288 | 65279 => true
  | _ => (8192 <=? c)%N && (c <=? 8202)%N
  end%N.

Fixpoint trimStart (s : jsstring) : jsstring :=
  match s with
  | c :: rest => if is_space c then trimStart rest else s
  | [] => []
  end.

Definition trimEnd (s : jsstring) : jsstring := rev (trimStart (rev s)).

(** [s.trim()] *)
Definition trim (s : jsstring) : jsstring := trimEnd (trimStart s).

(** [s.substring(0, n)] *)
Definition substring0 (n : nat) (s : jsstring) : jsstring := take n s.

(** [isValidAccountId(id)]: [typeof id === 'string' && /^\d{12}$/.test(id)] *)
Definition isValidAccountId (id : value) : bool :=
  match id with
  | VStr s => (length s =? 12)%nat && forallb is_digit s
  | _ => false
  end.

(** [isValidAccountName(name)] *)
Definition isValidAccountName (name : value) : bool :=
  match name with
  | VStr s => (0 <? length (trim s))%nat && (length s <=? 256)%nat
  | _ => false
  end.

(** [sanitizeAccountName(name)] *)
Definition sanitizeAccountName (name : value) : jsstring :=
  match name with
  | VStr s => substring0 256 (trim s)
  | _ => []
  end.

End Validation.

(** ** The storage service (storage.js) *)

Module Storage.

Import Validation.

(** A stored mapping. *)
Record AccountMapping : Type := {
  accountId : jsstring;
  accountName : jsstring;
  lastUpdated : Z
}.

(** An element of the array handed to [storeAccounts]. *)
Record AccountInput : Type := {
  in_accountId : value;
  in_accountName : value
}.

(** What is kept under a key of the storage area. *)
Inductive item : Type :=
| Accounts (m : gmap jsstring AccountMapping)
| Number (n : number).

(** The browser: the local storage area, the clock, and whether the storage
    API currently rejects its calls (with which message). *)
Record browser : Type := {
  area : gmap string item;
  now : Z;
  fault : option jsstring
}.

(** [chrome.storage.local.set(items)]: each given key is overwritten, the
    other keys are kept. *)
Definition chrome_storage_local_set (items : list (string * item))
    (b : browser) : (unit + jsstring) * browser :=
  match fault b with
  | Some msg => (inr msg, b)
  | None =>
      (inl tt,
       {| area := foldl (fun a kv => <[kv.1 := kv.2]> a) (area b) items;
          now := now b; fault := fault b |})
  end.

(** [chrome.storage.local.get(keys)] *)
Definition chrome_storage_local_get (keys : list string) (b : browser)
    : gmap string item + jsstring :=
  match fault b with
  | Some msg => inr msg
  | None => inl (filter (fun kv => kv.1 ∈ keys) (area b))
  end.

(** [chrome.storage.local.clear()] *)
Definition chrome_storage_local_clear (b : browser)
    : (unit + jsstring) * browser :=
  match fault b with
  | Some msg => (inr msg, b)
  | None => (inl tt, {| area := ∅; now := now b; fault := fault b |})
  end.

Record StoreResult : Type := {
  success : bool;
  error : option jsstring
}.

Record NameResult : Type := {
  nr_success : bool;
  nr_accountName : option jsstring;   (* [None] is [null] *)
  nr_error : option jsstring
}.

(** One turn of the loop of [storeAccounts]. *)
Definition add_account (b : browser)
    (validAccounts : gmap jsstring AccountMapping) (account : AccountInput)
    : gmap jsstring AccountMapping :=
  if isValidAccountId (in_accountId account)
     && isValidAccountName (in_accountName account)
  then
    match in_accountId account with
    | VStr id =>
        <[id := {| accountId := id;
                   accountName := sanitizeAccountName (in_accountName account);
                   lastUpdated := now b |}]> validAccounts
    | _ => validAccounts
    end
  else validAccounts.

(** [storeAccounts(accounts)] *)
Definition storeAccounts (accounts : list AccountInput) (b : browser)
    : StoreResult * browser :=
  let validAccounts := foldl (add_account b) ∅ accounts in
  match chrome_storage_local_set
          [("accounts", Accounts validAccounts); ("version", Number (of_Z 1))] b
  with
  | (inl _, b') => ({| success := true; error := None |}, b')
  | (inr msg, b') => ({| success := false; error := Some msg |}, b')
  end.

(** [result.accounts || {}] *)
Definition accounts_or_empty (result : gmap string item)
    : gmap jsstring AccountMapping :=
  match result !! "accounts" with
  | Some (Accounts m) => m
  | _ => ∅
  end.

(** [getAccountName(accountId)] *)
Definition getAccountName (accountId : value) (b : browser) : NameResult :=
  if negb (isValidAccountId accountId) then
    {| nr_success := false; nr_accountName := None;
       nr_error := Some (lit "Invalid account ID") |}
  else
    match chrome_storage_local_get ["accounts"] b with
    | inr msg =>
        {| nr_success := false; nr_accountName := None; nr_error := Some msg |}
    | inl result =>
        let accounts := accounts_or_empty result in
        let account :=
          match accountId with
          | VStr id => accounts !! id
          | _ => None
          end in
        {| nr_success := true;
           nr_accountName := Storage.accountName <$> account;
           nr_error := None |}
    end.

(** [clearAllAccounts()] *)
Definition clearAllAccounts (b : browser) : StoreResult * browser :=
  match chrome_storage_local_clear b with
  | (inl _, b') => ({| success := true; error := None |}, b')
  | (inr msg, b') => ({| success := false; error := Some msg |}, b')
  end.

Record AllResult : Type := {
  ar_success : bool;
  ar_accounts : gmap jsstring AccountMapping;
  ar_error : option jsstring
}.

(** [getAllAccounts()] *)
Definition getAllAccounts (b : browser) : AllResult :=
  match chrome_storage_local_get ["accounts"] b with
  | inl result =>
      {| ar_success := true; ar_accounts := accounts_or_empty result;
         ar_error := None |}
  | inr msg => {| ar_success := false; ar_accounts := ∅; ar_error := Some msg |}
  end.

End Storage.

(** ** The display element (console content script) *)

Module Display.

(** [CONFIG.maxNameLength] and [CONFIG.displayElementId] *)
Definition CONFIG_maxNameLength : Z := 30.
Definition CONFIG_displayElementId : jsstring := lit "aws-account-name-display".

(** [truncateText(text, maxLength = CONFIG.maxNameLength)] on a string; a
    negative end index of [substring] counts as zero. *)
Definition truncateText (text : jsstring) (maxLength : Z) : jsstring :=
  if negb (truthy (VStr text)) || (Z.of_nat (length text) <=? maxLength)
  then text
  else take (Z.to_nat (maxLength - 3)) text ++ lit "...".

(** The [span] created for the display. *)
Record element : Type := {
  tagName : jsstring;
  id : jsstring;
  className : jsstring;
  textContent : jsstring;
  title : jsstring;
  attributes : list (jsstring * jsstring)
}.

Record display : Type := {
  displayText : jsstring;
  tooltipText : jsstring;
  node : element
}.

(** [createDisplayElement(accountName, accountId)] *)
Definition createDisplayElement (accountName accountId : jsstring) : display :=
  let displayText := truncateText accountName CONFIG_maxNameLength in
  let tooltipText := accountName ++ lit " (" ++ accountId ++ lit ")" in
  {| displayText := displayText;
     tooltipText := tooltipText;
     node := {| tagName := lit "span";
                id := CONFIG_displayElementId;
                className := lit "aws-account-name-display";
                textContent := displayText;
                title := tooltipText;
                attributes := [(lit "data-account-id", accountId);
                               (lit "data-full-name", accountName)] |} |}.

End Display.

(** ** The properties, as the specification words them *)

Module Spec.

Import Retry.

(** "[v] is a number > 0", "[v] is a number >= 0", "[a >= b]". *)
Definition number_gt0 (v : value) : bool := num_test (fun n => gtb n zero) v.
Definition number_ge0 (v : value) : bool := num_test (fun n => geb n zero) v.

Definition is_object (v : value) : bool :=
  match v with VObj _ => true | _ => false end.

(** The validity of a configuration, as the contract of the validator
    states it. *)
Definition valid_config (config : value) : bool :=
  is_object config
  && number_gt0 (get config "maxAttempts")
  && number_ge0 (get config "initialDelay")
  && number_ge0 (get config "maxDelay")
  && number_gt0 (get config "backoffMultiplier")
  && num_rel geb (get config "maxDelay") (get config "initialDelay").

(** None of the four numeric fields is NaN. *)
Definition nan_free (config : value) : bool :=
  forallb (fun k => negb (num_test is_nan (get config k)))
    ["maxAttempts"; "initialDelay"; "maxDelay"; "backoffMultiplier"].



(** A failed attempt: a falsy return or a raised error. *)
Definition failed (o : outcome) : bool :=
  match o with
  | Returns v => negb (truthy v)
  | Throws _ => true
  end.

(** The last falsy value returned in a series of failed attempts, [null]
    when there is none. *)
Definition keep_falsy (last : value) (o : outcome) : value :=
  match o with
  | Returns v => v
  | Throws _ => last
  end.

Definition last_falsy (os : list outcome) : value := foldl keep_falsy VNull os.

(** How many times the loop of the executor can go round: the least
    natural number that is not below [maxAttempts]; none for [Infinity]. *)
Definition rounds (maxAttempts : number) : option nat :=
  match maxAttempts with
  | Fin q => Some (Z.to_nat (Qceiling q))
  | PosInf => None
  | NegInf | NaN => Some O
  end.

Section Schedule.

Context {World : Type}.
Variable fn : World -> outcome * World.
Variable setTimeout : number -> World -> World.

(** The world in which the probe is invoked for the [i]-th time (from 0)
    when every earlier invocation failed: each failure is followed by
    the wait computed for it. *)
Fixpoint world_at (c : RetryConfig) (i : nat) (w : World) : World :=
  match i with
  | O => w
  | S j => setTimeout (calculateDelay j c) (fn (world_at c j w)).2
  end.

Definition outcome_at (c : RetryConfig) (w : World) (i : nat) : outcome :=
  (fn (world_at c i w)).1.

Definition outcomes (c : RetryConfig) (w : World) (n : nat) : list outcome :=
  outcome_at c w <$> seq 0 n.

End Schedule.

(** A run with the events [pre] logged before it. *)
Definition after_events {World A} (pre : list event)
    (r : option (A * @state World + value * @state World))
    : option (A * @state World + value * @state World) :=
  let shift s := {| world := world s; trace := pre ++ trace s |} in
  match r with
  | Some (inl (a, s)) => Some (inl (a, shift s))
  | Some (inr (e, s)) => Some (inr (e, shift s))
  | None => None
  end.

(** The test that decides whether a wait follows a failed attempt. *)
Definition pause (c : RetryConfig) (a : nat) : bool :=
  ltb (of_nat a) (sub (maxAttempts c) one).

(** The configuration a run is under: the caller's when the validator
    accepts it, the portal preset otherwise. *)
Definition effective (config : value) : RetryConfig :=
  default RETRY_CONFIG_portal (accepted config).

(** An invocation of the probe, or a timer wait. *)
Inductive step : Type :=
| Call (o : outcome)
| Wait (delay : number).

(** The invocations and the waits recorded in a trace, in program order. *)
Definition steps (tr : list event) : list step :=
  omap (fun e => match e with
                 | Called o => Some (Call o)
                 | Slept d => Some (Wait d)
                 | _ => None
                 end) tr.

(** Invocations with one wait between two consecutive ones and none after
    the last: the wait that follows the invocation number [i] lasts
    [calculateDelay(i, config)]. *)
Fixpoint alternating (c : RetryConfig) (i : nat) (os : list outcome)
    : list step :=
  match os with
  | [] => []
  | o :: rest =>
      Call o :: match rest with
                | [] => []
                | _ :: _ => Wait (calculateDelay i c) :: alternating c (S i) rest
                end
  end.

(** A well-formed identifier: a string of exactly 12 ASCII digits. *)
Definition twelve_digits (v : value) : Prop :=
  exists s : jsstring,
    v = VStr s /\ length s = 12%nat /\ Forall (fun c => 48 <= c <= 57)%N s.

(** A well-formed name: a string that is not empty once trimmed and has at
    most 256 characters. *)
Definition name_within_limits (v : value) : Prop :=
  exists s : jsstring,
    v = VStr s /\ Validation.trim s <> [] /\ (length s <= 256)%nat.

Definition malformed (r : Storage.AccountInput) : Prop :=
  ~ twelve_digits (Storage.in_accountId r)
  \/ ~ name_within_limits (Storage.in_accountName r).

(** What the loop of [storeAccounts] tests on a record. *)
Definition record_ok (r : Storage.AccountInput) : bool :=
  Validation.isValidAccountId (Storage.in_accountId r)
  && Validation.isValidAccountName (Storage.in_accountName r).

Definition has_id (id : jsstring) (r : Storage.AccountInput) : bool :=
  match Storage.in_accountId r with
  | VStr s => bool_decide (s = id)
  | _ => false
  end.

(** The record of a batch that decides what is stored for [id]: the last
    accepted one that carries it. *)
Definition kept (id : jsstring) (batch : list Storage.AccountInput)
    : option Storage.AccountInput :=
  last (List.filter (fun r => record_ok r && has_id id r) batch).

(** The mapping written for a record kept under [id]. *)
Definition stored_as (b : Storage.browser) (id : jsstring)
    (r : Storage.AccountInput) : Storage.AccountMapping :=
  {| Storage.accountId := id;
     Storage.accountName := Validation.sanitizeAccountName (Storage.in_accountName r);
     Storage.lastUpdated := Storage.now b |}.

(** The identifiers a batch mentions. *)
Definition ids (batch : list Storage.AccountInput) : list value :=
  Storage.in_accountId <$> batch.

(** The clock moves between two calls. *)
Definition tick (t : Z) (b : Storage.browser) : Storage.browser :=
  {| Storage.area := Storage.area b; Storage.now := t;
     Storage.fault := Storage.fault b |}.

(** The browser after a call of [storeAccounts] that ended at time [t]. *)
Definition after_store (batch : list Storage.AccountInput) (t : Z)
    (b : Storage.browser) : Storage.browser :=
  tick t (Storage.storeAccounts batch b).2.

(** An answer of [getAccountName] that succeeds. *)
Definition found (name : option jsstring) : Storage.NameResult :=
  {| Storage.nr_success := true; Storage.nr_accountName := name;
     Storage.nr_error := None |}.

(** Every code unit of the string is white space. *)
Definition blank (s : jsstring) : Prop := Forall (fun c => Validation.is_space c = true) s.

(** A computation that never throws. *)
Definition no_throw {World A} (m : @M World A) : Prop :=
  forall s e s', m s <> Some (inr (e, s')).

(** A computation that only appends to the trace, whatever it holds. *)
Definition framed {World A} (m : @M World A) : Prop :=
  forall w pre tr,
    m {| world := w; trace := pre ++ tr |}
    = after_events pre (m {| world := w; trace := tr |}).

End Spec.

(** ** Concrete configurations, probes and pages *)

Module Samples.

Import Retry.

(** A configuration whose attempt count is NaN. *)
Definition nan_config : value :=
  to_object {| maxAttempts := NaN; initialDelay := of_Z 0; maxDelay := of_Z 0;
               backoffMultiplier := of_Z 1;
               backoffType := VStr (lit "exponential") |}.

(** An accepted configuration that starts from no delay and multiplies
    by ten: the power overflows at the attempt index 309. *)
Definition zero_start : RetryConfig :=
  {| maxAttempts := of_Z 400; initialDelay := of_Z 0; maxDelay := of_Z 1000;
     backoffMultiplier := of_Z 10; backoffType := VStr (lit "exponential") |}.

(** Three attempts, delays 200 and 400. *)
Definition three_attempts : RetryConfig :=
  {| maxAttempts := of_Z 3; initialDelay := of_Z 200; maxDelay := of_Z 2000;
     backoffMultiplier := of_Z 2; backoffType := VStr (lit "exponential") |}.

(** Probes over a call counter. *)
Definition always_null (calls : nat) : outcome * nat := (Returns VNull, S calls).

Definition data_x : value := VObj [("data", VStr (lit "x"))].

Definition third_time_lucky (calls : nat) : outcome * nat :=
  (if (calls =? 2)%nat then Returns data_x else Returns VNull, S calls).

(** A probe that returns [null], then raises, then returns an object. *)
Definition null_then_error (calls : nat) : outcome * nat :=
  (match calls with
   | O => Returns VNull
   | S O => Throws (VStr (lit "boom"))
   | _ => Returns data_x
   end, S calls).

Definition idle (delay : number) (calls : nat) : nat := calls.

(** A page without elements, at time 0. *)
Definition empty_page : Poller.page :=
  {| Poller.clock := 0; Poller.elements := [] |}.

(** A page on which the element for [#menu] appears at time 150. *)
Definition menu : value := VObj [("id", VStr (lit "menu"))].

Definition late_page : Poller.page :=
  {| Poller.clock := 0; Poller.elements := [(lit "#menu", 150, menu)] |}.

(** A browser with an empty storage area. *)
Definition fresh : Storage.browser :=
  {| Storage.area := ∅; Storage.now := 1700000000000; Storage.fault := None |}.

Definition account (id name : string) : Storage.AccountInput :=
  {| Storage.in_accountId := VStr (lit id);
     Storage.in_accountName := VStr (lit name) |}.

End Samples.

(** ** The background service worker (background.js) *)

Module Background.

Import Validation Storage.

(** What a response reports as its error: a message, of the code or of the
    storage API; a [TypeError] raised by the language; or the message type
    that is not known. *)
Inductive failure : Type :=
| Message (text : jsstring)
| TypeError
| Unknown_message_type (type : value).

(** The responses: [{success, error?}], [{success, accountName, error?}]
    and [{success, accountId, accountName?, error?}]; [None] for an
    identifier or a name is [null]. *)
Inductive response : Type :=
| Status (success : bool) (error : option failure)
| Name (success : bool) (accountName : option jsstring) (error : option failure)
| Id (success : bool) (accountId : option jsstring)
     (accountName : option jsstring) (error : option failure).

(** The element of the array as the loop reads it; reading a property of
    [null] or [undefined] raises. *)
Definition read_account (account : value) : option AccountInput :=
  match account with
  | VUndefined | VNull => None
  | _ => Some {| in_accountId := get account "accountId";
                 in_accountName := get account "accountName" |}
  end.

(** The loop of [storeAccounts] over the elements of the array. *)
Fixpoint collect (b : browser) (accounts : list value)
    (validAccounts : gmap jsstring AccountMapping)
    : option (gmap jsstring AccountMapping) :=
  match accounts with
  | [] => Some validAccounts
  | account :: rest =>
      match read_account account with
      | None => None
      | Some r => collect b rest (add_account b validAccounts r)
      end
  end.

(** [storeAccounts(accounts)], the validation functions being the inline
    copies of those of validation.js. *)
Definition storeAccounts (accounts : list value) (b : browser)
    : response * browser :=
  match collect b accounts ∅ with
  | None => (Status false (Some TypeError), b)
  | Some validAccounts =>
      match chrome_storage_local_set
              [("accounts", Accounts validAccounts); ("version", Number (of_Z 1))]
              b
      with
      | (inl _, b') => (Status true None, b')
      | (inr msg, b') => (Status false (Some (Message msg)), b')
      end
  end.

(** [getAccountName(accountId)] *)
Definition getAccountName (accountId : value) (b : browser) : response :=
  if negb (isValidAccountId accountId) then
    Name false None (Some (Message (lit "Invalid account ID")))
  else
    match chrome_storage_local_get ["accounts"] b with
    | inr msg => Name false None (Some (Message msg))
    | inl result =>
        let accounts := accounts_or_empty result in
        let account :=
          match accountId with
          | VStr id => accounts !! id
          | _ => None
          end in
        Name true (Storage.accountName <$> account) None
    end.

(** [t.startsWith(s)] and [s.includes(t)] *)
Fixpoint starts_with (t s : jsstring) : bool :=
  match t, s with
  | [], _ => true
  | c :: t', d :: s' => (c =? d)%N && starts_with t' s'
  | _ :: _, [] => false
  end.

Fixpoint includes (s t : jsstring) : bool :=
  starts_with t s
  || match s with
     | [] => false
     | _ :: s' => includes s' t
     end.

Section ByName.

(** The case mapping of the language, and the order in which
    [Object.entries] lists the stored mappings (each of them once). *)
Variable toLowerCase : jsstring -> jsstring.
Variable Object_entries :
  gmap jsstring AccountMapping -> list (jsstring * AccountMapping).

(** The test of the first loop: the same name, case and surrounding white
    space apart. *)
Definition same_name (searchName : jsstring)
    (entry : jsstring * AccountMapping) : bool :=
  bool_decide (trim (toLowerCase (Storage.accountName entry.2)) = searchName).

(** The test of the second loop: one name contains the other. *)
Definition similar_name (searchName : jsstring)
    (entry : jsstring * AccountMapping) : bool :=
  includes (toLowerCase (Storage.accountName entry.2)) searchName
  || includes searchName (toLowerCase (Storage.accountName entry.2)).

(** [getAccountByName(accountName)] *)
Definition getAccountByName (accountName : value) (b : browser) : response :=
  match chrome_storage_local_get ["accounts"] b with
  | inr msg => Id false None None (Some (Message msg))
  | inl result =>
      let accounts := accounts_or_empty result in
      match accountName with
      | VStr name =>
          let searchName := trim (toLowerCase name) in
          match List.find (same_name searchName) (Object_entries accounts) with
          | Some (accountId, account) =>
              Id true (Some accountId) (Some (Storage.accountName account)) None
          | None =>
              match List.find (similar_name searchName)
                      (Object_entries accounts) with
              | Some (accountId, account) =>
                  Id true (Some accountId)
                    (Some (Storage.accountName account)) None
              | None => Id true None None None
              end
          end
      | _ => Id false None None (Some TypeError)
      end
  end.

(** [clearAllAccounts()] *)
Definition clearAllAccounts (b : browser) : response * browser :=
  match chrome_storage_local_clear b with
  | (inl _, b') => (Status true None, b')
  | (inr msg, b') => (Status false (Some (Message msg)), b')
  end.

(** The [accounts] field of a message: an array of values or anything else. *)
Inductive accounts_field : Type :=
| Not_an_array (v : value)
| Array (items : list value).

(** The fields of a message that the handler reads; an absent field is
    [undefined]. *)
Record message : Type := {
  type : value;
  accounts : accounts_field;
  accountId : value;
  accountName : value
}.

(** [handleMessage(message, sender, sendResponse)]; [None] stands for a
    message that is not an object. *)
Definition handleMessage (m : option message) (b : browser)
    : response * browser :=
  match m with
  | None => (Status false (Some (Message (lit "Invalid message format"))), b)
  | Some message =>
      if negb (truthy (type message)) then
        (Status false (Some (Message (lit "Invalid message format"))), b)
      else if Retry.strict_eq_lit (type message) "STORE_ACCOUNTS" then
        match accounts message with
        | Array items => storeAccounts items b
        | Not_an_array _ =>
            (Status false (Some (Message (lit "Accounts must be an array"))), b)
        end
      else if Retry.strict_eq_lit (type message) "GET_ACCOUNT_NAME" then
        if negb (truthy (accountId message)) then
          (Name false None (Some (Message (lit "Account ID required"))), b)
        else (getAccountName (accountId message) b, b)
      else if Retry.strict_eq_lit (type message) "GET_ACCOUNT_BY_NAME" then
        if negb (truthy (accountName message)) then
          (Id false None None (Some (Message (lit "Account name required"))), b)
        else (getAccountByName (accountName message) b, b)
      else if Retry.strict_eq_lit (type message) "CLEAR_DATA" then
        clearAllAccounts b
      else (Status false (Some (Unknown_message_type (type message))), b)
  end.

End ByName.

(** The messages the content scripts send. *)
Definition STORE_ACCOUNTS (items : list value) : option message :=
  Some {| type := VStr (lit "STORE_ACCOUNTS"); accounts := Array items;
          accountId := VUndefined; accountName := VUndefined |}.

Definition GET_ACCOUNT_NAME (accountId : value) : option message :=
  Some {| type := VStr (lit "GET_ACCOUNT_NAME");
          accounts := Not_an_array VUndefined;
          accountId := accountId; accountName := VUndefined |}.

Definition GET_ACCOUNT_BY_NAME (accountName : value) : option message :=
  Some {| type := VStr (lit "GET_ACCOUNT_BY_NAME");
          accounts := Not_an_array VUndefined;
          accountId := VUndefined; accountName := accountName |}.

Definition CLEAR_DATA : option message :=
  Some {| type := VStr (lit "CLEAR_DATA"); accounts := Not_an_array VUndefined;
          accountId := VUndefined; accountName := VUndefined |}.

End Background.

(** ** Waiting for the account menu (console content script) *)

Module Console.

Import Retry Poller.

(** [CONFIG.waitTimeout] and [CONFIG.pollInterval] *)
Definition CONFIG_waitTimeout : Z := 5000.
Definition CONFIG_pollInterval : Z := 100.

(** [CONSOLE_SELECTORS.accountMenu] and [CONSOLE_SELECTORS.accountMenuAlt] *)
Definition quoted (s : string) : jsstring := [34%N] ++ lit s ++ [34%N].

Definition accountMenu : jsstring :=
  lit "[data-testid=" ++ quoted "awsc-nav-account-menu-button" ++ lit "]".

Definition accountMenuAlt : jsstring :=
  lit "#nav-usernameMenu, [data-testid=" ++ quoted "account-menu-button"
  ++ lit "], [data-testid="
  ++ quoted "more-menu__awsc-nav-account-menu-button" ++ lit "]".

Section WaitForAccountElement.

Context {World : Type}.
Variable querySelector : jsstring -> World -> outcome.
Variable Date_now : World -> number.
Variable setTimeout : number -> World -> World.

(** [document.querySelector(accountMenu) ||
    document.querySelector(accountMenuAlt)] *)
Definition query_menu (w : World) : outcome :=
  match querySelector accountMenu w with
  | Throws e => Throws e
  | Returns element =>
      if truthy element then Returns element
      else querySelector accountMenuAlt w
  end.

(** The probe handed to the retry function: [element || null]. *)
Definition menu_probe (w : World) : outcome * World :=
  (match query_menu w with
   | Throws e => Throws e
   | Returns element => Returns (if truthy element then element else VNull)
   end, w).

(** The polling used when the retry function is not loaded. *)
Fixpoint poll_menu (fuel : nat) (in_executor : bool)
    (timeout startTime : number) (w : World) : option (promise * World) :=
  match fuel with
  | O => None
  | S fuel' =>
      match query_menu w with
      | Throws e => Some (if in_executor then Rejected e else Pending e, w)
      | Returns element =>
          if truthy element then Some (Resolved element, w)
          else if geb (sub (Date_now w) startTime) timeout then
            Some (Resolved VNull, w)
          else
            poll_menu fuel' false timeout startTime
              (setTimeout (of_Z CONFIG_pollInterval) w)
      end
  end.

(** [waitForAccountElement(timeout = CONFIG.waitTimeout)]; [retry_loaded]
    tells whether [retryWithBackoff] is available, the configuration being
    the console preset in both of its spellings.  The result carries the
    trace of the retry function. *)
Definition waitForAccountElement (retry_loaded : bool) (fuel : nat)
    (timeout : option number) (w : World)
    : option (promise * World * list Retry.event) :=
  let timeout := default (of_Z CONFIG_waitTimeout) timeout in
  let config := to_object RETRY_CONFIG_console in
  if negb retry_loaded then
    match poll_menu fuel true timeout (Date_now w) w with
    | Some (p, w') => Some (p, w', [])
    | None => None
    end
  else
    match retryWithBackoff menu_probe setTimeout fuel config (start w) with
    | Some (inl (result, s)) => Some (Resolved result, world s, trace s)
    | Some (inr (e, s)) => Some (Rejected e, world s, trace s)
    | None => None
    end.

End WaitForAccountElement.

End Console.

(** ** Extraction from a portal element (portal-content.js) *)

Module Portal.

Import Validation.

(** What [extractAccountFromElement] reads of an element: its text, and
    the text of the descendant found by each of the four selectors, if
    any. *)
Record element : Type := {
  textContent : jsstring;
  name_primary : option jsstring;
  id_primary : option jsstring;
  name_fallback : option jsstring;
  id_fallback : option jsstring
}.

Record extracted : Type := {
  accountId : jsstring;
  accountName : jsstring
}.

(** [\w] *)
Definition is_word (c : N) : bool :=
  is_digit c || ((65 <=? c)%N && (c <=? 90)%N)
  || ((97 <=? c)%N && (c <=? 122)%N) || (c =? 95)%N.

(** The string begins with 12 digits. *)
Definition twelve_digits_here (s : jsstring) : bool :=
  (12 <=? length s)%nat && forallb is_digit (take 12 s).

(** The first match of [/\b(\d{12})\b/]: 12 digits with no word character
    just before or just after them; [prev_word] tells whether the
    character before the string is a word character. *)
Fixpoint match_id (prev_word : bool) (s : jsstring) : option jsstring :=
  match s with
  | [] => None
  | c :: rest =>
      if negb prev_word && twelve_digits_here s
         && match drop 12 s with
            | [] => true
            | d :: _ => negb (is_word d)
            end
      then Some (take 12 s)
      else match_id (is_word c) rest
  end.

(** [s.replace(/\d{12}/, '')]: the first 12 digits in a row are removed. *)
Fixpoint remove_twelve_digits (s : jsstring) : jsstring :=
  match s with
  | [] => []
  | c :: rest =>
      if twelve_digits_here s then drop 12 s
      else c :: remove_twelve_digits rest
  end.

(** [s.split('\n')] *)
Fixpoint split_lines (s : jsstring) : list jsstring :=
  match s with
  | [] => [[]]
  | c :: rest =>
      if (c =? 10)%N then [] :: split_lines rest
      else match split_lines rest with
           | l :: ls => (c :: l) :: ls
           | [] => [[c]]
           end
  end.

Definition nonempty (s : jsstring) : bool :=
  match s with [] => false | _ => true end.

(** [a || b] on what two selectors find. *)
Definition or_else (a b : option jsstring) : option jsstring :=
  match a with
  | Some x => Some x
  | None => b
  end.

(** [extractAccountFromElement(element)]; [None] is [null]. *)
Definition extractAccountFromElement (el : element) : option extracted :=
  let nameEl := or_else (name_primary el) (name_fallback el) in
  let idEl := or_else (id_primary el) (id_fallback el) in
  match nameEl, idEl with
  | Some nameText, Some idText =>
      let accountId := List.filter is_digit idText in
      let accountName := trim nameText in
      if negb (length accountId =? 12)%nat then None
      else Some {| accountId := accountId; accountName := accountName |}
  | _, _ =>
      let text := textContent el in
      match match_id false text with
      | Some id =>
          let lines := List.filter nonempty (trim <$> split_lines text) in
          let accountName :=
            match lines with
            | l :: _ => l
            | [] => lit "Unknown"
            end in
          let cleaned := trim (remove_twelve_digits accountName) in
          Some {| accountId := id;
                  accountName := if nonempty cleaned then cleaned
                                 else accountName |}
      | None => None
      end
  end.

(** The record sent to the worker. *)
Definition to_record (x : extracted) : Storage.AccountInput :=
  {| Storage.in_accountId := VStr (accountId x);
     Storage.in_accountName := VStr (accountName x) |}.

End Portal.

(** ** Further notions used to state properties of the code *)

Module Notions.

Import Retry.

(** A configuration that never stops retrying. *)
Definition unbounded : RetryConfig :=
  {| maxAttempts := PosInf; initialDelay := of_Z 0; maxDelay := of_Z 0;
     backoffMultiplier := of_Z 1; backoffType := VStr (lit "linear") |}.

(** The number of polls that a finite timeout of [q] milliseconds allows at
    most, when each timer wait lasts at least the polling interval. *)
Definition max_polls (q : Q) : nat :=
  S (Z.to_nat ((Qceiling q + 99) / elementPolling_pollInterval)).

(** The number of queries recorded in a trace of the poller. *)
Definition queries (tr : list Poller.event) : nat :=
  length (List.filter
            (fun e => match e with Poller.Queried _ _ => true | _ => false end)
            tr).

(** An outcome of the menu probe: what it returns is [null] or truthy. *)
Definition null_or_found (o : Retry.outcome) : Prop :=
  match o with
  | Retry.Returns v => v = VNull \/ truthy v = true
  | Retry.Throws _ => True
  end.

(** A portal card whose selectors find nothing, read off its text. *)
Definition audit_card : Portal.element :=
  {| Portal.textContent := lit "Audit" ++ [10%N] ++ lit "641945723773";
     Portal.name_primary := None; Portal.id_primary := None;
     Portal.name_fallback := None; Portal.id_fallback := None |}.

(** [null] or [undefined]. *)
Definition nullish (v : value) : bool :=
  match v with
  | VUndefined | VNull => true
  | _ => false
  end.

(** The object literal [{accountId, accountName}] of a record. *)
Definition record_object (r : Storage.AccountInput) : value :=
  VObj [("accountId", Storage.in_accountId r);
        ("accountName", Storage.in_accountName r)].

(** The record that the loops of [storeAccounts] read off an array
    element that is neither [null] nor [undefined]. *)
Definition as_record (account : value) : Storage.AccountInput :=
  {| Storage.in_accountId := get account "accountId";
     Storage.in_accountName := get account "accountName" |}.

(** The answer of storage.js's [getAccountName] as a response of the
    worker. *)
Definition as_name (r : Storage.NameResult) : Background.response :=
  Background.Name (Storage.nr_success r) (Storage.nr_accountName r)
    (Background.Message <$> Storage.nr_error r).

(** The response of storage.js's [storeAccounts] as a response of the
    worker. *)
Definition as_status (r : Storage.StoreResult) : Background.response :=
  Background.Status (Storage.success r)
    (Background.Message <$> Storage.error r).

(** The mappings in storage ([result.accounts || {}]). *)
Definition stored (b : Storage.browser)
    : gmap jsstring Storage.AccountMapping :=
  Storage.ar_accounts (Storage.getAllAccounts b).

(** Lower case for the letters A to Z, the other code units unchanged. *)
Definition ascii_lower (s : jsstring) : jsstring :=
  (fun c => if (65 <=? c)%N && (c <=? 90)%N then (c + 32)%N else c) <$> s.

End Notions.

(** ** Facts about numbers *)

Section NumberFacts.

Lemma Qlt_bool_iff (p q : Q) : Qlt_bool p q = true <-> (p < q)%Q.
Proof.
  unfold Qlt_bool. rewrite negb_true_iff, <- not_true_iff_false, Qle_bool_iff.
  split; [apply Qnot_le_lt | apply Qlt_not_le].
Qed.

(** The loop test [attempt < maxAttempts] against a finite bound. *)
Lemma ltb_of_nat_Fin (a : nat) (q : Q) :
  ltb (of_nat a) (Fin q) = true <-> Z.of_nat a < Qceiling q.
Proof.
  unfold of_nat, of_Z; simpl. rewrite Qlt_bool_iff. split; intros H.
  - rewrite Zlt_Qlt. eapply Qlt_le_trans; [exact H | apply Qle_ceiling].
  - eapply Qle_lt_trans; [| apply Qceiling_lt].
    rewrite <- Zle_Qle. lia.
Qed.

Lemma Qceiling_pred (q : Q) : Qceiling (q + - inject_Z 1) = Qceiling q - 1.
Proof.
  apply Z.le_antisymm.
  - assert (H : (q + - inject_Z 1 <= inject_Z (Qceiling q - 1))%Q).
    { replace (Qceiling q - 1) with (Qceiling q + - 1) by lia.
      rewrite inject_Z_plus. apply Qplus_le_compat; [apply Qle_ceiling|].
      apply Qle_refl. }
    apply Qceiling_resp_le in H. now rewrite Qceiling_Z in H.
  - assert (H : (inject_Z (Qceiling q - 1 - 1) < q + - inject_Z 1)%Q).
    { replace (Qceiling q - 1 - 1) with ((Qceiling q - 1) + - 1) by lia.
      rewrite inject_Z_plus. apply Qplus_lt_le_compat; [apply Qceiling_lt|].
      apply Qle_refl. }
    assert (H' : (inject_Z (Qceiling q - 1 - 1)
                  < inject_Z (Qceiling (q + - inject_Z 1)))%Q).
    { eapply Qlt_le_trans; [exact H | apply Qle_ceiling]. }
    rewrite <- Zlt_Qlt in H'. lia.
Qed.

(** The test [attempt < maxAttempts - 1] against a finite bound. *)
Lemma ltb_of_nat_pred (a : nat) (q : Q) :
  ltb (of_nat a) (sub (Fin q) Retry.one) = true <-> Z.of_nat a < Qceiling q - 1.
Proof.
  change (sub (Fin q) Retry.one) with (Fin (q + - inject_Z 1)).
  now rewrite ltb_of_nat_Fin, Qceiling_pred.
Qed.

Lemma Qceiling_of_nat (m : nat) : Z.to_nat (Qceiling (inject_Z (Z.of_nat m))) = m.
Proof. rewrite Qceiling_Z. lia. Qed.

Lemma Math_min_Fin (x y : Q) : Math_min (Fin x) (Fin y) = Fin (Qmin x y).
Proof.
  unfold Math_min, ltb, Qmin, GenericMinMax.gmin.
  destruct (Qlt_bool y x) eqn:E.
  - apply Qlt_bool_iff in E. apply Qgt_alt in E. now rewrite E.
  - destruct (x ?= y)%Q eqn:C; try reflexivity.
    apply Qgt_alt in C. apply Qlt_bool_iff in C. congruence.
Qed.

(** *** Powers of two *)

Local Open Scope Q_scope.

Lemma pow2_pos (k : Z) : 0 < 2 ^ k.
Proof. now apply Qpower_0_lt. Qed.

Lemma pow2_le (j k : Z) : (j <= k)%Z -> 2 ^ j <= 2 ^ k.
Proof. intros H. now apply Qpower_le_compat_l. Qed.

Lemma pow2_plus (j k : Z) : 2 ^ (j + k) == 2 ^ j * 2 ^ k.
Proof. now apply Qpower_plus. Qed.

Lemma pow2_Z (k : Z) : (0 <= k)%Z -> inject_Z (2 ^ k) == 2 ^ k.
Proof. intros H. now rewrite Zpower_Qpower. Qed.

Lemma pow2_cancel (q : Q) (k : Z) : q * 2 ^ (- k) * 2 ^ k == q.
Proof.
  rewrite <- Qmult_assoc, <- pow2_plus.
  replace (- k + k)%Z with 0%Z by lia. apply Qmult_1_r.
Qed.

(** *** Rounding to the nearest integer *)

Lemma nearest_even_bounds (q : Q) :
  (Qfloor q <= nearest_even q <= Qfloor q + 1)%Z.
Proof.
  unfold nearest_even.
  destruct (q - inject_Z (Qfloor q) ?= 1 # 2); [destruct (Z.even _)| |]; lia.
Qed.

Lemma nearest_even_mono (p q : Q) : p <= q -> (nearest_even p <= nearest_even q)%Z.
Proof.
  intros H. pose proof (Qfloor_resp_le _ _ H) as Hf.
  destruct (Z.eq_dec (Qfloor p) (Qfloor q)) as [E|N].
  - unfold nearest_even. rewrite <- E.
    assert (Hfrac : p - inject_Z (Qfloor p) <= q - inject_Z (Qfloor p)).
    { apply Qplus_le_compat; [exact H | apply Qle_refl]. }
    destruct (p - inject_Z (Qfloor p) ?= 1 # 2) eqn:Cp;
      destruct (q - inject_Z (Qfloor p) ?= 1 # 2) eqn:Cq;
      try (destruct (Z.even (Qfloor p))); try lia; exfalso;
      repeat match goal with
             | C : (_ ?= _) = Eq |- _ => apply Qeq_alt in C
             | C : (_ ?= _) = Lt |- _ => apply Qlt_alt in C
             | C : (_ ?= _) = Gt |- _ => apply Qgt_alt in C
             end; lra.
  - pose proof (nearest_even_bounds p). pose proof (nearest_even_bounds q). lia.
Qed.

Lemma nearest_even_Z (z : Z) : nearest_even (inject_Z z) = z.
Proof.
  unfold nearest_even. rewrite Qfloor_Z.
  destruct (inject_Z z - inject_Z z ?= 1 # 2) eqn:C;
    [apply Qeq_alt in C; lra | reflexivity | apply Qgt_alt in C; lra].
Qed.

Lemma nearest_even_le (q : Q) (z : Z) : q <= inject_Z z -> (nearest_even q <= z)%Z.
Proof. intros H. rewrite <- (nearest_even_Z z). now apply nearest_even_mono. Qed.

Lemma nearest_even_ge (q : Q) (z : Z) : inject_Z z <= q -> (z <= nearest_even q)%Z.
Proof. intros H. rewrite <- (nearest_even_Z z). now apply nearest_even_mono. Qed.

(** *** The binade of a positive rational *)

Lemma Qnum_pos (q : Q) : 0 < q -> (0 < Qnum q)%Z.
Proof. unfold Qlt; simpl. lia. Qed.

Lemma Qden_mult (q : Q) : q * inject_Z (Zpos (Qden q)) == inject_Z (Qnum q).
Proof. destruct q as [n d]. unfold Qeq; simpl. lia. Qed.

Lemma binade_spec (q : Q) :
  0 < q -> 2 ^ binade q <= q /\ q < 2 ^ (binade q + 1).
Proof.
  intros Hq. pose proof (Qnum_pos q Hq) as Hn.
  set (n := Qnum q) in *. set (d := Zpos (Qden q)).
  assert (Hd : (0 < d)%Z) by (unfold d; lia).
  destruct (Z.log2_spec n Hn) as [Hn1 Hn2].
  destruct (Z.log2_spec d Hd) as [Hd1 Hd2].
  pose proof (Z.log2_nonneg n) as Ln. pose proof (Z.log2_nonneg d) as Ld.
  set (e := (Z.log2 n - Z.log2 d)%Z).
  assert (Hdq : 0 < inject_Z d) by (rewrite <- (Zlt_Qlt 0); exact Hd).
  assert (Up : q < 2 ^ (e + 1)).
  { apply (Qmult_lt_r _ _ (inject_Z d) Hdq). unfold d at 1. rewrite Qden_mult.
    fold n. eapply Qlt_le_trans.
    - rewrite <- Zlt_Qlt. exact Hn2.
    - replace (Z.succ (Z.log2 n)) with ((e + 1) + Z.log2 d)%Z by (unfold e; lia).
      rewrite pow2_Z by lia. rewrite pow2_plus.
      apply Qmult_le_l; [apply pow2_pos|].
      rewrite <- pow2_Z by lia. rewrite <- Zle_Qle. exact Hd1. }
  assert (Lo : 2 ^ (e - 1) <= q).
  { apply (Qmult_le_r _ _ (inject_Z d) Hdq). unfold d at 2. rewrite Qden_mult.
    fold n. eapply Qle_trans.
    - apply Qmult_le_l; [apply pow2_pos|].
      apply Qlt_le_weak. rewrite <- Zlt_Qlt. exact Hd2.
    - rewrite pow2_Z by lia. rewrite <- pow2_plus.
      replace (e - 1 + Z.succ (Z.log2 d))%Z with (Z.log2 n) by (unfold e; lia).
      rewrite <- pow2_Z by lia. rewrite <- Zle_Qle. exact Hn1. }
  unfold binade. fold n d e.
  destruct (Qle_bool (2 ^ e) q) eqn:C.
  - apply Qle_bool_iff in C. now split.
  - split; [exact Lo|]. replace (e - 1 + 1)%Z with e by lia.
    apply Qnot_le_lt. intros H. apply Qle_bool_iff in H. congruence.
Qed.

(** *** Rounding to binary64 is monotone *)

Lemma rounded_mono (x y : Q) : 0 < x -> x <= y -> rounded x <= rounded y.
Proof.
  intros Hx Hxy. assert (Hy : 0 < y) by (eapply Qlt_le_trans; eauto).
  destruct (binade_spec x Hx) as [Lx Ux]. destruct (binade_spec y Hy) as [Ly Uy].
  unfold rounded.
  set (ux := (Z.max (binade x) (-1022) - 52)%Z).
  set (uy := (Z.max (binade y) (-1022) - 52)%Z).
  destruct (Z.lt_trichotomy ux uy) as [L|[E|G]].
  - (* a coarser unit for [y] *)
    apply Qle_trans with (2 ^ (53 + ux)).
    + rewrite pow2_plus. apply Qmult_le_compat_r; [|apply Qlt_le_weak, pow2_pos].
      rewrite <- (pow2_Z 53) by lia. rewrite <- Zle_Qle. apply nearest_even_le.
      rewrite pow2_Z by lia.
      apply (Qmult_le_r _ _ (2 ^ ux) (pow2_pos ux)).
      rewrite pow2_cancel, <- pow2_plus.
      apply Qlt_le_weak. eapply Qlt_le_trans; [exact Ux|].
      apply pow2_le. unfold ux. lia.
    + apply Qle_trans with (2 ^ (52 + uy)); [apply pow2_le; lia|].
      rewrite pow2_plus. apply Qmult_le_compat_r; [|apply Qlt_le_weak, pow2_pos].
      rewrite <- (pow2_Z 52) by lia. rewrite <- Zle_Qle. apply nearest_even_ge.
      rewrite pow2_Z by lia.
      apply (Qmult_le_r _ _ (2 ^ uy) (pow2_pos uy)).
      rewrite pow2_cancel, <- pow2_plus.
      eapply Qle_trans; [|exact Ly]. apply pow2_le. unfold ux, uy in *. lia.
  - (* the same unit *)
    rewrite E. apply Qmult_le_compat_r; [|apply Qlt_le_weak, pow2_pos].
    rewrite <- Zle_Qle. apply nearest_even_mono.
    apply Qmult_le_compat_r; [exact Hxy | apply Qlt_le_weak, pow2_pos].
  - (* a finer unit for [y] contradicts [x <= y] *)
    exfalso. apply (Qlt_not_le _ _ Uy). eapply Qle_trans; [|exact Hxy].
    eapply Qle_trans; [|exact Lx]. apply pow2_le. unfold ux, uy in *. lia.
Qed.

Lemma rounded_nonneg (x : Q) : 0 < x -> 0 <= rounded x.
Proof.
  intros Hx. unfold rounded.
  apply Qmult_le_0_compat; [|apply Qlt_le_weak, pow2_pos].
  rewrite <- (Zle_Qle 0). apply nearest_even_ge.
  apply Qmult_le_0_compat; [now apply Qlt_le_weak | apply Qlt_le_weak, pow2_pos].
Qed.

(** *** The Number value for a rational *)

Lemma to_double_Qeq (p q : Q) : p == q -> to_double p = to_double q.
Proof. intros H. unfold to_double. now rewrite (Qred_complete _ _ H). Qed.

Lemma to_double_pos (q : Q) :
  0 < q ->
  to_double q = if Qle_bool (2 ^ 1024) (rounded (Qred q)) then PosInf
                else Fin (Qred (rounded (Qred q))).
Proof.
  intros Hq. unfold to_double.
  assert (H : 0 < Qred q) by now rewrite Qred_correct.
  apply Qgt_alt in H. now rewrite H.
Qed.

Lemma to_double_0 (q : Q) : q == 0 -> to_double q = Fin 0.
Proof. intros H. now rewrite (to_double_Qeq _ _ H). Qed.

Lemma to_double_mono (p q : Q) :
  0 <= p -> p <= q -> leb (to_double p) (to_double q) = true.
Proof.
  intros Hp Hpq.
  assert (Hq : 0 <= q) by (eapply Qle_trans; eauto).
  destruct (Qlt_le_dec 0 p) as [Pp|Zp].
  - assert (Pq : 0 < q) by (eapply Qlt_le_trans; eauto).
    rewrite (to_double_pos p Pp), (to_double_pos q Pq).
    assert (M : rounded (Qred p) <= rounded (Qred q)).
    { apply rounded_mono; rewrite ?Qred_correct; assumption. }
    destruct (Qle_bool (2 ^ 1024) (rounded (Qred p))) eqn:Op.
    + apply Qle_bool_iff in Op.
      assert (Oq : Qle_bool (2 ^ 1024) (rounded (Qred q)) = true).
      { apply Qle_bool_iff. eapply Qle_trans; eauto. }
      now rewrite Oq.
    + destruct (Qle_bool (2 ^ 1024) (rounded (Qred q))); [reflexivity|].
      cbn [leb]. apply Qle_bool_iff.
      rewrite (Qred_correct (rounded (Qred p))), (Qred_correct (rounded (Qred q))).
      exact M.
  - rewrite (to_double_0 p) by now apply Qle_antisym.
    destruct (Qlt_le_dec 0 q) as [Pq|Zq].
    + rewrite (to_double_pos q Pq).
      destruct (Qle_bool _ _); [reflexivity|].
      cbn [leb]. apply Qle_bool_iff. rewrite (Qred_correct (rounded (Qred q))).
      apply rounded_nonneg. now rewrite Qred_correct.
    + rewrite (to_double_0 q) by now apply Qle_antisym. reflexivity.
Qed.

Lemma to_double_nonneg (q : Q) : 0 <= q -> nonneg (to_double q) = true.
Proof.
  intros H. exact (to_double_mono 0 q (Qle_refl 0) H).
Qed.

(** *** Whole numbers *)

Lemma nearest_even_eq (q : Q) (z : Z) : q == inject_Z z -> nearest_even q = z.
Proof.
  intros H. apply Z.le_antisymm.
  - apply nearest_even_le. rewrite H. apply Qle_refl.
  - apply nearest_even_ge. rewrite H. apply Qle_refl.
Qed.

Lemma rounded_Z (r : Q) (z : Z) :
  (0 < z < 2 ^ 53)%Z -> r == inject_Z z -> rounded r == inject_Z z.
Proof.
  intros Hz Hr.
  assert (Hpos : 0 < r) by (rewrite Hr, <- (Zlt_Qlt 0); lia).
  destruct (binade_spec r Hpos) as [Lo' Up'].
  assert (Lo : 2 ^ binade r <= inject_Z z) by (now rewrite <- Hr).
  assert (Up : inject_Z z < 2 ^ (binade r + 1)) by (now rewrite <- Hr).
  clear Lo' Up'.
  assert (He : (0 <= binade r <= 52)%Z).
  { split.
    - apply Z.lt_succ_r. apply (Qpower_lt_compat_l_inv 2); [|reflexivity].
      unfold Z.succ. eapply Qle_lt_trans; [|exact Up].
      change (2 ^ 0) with (inject_Z 1). rewrite <- Zle_Qle. lia.
    - apply Z.lt_succ_r. apply (Qpower_lt_compat_l_inv 2); [|reflexivity].
      eapply Qle_lt_trans; [exact Lo|].
      rewrite <- (pow2_Z (Z.succ 52)) by lia. rewrite <- Zlt_Qlt. lia. }
  unfold rounded.
  replace (Z.max (binade r) (-1022) - 52)%Z with (- (52 - binade r))%Z by lia.
  set (j := (52 - binade r)%Z). rewrite Z.opp_involutive.
  rewrite (nearest_even_eq _ (z * 2 ^ j)%Z).
  - rewrite inject_Z_mult, pow2_Z by (unfold j; lia).
    rewrite <- Hr, <- Qmult_assoc, <- pow2_plus.
    replace (j + - j)%Z with 0%Z by lia. apply Qmult_1_r.
  - rewrite inject_Z_mult, pow2_Z by (unfold j; lia). now rewrite Hr.
Qed.

Lemma no_overflow (v : Q) (z : Z) :
  v == inject_Z z -> (z < 2 ^ 53)%Z -> Qle_bool (2 ^ 1024) v = false.
Proof.
  intros Hv Hz. apply not_true_iff_false. rewrite Qle_bool_iff, Hv.
  apply Qlt_not_le.
  rewrite <- (pow2_Z 1024) by lia. rewrite <- Zlt_Qlt.
  eapply Z.lt_le_trans; [exact Hz|]. apply Z.pow_le_mono_r; lia.
Qed.

Lemma to_double_neg (q : Q) :
  q < 0 ->
  to_double q = if Qle_bool (2 ^ 1024) (rounded (- Qred q)) then NegInf
                else Fin (Qred (- rounded (- Qred q))).
Proof.
  intros Hq. unfold to_double.
  assert (H : Qred q < 0) by now rewrite Qred_correct.
  destruct (Qred q ?= 0) eqn:C; [apply Qeq_alt in C; lra | reflexivity
                                | apply Qgt_alt in C; lra].
Qed.

(** Whole numbers up to 2^53 in magnitude are binary64 values. *)
Lemma is_double_Z (z : Z) : (Z.abs z <= 2 ^ 53)%Z -> is_double (inject_Z z).
Proof.
  intros Hz. unfold is_double. rewrite inject_Z_Qred.
  destruct (Z.eq_dec (Z.abs z) (2 ^ 53)%Z) as [E|N].
  { destruct (Z.abs_eq_or_opp z) as [A|A]; rewrite A in E.
    - rewrite E. reflexivity.
    - replace z with (- 2 ^ 53)%Z by lia. reflexivity. }
  destruct (Z.lt_trichotomy z 0) as [L|[->|G]]; [| reflexivity |].
  - rewrite to_double_neg by (change 0 with (inject_Z 0); rewrite <- Zlt_Qlt; exact L).
    rewrite inject_Z_Qred.
    assert (R : rounded (- inject_Z z) == inject_Z (- z)).
    { apply rounded_Z; [lia|]. now rewrite inject_Z_opp. }
    rewrite (no_overflow _ _ R) by lia. f_equal.
    transitivity (Qred (inject_Z z)); [|apply inject_Z_Qred].
    apply Qred_complete. rewrite R, inject_Z_opp. ring.
  - rewrite to_double_pos by (change 0 with (inject_Z 0); rewrite <- Zlt_Qlt; exact G).
    rewrite inject_Z_Qred.
    assert (R : rounded (inject_Z z) == inject_Z z).
    { apply rounded_Z; [lia | reflexivity]. }
    rewrite (no_overflow _ _ R) by lia. f_equal.
    transitivity (Qred (inject_Z z)); [|apply inject_Z_Qred].
    now apply Qred_complete.
Qed.

Local Close Scope Q_scope.

Lemma to_double_Z (z : Z) : Z.abs z <= 2 ^ 53 -> to_double (inject_Z z) = of_Z z.
Proof. intros H. rewrite (is_double_Z z H). now rewrite inject_Z_Qred. Qed.

(** *** The differences the code takes *)

Local Open Scope Q_scope.

Lemma binade_le (x y : Q) : 0 < x -> x <= y -> (binade x <= binade y)%Z.
Proof.
  intros Hx Hxy. assert (Hy : 0 < y) by lra.
  destruct (binade_spec x Hx) as [Lx _]. destruct (binade_spec y Hy) as [_ Uy].
  apply Z.lt_succ_r. apply (Qpower_lt_compat_l_inv 2); [|reflexivity].
  unfold Z.succ. lra.
Qed.

(** A multiple of the unit of its binade is left as it is. *)
Lemma rounded_multiple (r : Q) (m k : Z) :
  0 < r -> r == inject_Z m * 2 ^ k ->
  (Z.max (binade r) (-1022) - 52 <= k)%Z ->
  rounded r == r.
Proof.
  intros Hr Hm Hk. unfold rounded.
  set (u := (Z.max (binade r) (-1022) - 52)%Z) in *.
  assert (E : r * 2 ^ (- u) == inject_Z (m * 2 ^ (k - u))).
  { rewrite inject_Z_mult, pow2_Z by lia. rewrite Hm, <- Qmult_assoc.
    rewrite <- pow2_plus. now replace (k + - u)%Z with (k - u)%Z by lia. }
  rewrite (nearest_even_eq _ _ E), <- E. apply pow2_cancel.
Qed.

(** What [is_double] says of a positive rational. *)
Lemma is_double_pos (q : Q) :
  0 < q ->
  is_double q <-> rounded (Qred q) == q /\ rounded (Qred q) < 2 ^ 1024.
Proof.
  intros Hq. unfold is_double. rewrite (to_double_pos q Hq).
  destruct (Qle_bool (2 ^ 1024) (rounded (Qred q))) eqn:O.
  - apply Qle_bool_iff in O. split; [discriminate|]. intros [_ H]. lra.
  - assert (O' : rounded (Qred q) < 2 ^ 1024).
    { apply Qnot_le_lt. intros H. apply Qle_bool_iff in H. congruence. }
    split.
    + intros [= H]. apply Qred_eq_iff in H. now split.
    + intros [H _]. f_equal. now apply Qred_complete.
Qed.

Lemma pow2_53_lt_1024 : 2 ^ 53 < 2 ^ 1024.
Proof. apply Qpower_lt_compat_l; [lia | reflexivity]. Qed.

(** One less than a binary64 value between 1 and 2^53 is a binary64 value:
    the difference is a multiple of the same unit. *)
Lemma is_double_pred (q : Q) :
  is_double q -> 1 <= q -> q <= 2 ^ 53 -> is_double (q - 1).
Proof.
  intros Dq H1 H53.
  destruct (Qlt_le_dec q (2 ^ 53)) as [Lt53|Ge53].
  2:{ assert (E : q - 1 == inject_Z (2 ^ 53 - 1)).
      { rewrite <- (pow2_Z 53) in * by lia.
        unfold Z.sub. rewrite inject_Z_plus. change (inject_Z (- (1))) with (- (1)).
        lra. }
      unfold is_double.
      rewrite (to_double_Qeq _ _ E), (Qred_complete _ _ E), inject_Z_Qred.
      reflexivity. }
  destruct (Qlt_le_dec 1 q) as [Gt1|Le1].
  2:{ assert (E : q - 1 == 0) by lra.
      unfold is_double. now rewrite (to_double_Qeq _ _ E), (Qred_complete _ _ E). }
  assert (Hq : 0 < q) by lra.
  apply (is_double_pos q Hq) in Dq as [Rq _].
  assert (Hrq : 0 < Qred q) by now rewrite Qred_correct.
  destruct (binade_spec (Qred q) Hrq) as [Lo Up].
  pose proof (Qred_correct q) as Rc.
  set (e := binade (Qred q)) in *.
  assert (He : (0 <= e <= 52)%Z).
  { split.
    - apply Z.lt_succ_r. apply (Qpower_lt_compat_l_inv 2); [|reflexivity].
      unfold Z.succ. change (2 ^ 0) with 1. lra.
    - apply Z.lt_succ_r. apply (Qpower_lt_compat_l_inv 2); [|reflexivity].
      change (Z.succ 52) with 53%Z. lra. }
  unfold rounded in Rq. fold e in Rq.
  replace (Z.max e (-1022) - 52)%Z with (e - 52)%Z in Rq by lia.
  set (m := nearest_even (Qred q * 2 ^ (- (e - 52)))) in Rq.
  assert (Hr : 0 < q - 1) by lra.
  assert (Hrr : 0 < Qred (q - 1)) by now rewrite Qred_correct.
  assert (Em : Qred (q - 1) == inject_Z (m - 2 ^ (52 - e)) * 2 ^ (e - 52)).
  { rewrite Qred_correct. unfold Z.sub at 1.
    rewrite inject_Z_plus, inject_Z_opp, pow2_Z by lia.
    rewrite Qmult_plus_distr_l, Rq.
    assert (P : 2 ^ (52 - e) * 2 ^ (e - 52) == 1).
    { rewrite <- pow2_plus. now replace (52 - e + (e - 52))%Z with 0%Z by lia. }
    assert (P' : - 2 ^ (52 - e) * 2 ^ (e - 52) == - (1)) by (rewrite <- P; ring).
    rewrite P'. reflexivity. }
  assert (R : rounded (Qred (q - 1)) == Qred (q - 1)).
  { apply (rounded_multiple _ _ _ Hrr Em).
    assert (B : (binade (Qred (q - 1)) <= e)%Z).
    { apply binade_le; [exact Hrr|]. rewrite !Qred_correct. lra. }
    lia. }
  apply (is_double_pos _ Hr). rewrite R, Qred_correct.
  split; [reflexivity|]. pose proof pow2_53_lt_1024. lra.
Qed.

(** The loop test [attempt < maxAttempts - 1] comes out the same with the
    rounded difference as with the exact one, for every [maxAttempts] that
    is a binary64 value up to 2^53. *)
Lemma loop_test_rounded (q : Q) (a : nat) :
  is_double q -> q <= 2 ^ 53 ->
  ltb (of_nat a) (add (Fin q) (neg Retry.one)) = ltb (of_nat a) (sub (Fin q) Retry.one).
Proof.
  intros Dq H53.
  change (add (Fin q) (neg Retry.one)) with (to_double (q - 1)).
  change (sub (Fin q) Retry.one) with (Fin (q - 1)).
  assert (Ha : 0 <= inject_Z (Z.of_nat a)).
  { change 0 with (inject_Z 0). rewrite <- Zle_Qle. lia. }
  destruct (Qlt_le_dec q 1) as [Lt1|Ge1].
  - assert (Hx : q - 1 < 0) by lra.
    assert (R : ltb (of_nat a) (Fin (q - 1)) = false).
    { apply not_true_iff_false. unfold of_nat, of_Z. cbn [ltb].
      rewrite Qlt_bool_iff. lra. }
    rewrite R, (to_double_neg _ Hx).
    destruct (Qle_bool _ _); [reflexivity|].
    apply not_true_iff_false. unfold of_nat, of_Z. cbn [ltb].
    rewrite Qlt_bool_iff, Qred_correct.
    assert (P : 0 <= rounded (- Qred (q - 1))).
    { apply rounded_nonneg. rewrite Qred_correct. lra. }
    lra.
  - rewrite (is_double_pred q Dq Ge1 H53).
    apply eq_true_iff_eq. unfold of_nat, of_Z. cbn [ltb].
    now rewrite !Qlt_bool_iff, Qred_correct.
Qed.

(** The difference of two clock readings, whole numbers of milliseconds,
    is exact. *)
Lemma clock_difference_rounded (t t0 : Z) (x : number) :
  (Z.abs (t - t0) <= 2 ^ 53)%Z ->
  geb (add (of_Z t) (neg (of_Z t0))) x = geb (sub (of_Z t) (of_Z t0)) x.
Proof.
  intros H. unfold of_Z. cbn [neg add sub].
  assert (E : inject_Z t + - inject_Z t0 == inject_Z (t - t0)).
  { unfold Z.sub. now rewrite inject_Z_plus, inject_Z_opp. }
  rewrite (to_double_Qeq _ _ E), (to_double_Z _ H). unfold of_Z, geb.
  destruct x as [p| | |]; try reflexivity. cbn [leb].
  apply eq_true_iff_eq. now rewrite !Qle_bool_iff, E.
Qed.

Local Close Scope Q_scope.


Lemma Math_pow_Fin (b : Q) (n : nat) :
  Math_pow (Fin b) n = to_double (b ^ Z.of_nat n).
Proof. destruct n; reflexivity. Qed.

End NumberFacts.

(** ** The configuration validator and the backoff calculator *)

Section ConfigFacts.

Import Retry Spec.

(** A configuration the validator accepts has its four numeric fields. *)
Lemma validateConfig_fields (config : value) :
  validateConfig config = true -> is_Some (fields config).
Proof.
  unfold validateConfig, fields.
  destruct config as [| | | | |props];
    try (cbn; rewrite ?orb_true_r; discriminate).
  cbn [truthy is_type typeof negb orb get].
  destruct (assoc "maxAttempts" props) as [| | |m| |]; try (cbn; discriminate).
  destruct (assoc "initialDelay" props) as [| | |i| |];
    try (cbn; destruct (leb m zero); discriminate).
  destruct (assoc "maxDelay" props) as [| | |d| |];
    try (cbn; destruct (leb m zero), (ltb i zero); discriminate).
  destruct (assoc "backoffMultiplier" props) as [| | |b| |];
    try (cbn; destruct (leb m zero), (ltb i zero), (ltb d zero); discriminate).
  eauto.
Qed.

Lemma fields_to_object (c : RetryConfig) : fields (to_object c) = Some c.
Proof. destruct c; reflexivity. Qed.

Lemma accepted_None (config : value) :
  accepted config = None <-> validateConfig config = false.
Proof.
  unfold accepted. destruct (validateConfig config) eqn:E.
  - destruct (validateConfig_fields config E) as [c ->]. split; discriminate.
  - tauto.
Qed.

Lemma accepted_Some (config : value) (c : RetryConfig) :
  validateConfig config = true -> fields config = Some c ->
  accepted config = Some c.
Proof. unfold accepted. now intros -> ->. Qed.

(** Away from NaN the validator decides exactly the stated validity. *)
Lemma validateConfig_nan_free (config : value) :
  nan_free config = true -> validateConfig config = valid_config config.
Proof.
  unfold nan_free, validateConfig, valid_config, number_gt0, number_ge0,
    gtb, geb.
  destruct config as [| | | | |props];
    try (cbn; rewrite ?orb_true_r; reflexivity).
  cbn [forallb truthy is_type typeof negb orb is_object andb get].
  destruct (assoc "maxAttempts" props) as [| | |[m| | |]| |];
    try (cbn; reflexivity); try (cbn; discriminate);
    (destruct (assoc "initialDelay" props) as [| | |[i| | |]| |];
     try (cbn; rewrite ?andb_false_r; reflexivity);
     try (cbn; discriminate));
    (destruct (assoc "maxDelay" props) as [| | |[d| | |]| |];
     try (cbn; rewrite ?andb_false_r; reflexivity);
     try (cbn; discriminate));
    (destruct (assoc "backoffMultiplier" props) as [| | |[bm| | |]| |];
     try (cbn; rewrite ?andb_false_r; reflexivity);
     try (cbn; discriminate));
    intros _; cbn; unfold Qlt_bool;
    repeat match goal with
           | |- context [Qle_bool ?x ?y] => destruct (Qle_bool x y); cbn
           end; reflexivity.
Qed.

(** C3 (as the code has it).  The validator accepts a configuration whose
    [maxAttempts] is NaN: [typeof NaN] is ["number"] and [NaN <= 0] is
    false, so no rejecting test fires, although NaN is not a number
    greater than zero. *)
Theorem validateConfig_accepts_NaN :
  validateConfig Samples.nan_config = true
  /\ valid_config Samples.nan_config = false.
Proof. split; reflexivity. Qed.

(** What the validator has tested on the fields of an accepted
    configuration. *)
Lemma validateConfig_numeric (config : value) (c : RetryConfig) :
  validateConfig config = true -> fields config = Some c ->
  leb (maxAttempts c) zero = false
  /\ ltb (initialDelay c) zero = false
  /\ ltb (maxDelay c) zero = false
  /\ leb (backoffMultiplier c) zero = false
  /\ ltb (maxDelay c) (initialDelay c) = false.
Proof.
  intros Hv Hf. unfold fields in Hf. unfold validateConfig in Hv.
  destruct config as [| | | | |props]; try discriminate.
  cbn [truthy is_type typeof negb orb get] in *.
  destruct (assoc "maxAttempts" props) as [| | |m| |]; try discriminate.
  destruct (assoc "initialDelay" props) as [| | |i| |]; try discriminate.
  destruct (assoc "maxDelay" props) as [| | |d| |]; try discriminate.
  destruct (assoc "backoffMultiplier" props) as [| | |b| |]; try discriminate.
  injection Hf as <-. cbn in *.
  destruct (leb m zero), (ltb i zero), (ltb d zero), (leb b zero), (ltb d i);
    try discriminate; auto.
Qed.

Lemma ltb_Fin_false (p q : Q) : ltb (Fin p) (Fin q) = false -> (q <= p)%Q.
Proof.
  cbn. unfold Qlt_bool. rewrite negb_false_iff. apply Qle_bool_iff.
Qed.

Lemma leb_Fin_false (p q : Q) : leb (Fin p) (Fin q) = false -> (q < p)%Q.
Proof.
  cbn. intros H. apply Qnot_le_lt. intros Hle.
  apply Qle_bool_iff in Hle. congruence.
Qed.









(** Where the power overflows the delay is no longer the minimum over the
    rationals: with [initialDelay] 0 the product [0 * Infinity] is NaN, and
    so is the delay, under a configuration the validator accepts. *)
Example calculateDelay_overflow :
  validateConfig (to_object Samples.zero_start) = true
  /\ calculateDelay 308 Samples.zero_start = Fin 0
  /\ Math_pow (backoffMultiplier Samples.zero_start) 309 = PosInf
  /\ calculateDelay 309 Samples.zero_start = NaN.
Proof. repeat split; vm_compute; reflexivity. Qed.

(** The presets stay within the exact law: every power and product, and
    every product and sum, of the first five attempts is a binary64
    value. *)
Example presets_exact :
  Forall (fun n => is_double (2 ^ Z.of_nat n) /\ is_double (200 * 2 ^ Z.of_nat n))
         (seq 0 5)
  /\ Forall (fun n => is_double (500 * inject_Z (Z.of_nat n))
                      /\ is_double (500 + 500 * inject_Z (Z.of_nat n)))
            (seq 0 5).
Proof. split; repeat constructor. Qed.

(** The presets give the delays of the design: 200, 400, 800, 1600, 2000
    for the portal and 500, 1000, 1500, 2000, 2500 for the console. *)
Example portal_delays :
  (fun n => calculateDelay n RETRY_CONFIG_portal) <$> seq 0 5
  = of_Z <$> [200; 400; 800; 1600; 2000].
Proof. reflexivity. Qed.

Example console_delays :
  (fun n => calculateDelay n RETRY_CONFIG_console) <$> seq 0 5
  = of_Z <$> [500; 1000; 1500; 2000; 2500].
Proof. reflexivity. Qed.

End ConfigFacts.

(** ** The retry executor *)

Section ExecutorFacts.

Import Retry Spec.

Context {World : Type}.
Variable fn : World -> outcome * World.
Variable setTimeout : number -> World -> World.

Local Abbreviation M := (@M World).
Local Abbreviation state := (@state World).

(** *** Computations that never throw *)

Lemma no_throw_ret {A} (a : A) : no_throw (ret a : M A).
Proof. intros s e s'. unfold ret. congruence. Qed.

Lemma no_throw_diverge {A} : no_throw (@diverge World A).
Proof. intros s e s'. unfold diverge. congruence. Qed.

Lemma no_throw_console (ev : event) : no_throw (console ev : M unit).
Proof. intros s e s'. unfold console. congruence. Qed.

Lemma no_throw_sleep (d : number) : no_throw (sleep setTimeout d).
Proof. intros s e s'. unfold sleep. congruence. Qed.

Lemma no_throw_bind {A B} (m : M A) (k : A -> M B) :
  no_throw m -> (forall a, no_throw (k a)) -> no_throw (bind m k).
Proof.
  intros Hm Hk s e s'. unfold bind.
  destruct (m s) as [[[a s1]|[e1 s1]]|] eqn:E; try congruence.
  - apply Hk.
  - exfalso. exact (Hm _ _ _ E).
Qed.

(** A [try] block whose handler does not throw does not throw, whatever
    its body does. *)
Lemma no_throw_try_catch {A} (body : M A) (handler : value -> M A) :
  (forall e, no_throw (handler e)) -> no_throw (try_catch body handler).
Proof.
  intros Hh s e s'. unfold try_catch.
  destruct (body s) as [[[a s1]|[e1 s1]]|]; try congruence. apply Hh.
Qed.

Lemma no_throw_if {A} (b : bool) (m1 m2 : M A) :
  no_throw m1 -> no_throw m2 -> no_throw (if b then m1 else m2).
Proof. now destruct b. Qed.

Lemma no_throw_attempt_body (c : RetryConfig) (a : nat) (last : value) :
  no_throw (attempt_body fn setTimeout c a last).
Proof.
  apply no_throw_try_catch. intros e.
  repeat (first [ apply no_throw_bind; [| intros ?]
                | apply no_throw_if
                | apply no_throw_console
                | apply no_throw_sleep
                | apply no_throw_ret ]).
Qed.

Lemma no_throw_attempts (fuel : nat) (c : RetryConfig) :
  forall (a : nat) (last : value), no_throw (attempts fn setTimeout fuel c a last).
Proof.
  induction fuel as [|fuel IH]; intros a last; cbn [attempts].
  - apply no_throw_diverge.
  - apply no_throw_if.
    + apply no_throw_bind; [apply no_throw_attempt_body|].
      intros [v|l]; [apply no_throw_ret | apply IH].
    + apply no_throw_bind; [apply no_throw_console | intros _; apply no_throw_ret].
Qed.

Lemma no_throw_retryWithBackoff (fuel : nat) (config : value) :
  no_throw (retryWithBackoff fn setTimeout fuel config).
Proof.
  unfold retryWithBackoff. apply no_throw_bind.
  - destruct (accepted config); [apply no_throw_ret|].
    apply no_throw_bind; [apply no_throw_console | intros _; apply no_throw_ret].
  - intros c. apply no_throw_attempts.
Qed.

(** *** Events logged beforehand do not change a run *)

Lemma framed_ret {A} (a : A) : framed (ret a : M A).
Proof. intros w pre tr. reflexivity. Qed.

Lemma framed_diverge {A} : framed (@diverge World A).
Proof. intros w pre tr. reflexivity. Qed.

Lemma framed_console (ev : event) : framed (console ev : M unit).
Proof. intros w pre tr. unfold console; cbn. now rewrite app_assoc. Qed.

Lemma framed_sleep (d : number) : framed (sleep setTimeout d).
Proof. intros w pre tr. unfold sleep; cbn. now rewrite app_assoc. Qed.

Lemma framed_await_fn : framed (await_fn fn).
Proof.
  intros w pre tr. unfold await_fn; cbn.
  destruct (fn w) as [[v|e] w1]; cbn; now rewrite app_assoc.
Qed.

Lemma framed_bind {A B} (m : M A) (k : A -> M B) :
  framed m -> (forall a, framed (k a)) -> framed (bind m k).
Proof.
  intros Hm Hk w pre tr. unfold bind. rewrite Hm.
  destruct (m {| world := w; trace := tr |}) as [[[a [w1 t1]]|[e [w1 t1]]]|];
    cbn; [apply Hk | reflexivity | reflexivity].
Qed.

Lemma framed_try_catch {A} (body : M A) (handler : value -> M A) :
  framed body -> (forall e, framed (handler e)) ->
  framed (try_catch body handler).
Proof.
  intros Hb Hh w pre tr. unfold try_catch. rewrite Hb.
  destruct (body {| world := w; trace := tr |}) as [[[a [w1 t1]]|[e [w1 t1]]]|];
    cbn; [reflexivity | apply Hh | reflexivity].
Qed.

Lemma framed_if {A} (b : bool) (m1 m2 : M A) :
  framed m1 -> framed m2 -> framed (if b then m1 else m2).
Proof. now destruct b. Qed.

Ltac framed_step :=
  first [ apply framed_bind; [| intros ?]
        | apply framed_if
        | apply framed_console
        | apply framed_sleep
        | apply framed_await_fn
        | apply framed_ret ].

Lemma framed_attempt_body (c : RetryConfig) (a : nat) (last : value) :
  framed (attempt_body fn setTimeout c a last).
Proof.
  apply framed_try_catch; [| intros e]; repeat framed_step.
Qed.

Lemma framed_attempts (fuel : nat) (c : RetryConfig) :
  forall (a : nat) (last : value), framed (attempts fn setTimeout fuel c a last).
Proof.
  induction fuel as [|fuel IH]; intros a last; cbn [attempts].
  - apply framed_diverge.
  - apply framed_if.
    + apply framed_bind; [apply framed_attempt_body|].
      intros [v|l]; [apply framed_ret | apply IH].
    + repeat framed_step.
Qed.

(** *** One pass through the loop body *)

Lemma calls_snoc (tr : list event) (e : event) :
  calls (tr ++ [e]) = calls tr ++ calls [e].
Proof. unfold calls. apply omap_app. Qed.

Lemma delays_snoc (tr : list event) (e : event) :
  delays (tr ++ [e]) = delays tr ++ delays [e].
Proof. unfold delays. apply omap_app. Qed.

(** A failed attempt goes on to the next pass, remembers a falsy return,
    and waits unless it was the last allowed attempt. *)
Lemma attempt_body_failed (c : RetryConfig) (a : nat) (last : value) (s : state) :
  failed (fn (world s)).1 = true ->
  exists s' : state,
    attempt_body fn setTimeout c a last s
    = Some (inl (Next (keep_falsy last (fn (world s)).1), s'))
    /\ world s' = (if pause c a
                   then setTimeout (calculateDelay a c) (fn (world s)).2
                   else (fn (world s)).2)
    /\ calls (trace s') = calls (trace s) ++ [(fn (world s)).1]
    /\ delays (trace s')
       = delays (trace s) ++ (if pause c a then [calculateDelay a c] else []).
Proof.
  unfold attempt_body, try_catch, bind, console, await_fn, sleep, ret, pause.
  cbn [world trace]. destruct (fn (world s)) as [[v|e] w1]; cbn [fst snd failed].
  - intros Hv. apply negb_true_iff in Hv. rewrite Hv.
    destruct (ltb (of_nat a) (sub (maxAttempts c) one));
      cbn [world trace]; eexists; (split; [reflexivity|]); cbn [world trace];
      rewrite ?calls_snoc, ?delays_snoc; cbn; rewrite ?app_nil_r;
      repeat split; reflexivity.
  - intros _.
    destruct (ltb (of_nat a) (sub (maxAttempts c) one));
      cbn [world trace]; eexists; (split; [reflexivity|]); cbn [world trace];
      rewrite ?calls_snoc, ?delays_snoc; cbn; rewrite ?app_nil_r;
      repeat split; reflexivity.
Qed.

(** A truthy return leaves the loop with that value. *)
Lemma attempt_body_success (c : RetryConfig) (a : nat) (last v : value)
    (s : state) :
  (fn (world s)).1 = Returns v -> truthy v = true ->
  exists s' : state,
    attempt_body fn setTimeout c a last s = Some (inl (Return_ v, s'))
    /\ calls (trace s') = calls (trace s) ++ [Returns v]
    /\ delays (trace s') = delays (trace s).
Proof.
  unfold attempt_body, try_catch, bind, console, await_fn, sleep, ret.
  cbn [world trace]. destruct (fn (world s)) as [o w1]; cbn [fst].
  intros -> Hv. rewrite Hv. cbn [world trace].
  eexists; (split; [reflexivity|]); cbn [world trace].
  rewrite ?calls_snoc, ?delays_snoc; cbn; rewrite ?app_nil_r. now split.
Qed.

(** Every pass ends, and ends normally. *)
Lemma attempt_body_total (c : RetryConfig) (a : nat) (last : value) (s : state) :
  exists (p : pass) (s' : state),
    attempt_body fn setTimeout c a last s = Some (inl (p, s')).
Proof.
  destruct (failed (fn (world s)).1) eqn:F.
  - destruct (attempt_body_failed c a last s F) as (s' & E & _). eauto.
  - destruct (fn (world s)).1 as [v|e] eqn:O; [|discriminate].
    cbn in F. apply negb_false_iff in F.
    destruct (attempt_body_success c a last v s O F) as (s' & E & _). eauto.
Qed.

(** *** The loop *)

Lemma loop_test (m : number) (n a : nat) :
  rounds m = Some n -> ltb (of_nat a) m = bool_decide (a < n)%nat.
Proof.
  destruct m as [q| | |]; cbn [rounds]; intros [= <-]; try reflexivity.
  destruct (ltb (of_nat a) (Fin q)) eqn:E; symmetry.
  - apply bool_decide_eq_true. apply ltb_of_nat_Fin in E. lia.
  - apply bool_decide_eq_false. intros H.
    assert (H' : ltb (of_nat a) (Fin q) = true)
      by (apply ltb_of_nat_Fin; lia). congruence.
Qed.

Lemma pause_test (c : RetryConfig) (n a : nat) :
  rounds (maxAttempts c) = Some n -> pause c a = bool_decide (S a < n)%nat.
Proof.
  unfold pause.
  destruct (maxAttempts c) as [q| | |]; cbn [rounds]; intros [= <-].
  - destruct (ltb (of_nat a) (sub (Fin q) one)) eqn:E; symmetry.
    + apply bool_decide_eq_true. apply ltb_of_nat_pred in E. lia.
    + apply bool_decide_eq_false. intros H.
      assert (H' : ltb (of_nat a) (sub (Fin q) one) = true)
        by (apply ltb_of_nat_pred; lia). congruence.
  - symmetry. apply bool_decide_eq_false. lia.
  - symmetry. apply bool_decide_eq_false. lia.
Qed.

Lemma rounds_is_nat (x : number) (m : nat) : is_nat x m -> rounds x = Some m.
Proof.
  destruct x as [q| | |]; cbn; try tauto. intros E.
  now rewrite (Qceiling_comp _ _ E), Qceiling_of_nat.
Qed.

Local Abbreviation world_at := (world_at fn setTimeout).
Local Abbreviation outcome_at := (outcome_at fn setTimeout).
Local Abbreviation outcomes := (outcomes fn setTimeout).
Local Abbreviation attempts := (attempts fn setTimeout).
Local Abbreviation retryWithBackoff := (retryWithBackoff fn setTimeout).

(** When every remaining attempt fails the loop runs to exhaustion. *)
Lemma attempts_all_failed (c : RetryConfig) (w0 : World) (n : nat) :
  rounds (maxAttempts c) = Some n ->
  forall (d a : nat) (last : value) (s : state) (fuel : nat),
    (a + d = n)%nat ->
    ((a < n)%nat -> world s = world_at c a w0) ->
    (forall i, (a <= i < n)%nat -> failed (outcome_at c w0 i) = true) ->
    (d < fuel)%nat ->
    exists s' : state,
      attempts fuel c a last s
      = Some (inl (foldl keep_falsy last (outcome_at c w0 <$> seq a d), s'))
      /\ calls (trace s') = calls (trace s) ++ (outcome_at c w0 <$> seq a d)
      /\ delays (trace s')
         = delays (trace s) ++ ((fun i => calculateDelay i c) <$> seq a (d - 1)).
Proof.
  intros Hr. induction d as [|d IH]; intros a last s fuel Had Hw Hfail Hfuel;
    (destruct fuel as [|fuel]; [lia|]); cbn [Retry.attempts];
    rewrite (loop_test _ n a Hr).
  - rewrite bool_decide_eq_false_2 by lia.
    unfold bind, console, ret; cbn. eexists; split; [reflexivity|].
    cbn [trace]. rewrite calls_snoc, delays_snoc; cbn. now rewrite !app_nil_r.
  - rewrite bool_decide_eq_true_2 by lia.
    assert (Hs : world s = world_at c a w0) by (apply Hw; lia).
    assert (Hf : failed (fn (world s)).1 = true).
    { rewrite Hs. apply (Hfail a). lia. }
    destruct (attempt_body_failed c a last s Hf) as (s1 & E & Hw1 & Hc1 & Hd1).
    unfold bind at 1. rewrite E.
    rewrite (pause_test c n a Hr) in Hw1, Hd1.
    destruct (IH (S a) (keep_falsy last (fn (world s)).1) s1 fuel)
      as (s' & E' & Hc' & Hd'); try lia.
    + intros Hlt. rewrite Hw1, bool_decide_eq_true_2 by lia.
      now rewrite Hs.
    + intros i Hi. apply Hfail. lia.
    + exists s'. rewrite Hs in *. split; [|split].
      * rewrite E'. reflexivity.
      * rewrite Hc', Hc1, <- app_assoc. reflexivity.
      * rewrite Hd', Hd1, <- app_assoc. f_equal.
        destruct d as [|d].
        -- rewrite bool_decide_eq_false_2 by lia. reflexivity.
        -- rewrite bool_decide_eq_true_2 by lia. cbn.
           now rewrite Nat.sub_0_r.
Qed.

(** When the attempt number [k] (from 0) is the first to succeed, the loop
    returns its value at once. *)
Lemma attempts_first_success (c : RetryConfig) (w0 : World) (n k : nat)
    (v : value) :
  rounds (maxAttempts c) = Some n ->
  (k < n)%nat ->
  outcome_at c w0 k = Returns v -> truthy v = true ->
  forall (d a : nat) (last : value) (s : state) (fuel : nat),
    (a + d = k)%nat ->
    world s = world_at c a w0 ->
    (forall i, (a <= i < k)%nat -> failed (outcome_at c w0 i) = true) ->
    (d < fuel)%nat ->
    exists s' : state,
      attempts fuel c a last s = Some (inl (v, s'))
      /\ calls (trace s') = calls (trace s) ++ (outcome_at c w0 <$> seq a (S d)).
Proof.
  intros Hr Hk Hok Hv.
  induction d as [|d IH]; intros a last s fuel Had Hs Hfail Hfuel;
    (destruct fuel as [|fuel]; [lia|]); cbn [Retry.attempts];
    rewrite (loop_test _ n a Hr), bool_decide_eq_true_2 by lia.
  - assert (a = k) by lia; subst a.
    assert (Ho : (fn (world s)).1 = Returns v) by (rewrite Hs; exact Hok).
    destruct (attempt_body_success c k last v s Ho Hv) as (s' & E & Hc & _).
    unfold bind. rewrite E. exists s'. split; [reflexivity|].
    rewrite Hc. cbn. now rewrite Hok.
  - assert (Hf : failed (fn (world s)).1 = true).
    { rewrite Hs. apply (Hfail a). lia. }
    destruct (attempt_body_failed c a last s Hf) as (s1 & E & Hw1 & Hc1 & _).
    unfold bind at 1. rewrite E.
    rewrite (pause_test c n a Hr), bool_decide_eq_true_2 in Hw1 by lia.
    destruct (IH (S a) (keep_falsy last (fn (world s)).1) s1 fuel)
      as (s' & E' & Hc'); try lia.
    + rewrite Hw1. now rewrite Hs.
    + intros i Hi. apply Hfail. lia.
    + exists s'. split; [exact E'|].
      rewrite Hc', Hc1, <- app_assoc, Hs. reflexivity.
Qed.

(** Under a bound that is not [Infinity] the loop ends whatever the probe
    does. *)
Lemma attempts_terminate (c : RetryConfig) (n : nat) :
  rounds (maxAttempts c) = Some n ->
  forall (d a : nat) (last : value) (s : state) (fuel : nat),
    (n <= a + d)%nat -> (d < fuel)%nat ->
    exists (v : value) (s' : state), attempts fuel c a last s = Some (inl (v, s')).
Proof.
  intros Hr. induction d as [|d IH]; intros a last s fuel Had Hfuel;
    (destruct fuel as [|fuel]; [lia|]); cbn [Retry.attempts];
    rewrite (loop_test _ n a Hr).
  - rewrite bool_decide_eq_false_2 by lia.
    unfold bind, console, ret; cbn. eauto.
  - case_bool_decide.
    + destruct (attempt_body_total c a last s) as (p & s1 & E).
      unfold bind at 1. rewrite E. destruct p as [v|l].
      * unfold ret. eauto.
      * apply IH; lia.
    + unfold bind, console, ret; cbn. eauto.
Qed.

Lemma retryWithBackoff_accepted (fuel : nat) (config : value) (c : RetryConfig)
    (s : state) :
  accepted config = Some c ->
  retryWithBackoff fuel config s = attempts fuel c 0 VNull s.
Proof. unfold Retry.retryWithBackoff, bind, ret. now intros ->. Qed.

Lemma length_outcomes (c : RetryConfig) (w : World) (n : nat) :
  length (outcomes c w n) = n.
Proof. unfold Spec.outcomes. now rewrite length_fmap, length_seq. Qed.

(** C1.  Under a configuration the validator accepts, with
    [maxAttempts = m]: a probe whose first [m] invocations all fail is
    invoked exactly [m] times; a probe that first succeeds on its [k]-th
    invocation, [k <= m], is invoked exactly [k] times and the executor
    returns the value of that invocation. *)
Theorem probe_invocation_count (config : value) (c : RetryConfig) (m : nat)
    (w : World) :
  validateConfig config = true ->
  fields config = Some c ->
  is_nat (maxAttempts c) m ->
  ((forall i, (i < m)%nat -> failed (outcome_at c w i) = true) ->
   forall fuel, (m < fuel)%nat ->
   exists (v : value) (s' : state),
     retryWithBackoff fuel config (start w) = Some (inl (v, s'))
     /\ calls (trace s') = outcomes c w m
     /\ length (calls (trace s')) = m)
  /\ (forall (k : nat) (v : value),
        (1 <= k <= m)%nat ->
        (forall i, (i < k - 1)%nat -> failed (outcome_at c w i) = true) ->
        outcome_at c w (k - 1) = Returns v ->
        truthy v = true ->
        forall fuel, (k <= fuel)%nat ->
        exists s' : state,
          retryWithBackoff fuel config (start w) = Some (inl (v, s'))
          /\ calls (trace s') = outcomes c w k
          /\ length (calls (trace s')) = k).
Proof.
  intros Hv Hc Hm.
  pose proof (rounds_is_nat _ _ Hm) as Hr.
  pose proof (accepted_Some config c Hv Hc) as Ha.
  split.
  - intros Hfail fuel Hfuel. rewrite (retryWithBackoff_accepted _ _ _ _ Ha).
    destruct (attempts_all_failed c w m Hr m 0%nat VNull (start w) fuel)
      as (s' & E & Hcalls & _); try lia; try reflexivity.
    + intros i Hi. apply Hfail. lia.
    + eexists _, s'. split; [exact E|]. cbn in Hcalls.
      split; [exact Hcalls|]. rewrite Hcalls. apply length_outcomes.
  - intros k v Hk Hfail Hok Htruthy fuel Hfuel.
    rewrite (retryWithBackoff_accepted _ _ _ _ Ha).
    destruct (attempts_first_success c w m (k - 1) v Hr ltac:(lia) Hok Htruthy
                (k - 1)%nat 0%nat VNull (start w) fuel)
      as (s' & E & Hcalls); try lia; try reflexivity.
    + intros i Hi. apply Hfail. lia.
    + exists s'. split; [exact E|]. cbn [start trace calls omap app] in Hcalls.
      replace (S (k - 1)) with k in Hcalls by lia.
      split; [exact Hcalls|]. rewrite Hcalls. apply length_outcomes.
Qed.

Lemma last_falsy_snoc_returns (os : list outcome) (v : value) :
  last_falsy (os ++ [Returns v]) = v.
Proof. unfold last_falsy. now rewrite foldl_app. Qed.

Lemma last_falsy_snoc_throws (os : list outcome) (e : value) :
  last_falsy (os ++ [Throws e]) = last_falsy os.
Proof. unfold last_falsy. now rewrite foldl_app. Qed.

(** C4.  The executor never passes an error on to its caller, whatever the
    configuration and the probe.  Under a configuration the validator
    accepts whose loop can go round [n] times, when each of the [n]
    attempts ends in a falsy return or a raised error, the executor
    returns the falsy value returned last ([null] when every attempt
    raised); in particular the value of the final attempt when that one
    returned. *)
Theorem exhaustion_behaviour (config : value) (w : World) :
  (forall fuel e s', retryWithBackoff fuel config (start w) <> Some (inr (e, s')))
  /\ (forall (c : RetryConfig) (n : nat),
        validateConfig config = true ->
        fields config = Some c ->
        rounds (maxAttempts c) = Some n ->
        (forall i, (i < n)%nat -> failed (outcome_at c w i) = true) ->
        forall fuel, (n < fuel)%nat ->
        exists s' : state,
          retryWithBackoff fuel config (start w)
          = Some (inl (last_falsy (outcomes c w n), s'))
          /\ calls (trace s') = outcomes c w n
          /\ (forall v, last (outcomes c w n) = Some (Returns v) ->
              last_falsy (outcomes c w n) = v)).
Proof.
  split.
  - intros fuel. apply no_throw_retryWithBackoff.
  - intros c n Hv Hc Hr Hfail fuel Hfuel.
    rewrite (retryWithBackoff_accepted _ _ _ _ (accepted_Some config c Hv Hc)).
    destruct (attempts_all_failed c w n Hr n 0%nat VNull (start w) fuel)
      as (s' & E & Hcalls & _); try lia; try reflexivity.
    + intros i Hi. apply Hfail. lia.
    + exists s'. split; [exact E|]. split; [exact Hcalls|].
      intros v Hlast.
      destruct (outcomes c w n) as [|o os] eqn:Eo using rev_ind; [discriminate|].
      rewrite last_snoc in Hlast. injection Hlast as ->.
      apply last_falsy_snoc_returns.
Qed.

End ExecutorFacts.

(** *** The executor on concrete probes *)

Section ExecutorRuns.

Import Retry Spec Samples.

(** A probe that fails twice and then returns an object, under the portal
    preset: three invocations, two waits, the object returned. *)
Example scenario_third_attempt :
  exists s',
    retryWithBackoff third_time_lucky idle 10 (to_object RETRY_CONFIG_portal)
      (start 0%nat)
    = Some (inl (data_x, s'))
    /\ length (calls (trace s')) = 3%nat
    /\ delays (trace s') = [of_Z 200; of_Z 400].
Proof. eexists. vm_compute. repeat split. Qed.

(** A probe that always returns [null], three attempts allowed: waits of
    200 and 400, three invocations, [null] returned. *)
Example scenario_exhaustion :
  exists s',
    retryWithBackoff always_null idle 10 (to_object three_attempts) (start 0%nat)
    = Some (inl (VNull, s'))
    /\ length (calls (trace s')) = 3%nat
    /\ delays (trace s') = [of_Z 200; of_Z 400].
Proof. eexists. vm_compute. repeat split. Qed.

(** Under the configuration with a NaN attempt count, which the validator
    accepts, the probe is never invoked. *)
Example nan_config_never_probes :
  retryWithBackoff always_null idle 1 nan_config (start 0%nat)
  = Some (inl (VNull, {| world := 0%nat; trace := [Warn_exhausted NaN] |})).
Proof. reflexivity. Qed.

Lemma probe_invocation_count_witness :
  (exists (v : value) s',
     retryWithBackoff always_null idle 4 (to_object three_attempts) (start 0%nat)
     = Some (inl (v, s'))
     /\ calls (trace s') = outcomes always_null idle three_attempts 0%nat 3
     /\ length (calls (trace s')) = 3%nat)
  /\ (exists s',
        retryWithBackoff third_time_lucky idle 3 (to_object RETRY_CONFIG_portal)
          (start 0%nat)
        = Some (inl (data_x, s'))
        /\ calls (trace s')
           = outcomes third_time_lucky idle RETRY_CONFIG_portal 0%nat 3
        /\ length (calls (trace s')) = 3%nat).
Proof.
  split.
  - destruct (probe_invocation_count always_null idle (to_object three_attempts)
                three_attempts 3 0%nat eq_refl eq_refl eq_refl) as [H _].
    apply H; [|lia].
    intros i Hi. destruct i as [|[|[|i]]]; [reflexivity..|lia].
  - destruct (probe_invocation_count third_time_lucky idle
                (to_object RETRY_CONFIG_portal) RETRY_CONFIG_portal 5 0%nat
                eq_refl eq_refl eq_refl) as [_ H].
    apply (H 3%nat data_x); [lia| |reflexivity|reflexivity|lia].
    intros i Hi. destruct i as [|[|i]]; [reflexivity..|cbn in Hi; lia].
Defined.

Lemma exhaustion_behaviour_witness :
  exists s',
    retryWithBackoff always_null idle 4 (to_object three_attempts) (start 0%nat)
    = Some (inl (last_falsy (outcomes always_null idle three_attempts 0%nat 3), s'))
    /\ calls (trace s') = outcomes always_null idle three_attempts 0%nat 3
    /\ (forall v,
          last (outcomes always_null idle three_attempts 0%nat 3)
          = Some (Returns v) ->
          last_falsy (outcomes always_null idle three_attempts 0%nat 3) = v).
Proof.
  destruct (exhaustion_behaviour always_null idle (to_object three_attempts)
              0%nat) as [_ H].
  apply (H three_attempts 3%nat eq_refl eq_refl eq_refl); [|lia].
  intros i Hi. destruct i as [|[|[|i]]]; [reflexivity..|lia].
Defined.

End ExecutorRuns.

(** ** The element poller *)

Section PollerFacts.

Import Retry Poller.

Context {World : Type}.
Variable Date_now : World -> number.
Variable querySelector : jsstring -> World -> outcome.
Variable setTimeout : Z -> World -> World.

Local Abbreviation check := (check Date_now querySelector setTimeout).
Local Abbreviation waitForElement :=
  (waitForElement Date_now querySelector setTimeout).
Local Abbreviation page_at := (page_at setTimeout).
Local Abbreviation keeps_polling := (keeps_polling Date_now querySelector).

Lemma page_at_shift (i : nat) (w : World) :
  page_at (S i) w = page_at i (setTimeout elementPolling_pollInterval w).
Proof. induction i as [|i IH]; [reflexivity|]. cbn. now rewrite <- IH. Qed.

(** Polls that neither find, nor time out, nor raise lead to the next one. *)
Lemma check_keeps_polling (selector : jsstring) (timeout startTime : number) :
  forall (k fuel : nat) (first : bool) (w : World) (tr : list event),
    (forall i, (i < k)%nat ->
               keeps_polling selector timeout startTime (page_at i w) = true) ->
    exists tr' : list event,
      check (k + fuel) first selector timeout startTime w tr
      = check fuel (first && (k =? 0)%nat) selector timeout startTime
          (page_at k w) tr'.
Proof.
  induction k as [|k IH]; intros fuel first w tr Hq.
  - exists tr. now rewrite andb_true_r.
  - pose proof (Hq 0%nat ltac:(lia)) as H0.
    unfold Poller.keeps_polling in H0. cbn [Poller.page_at] in H0.
    cbn [Nat.add Poller.check].
    destruct (querySelector selector w) as [el|e]; [|discriminate].
    apply andb_true_iff in H0 as [Hel Hto].
    apply negb_true_iff in Hel, Hto. rewrite Hel, Hto.
    destruct (IH fuel false (setTimeout elementPolling_pollInterval w)
                ((tr ++ [Queried selector (Returns el)])
                   ++ [Timer elementPolling_pollInterval])) as [tr' E].
    + intros i Hi. rewrite <- page_at_shift. apply Hq. lia.
    + exists tr'. rewrite E, page_at_shift, andb_false_r. reflexivity.
Qed.

(** The element is returned at the first poll that finds it. *)
Lemma waitForElement_found (selector : jsstring) (timeout : option number)
    (w : World) (k fuel : nat) (element : value) :
  (forall i, (i < k)%nat ->
     keeps_polling selector (default (of_Z elementPolling_timeout) timeout)
       (Date_now w) (page_at i w) = true) ->
  querySelector selector (page_at k w) = Returns element ->
  truthy element = true ->
  (k < fuel)%nat ->
  exists tr : list event,
    waitForElement fuel selector timeout w
    = Some (Resolved element, page_at k w, tr).
Proof.
  intros Hq Hk Hel Hfuel. unfold Poller.waitForElement.
  replace fuel with (k + S (fuel - S k))%nat by lia.
  destruct (check_keeps_polling selector
              (default (of_Z elementPolling_timeout) timeout) (Date_now w)
              k (S (fuel - S k)) true w [] Hq) as [tr' ->].
  cbn [Poller.check]. rewrite Hk, Hel. eauto.
Qed.

(** [null] is returned at the first poll that finds nothing once the
    timeout has elapsed. *)
Lemma waitForElement_timed_out (selector : jsstring) (timeout : option number)
    (w : World) (k fuel : nat) (element : value) :
  (forall i, (i < k)%nat ->
     keeps_polling selector (default (of_Z elementPolling_timeout) timeout)
       (Date_now w) (page_at i w) = true) ->
  querySelector selector (page_at k w) = Returns element ->
  truthy element = false ->
  geb (sub (Date_now (page_at k w)) (Date_now w))
      (default (of_Z elementPolling_timeout) timeout) = true ->
  (k < fuel)%nat ->
  exists tr : list event,
    waitForElement fuel selector timeout w
    = Some (Resolved VNull, page_at k w, tr).
Proof.
  intros Hq Hk Hel Hto Hfuel. unfold Poller.waitForElement.
  replace fuel with (k + S (fuel - S k))%nat by lia.
  destruct (check_keeps_polling selector
              (default (of_Z elementPolling_timeout) timeout) (Date_now w)
              k (S (fuel - S k)) true w [] Hq) as [tr' ->].
  cbn [Poller.check]. rewrite Hk, Hel, Hto. eauto.
Qed.

(** A query that raises ends the polling: the promise is rejected when the
    first poll raises, and is never settled when a later one does. *)
Lemma waitForElement_query_raises (selector : jsstring)
    (timeout : option number) (w : World) (k fuel : nat) (error : value) :
  (forall i, (i < k)%nat ->
     keeps_polling selector (default (of_Z elementPolling_timeout) timeout)
       (Date_now w) (page_at i w) = true) ->
  querySelector selector (page_at k w) = Throws error ->
  (k < fuel)%nat ->
  exists tr : list event,
    waitForElement fuel selector timeout w
    = Some (if (k =? 0)%nat then Rejected error else Pending error,
            page_at k w, tr).
Proof.
  intros Hq Hk Hfuel. unfold Poller.waitForElement.
  replace fuel with (k + S (fuel - S k))%nat by lia.
  destruct (check_keeps_polling selector
              (default (of_Z elementPolling_timeout) timeout) (Date_now w)
              k (S (fuel - S k)) true w [] Hq) as [tr' ->].
  cbn [Poller.check]. rewrite Hk. cbn [andb]. eauto.
Qed.

End PollerFacts.

Section PollerRuns.

Import Retry Poller Samples.

(** The element that appears at time 150 is returned by the third poll. *)
Example waitForElement_late_element :
  exists w tr,
    waitForElement page_now page_query page_timer 10 (lit "#menu") None late_page
    = Some (Resolved menu, w, tr)
    /\ clock w = 200.
Proof. eexists _, _. vm_compute. split; reflexivity. Qed.

(** With a timeout of 250 and no element, the fourth poll, at time 300,
    gives [null]. *)
Example waitForElement_gives_up :
  exists w tr,
    waitForElement page_now page_query page_timer 10 (lit "#menu")
      (Some (of_Z 250)) empty_page
    = Some (Resolved VNull, w, tr)
    /\ clock w = 300.
Proof. eexists _, _. vm_compute. split; reflexivity. Qed.

(** A query that starts to raise at time 100: the second poll, run by the
    timer, raises and the promise stays pending. *)
Example waitForElement_left_pending :
  waitForElement of_Z
    (fun _ now => if now <? 100 then Returns VNull else Throws SyntaxError)
    (fun delay now => now + delay) 10 (lit "#menu") None 0
  = Some (Pending SyntaxError, 100,
          [Queried (lit "#menu") (Returns VNull); Timer 100;
           Queried (lit "#menu") (Throws SyntaxError)]).
Proof. reflexivity. Qed.

(** C5 (as the code has it).  The query of [waitForElement] is not guarded:
    on the empty selector, for which [document.querySelector] raises a
    syntax error, the first poll raises inside the promise executor and the
    returned promise is rejected with that error, whatever the timeout. *)
Theorem waitForElement_rejects_on_query_error :
  forall (fuel : nat) (timeout : option number),
    waitForElement page_now page_query page_timer (S fuel) (lit "") timeout
      empty_page
    = Some (Rejected SyntaxError, empty_page,
            [Queried (lit "") (Throws SyntaxError)]).
Proof. intros fuel timeout. reflexivity. Qed.

End PollerRuns.

(** ** The display element *)

Section DisplayFacts.

Import Display.

Lemma truncateText_default (text : jsstring) :
  truncateText text CONFIG_maxNameLength
  = if (length text <=? 30)%nat then text else take 27 text ++ lit "...".
Proof.
  unfold truncateText, CONFIG_maxNameLength.
  destruct text as [|c text]; [reflexivity|]. cbn [truthy negb orb].
  destruct (Nat.leb_spec (length (c :: text)) 30) as [H|H].
  - rewrite (proj2 (Z.leb_le _ _)) by lia. reflexivity.
  - rewrite (proj2 (Z.leb_gt _ _)) by lia. reflexivity.
Qed.

(** C10.  The tooltip is the full name followed by the identifier in
    parentheses; the displayed text is the name when it has at most 30
    characters and otherwise its first 27 characters followed by three
    dots; it never has more than 30 characters, and both texts are the ones
    set on the element. *)
Theorem createDisplayElement_texts (accountName accountId : jsstring) :
  tooltipText (createDisplayElement accountName accountId)
  = accountName ++ lit " (" ++ accountId ++ lit ")"
  /\ displayText (createDisplayElement accountName accountId)
     = (if (length accountName <=? 30)%nat then accountName
        else take 27 accountName ++ lit "...")
  /\ (length (displayText (createDisplayElement accountName accountId)) <= 30)%nat
  /\ textContent (node (createDisplayElement accountName accountId))
     = displayText (createDisplayElement accountName accountId)
  /\ title (node (createDisplayElement accountName accountId))
     = tooltipText (createDisplayElement accountName accountId).
Proof.
  cbn [createDisplayElement tooltipText displayText node textContent title].
  rewrite truncateText_default.
  repeat split.
  destruct (Nat.leb_spec (length accountName) 30) as [H|H]; [exact H|].
  rewrite length_app, length_take.
  change (length (lit "...")) with 3%nat. lia.
Qed.

Example display_long_name :
  displayText (createDisplayElement (lit "abcdefghijklmnopqrstuvwxyz01234567")
                 (lit "123456789012"))
  = lit "abcdefghijklmnopqrstuvwxyz0..."
  /\ tooltipText (createDisplayElement (lit "abcdefghijklmnopqrstuvwxyz01234567")
                    (lit "123456789012"))
     = lit "abcdefghijklmnopqrstuvwxyz01234567 (123456789012)".
Proof. split; reflexivity. Qed.

End DisplayFacts.

(** ** Validation of account data *)

Section ValidationFacts.

Import Validation Spec.

Lemma is_digit_spec (c : N) : is_digit c = true <-> (48 <= c <= 57)%N.
Proof. unfold is_digit. rewrite andb_true_iff, !N.leb_le. tauto. Qed.

Lemma isValidAccountId_spec (v : value) :
  isValidAccountId v = true <-> twelve_digits v.
Proof.
  unfold twelve_digits. split.
  - destruct v as [| | | |s|]; try discriminate. cbn [isValidAccountId].
    rewrite andb_true_iff, Nat.eqb_eq, forallb_forall. intros [Hl Hd].
    exists s. repeat split; [exact Hl|]. apply Forall_forall. intros c Hc.
    apply is_digit_spec, Hd, list_elem_of_In, Hc.
  - intros (s & -> & Hl & Hd). cbn [isValidAccountId].
    rewrite andb_true_iff, Nat.eqb_eq, forallb_forall. split; [exact Hl|].
    intros c Hc. apply is_digit_spec.
    rewrite Forall_forall in Hd. apply Hd, list_elem_of_In, Hc.
Qed.

Lemma isValidAccountName_spec (v : value) :
  isValidAccountName v = true <-> name_within_limits v.
Proof.
  unfold name_within_limits. split.
  - destruct v as [| | | |s|]; try discriminate. cbn [isValidAccountName].
    rewrite andb_true_iff, Nat.ltb_lt, Nat.leb_le. intros [Ht Hl].
    exists s. repeat split; [|exact Hl]. intros E. rewrite E in Ht. cbn in Ht. lia.
  - intros (s & -> & Ht & Hl). cbn [isValidAccountName].
    rewrite andb_true_iff, Nat.ltb_lt, Nat.leb_le. split; [|exact Hl].
    destruct (trim s); [congruence | cbn; lia].
Qed.

Lemma record_ok_spec (r : Storage.AccountInput) :
  record_ok r = true
  <-> twelve_digits (Storage.in_accountId r)
      /\ name_within_limits (Storage.in_accountName r).
Proof.
  unfold record_ok.
  now rewrite andb_true_iff, isValidAccountId_spec, isValidAccountName_spec.
Qed.

Lemma record_ok_malformed (r : Storage.AccountInput) :
  record_ok r = false <-> malformed r.
Proof.
  unfold malformed. rewrite <- isValidAccountId_spec, <- isValidAccountName_spec.
  unfold record_ok.
  destruct (isValidAccountId (Storage.in_accountId r)),
    (isValidAccountName (Storage.in_accountName r)); cbn; split; intros H;
    try reflexivity; try discriminate;
    try (left; discriminate); try (right; discriminate);
    destruct H as [H|H]; exfalso; apply H; reflexivity.
Qed.

(** What [trimStart] removes is white space, and what it leaves does not
    begin with white space. *)
Lemma trimStart_spec (s : jsstring) :
  exists pre : jsstring,
    s = pre ++ trimStart s /\ blank pre
    /\ (forall c, head (trimStart s) = Some c -> is_space c = false).
Proof.
  induction s as [|c s (pre & E & Hb & Hh)].
  - exists []. repeat split; [constructor | discriminate].
  - cbn [trimStart]. destruct (is_space c) eqn:Hc.
    + exists (c :: pre). repeat split.
      * cbn. now rewrite <- E.
      * now constructor.
      * exact Hh.
    + exists []. repeat split; [constructor|]. now intros ? [= <-].
Qed.

Lemma trimEnd_spec (s : jsstring) :
  exists post : jsstring,
    s = trimEnd s ++ post /\ blank post
    /\ (forall c, last (trimEnd s) = Some c -> is_space c = false).
Proof.
  unfold trimEnd. destruct (trimStart_spec (rev s)) as (pre & E & Hb & Hh).
  exists (rev pre). repeat split.
  - rewrite <- rev_app_distr, <- E. now rewrite rev_involutive.
  - unfold blank in *. rewrite Forall_forall in *. intros c Hc.
    apply Hb. apply list_elem_of_In. apply list_elem_of_In in Hc.
    now apply in_rev.
  - intros c Hc. apply Hh. rewrite <- Hc.
    rewrite (rev_alt (trimStart (rev s))). symmetry. apply last_reverse.
Qed.

(** [trim] removes white space at both ends and nothing else. *)
Lemma trim_spec (s : jsstring) :
  exists pre post : jsstring,
    s = pre ++ trim s ++ post /\ blank pre /\ blank post
    /\ (forall c, head (trim s) = Some c -> is_space c = false)
    /\ (forall c, last (trim s) = Some c -> is_space c = false).
Proof.
  unfold trim.
  destruct (trimStart_spec s) as (pre & E1 & Hb1 & Hh1).
  destruct (trimEnd_spec (trimStart s)) as (post & E2 & Hb2 & Hl2).
  exists pre, post. repeat split; try assumption.
  - now rewrite <- E2.
  - intros c Hc. apply Hh1. rewrite E2.
    destruct (trimEnd (trimStart s)); [discriminate | exact Hc].
Qed.

Lemma length_trim (s : jsstring) : (length (trim s) <= length s)%nat.
Proof.
  destruct (trim_spec s) as (pre & post & E & _).
  rewrite E at 2. rewrite !length_app. lia.
Qed.

(** On a name within the limit the cap of [sanitizeAccountName] changes
    nothing: the result is the trimmed name. *)
Lemma sanitizeAccountName_trim (s : jsstring) :
  (length s <= 256)%nat -> sanitizeAccountName (VStr s) = trim s.
Proof.
  intros H. cbn. unfold substring0. apply take_ge.
  pose proof (length_trim s). lia.
Qed.

Lemma length_sanitizeAccountName (v : value) :
  (length (sanitizeAccountName v) <= 256)%nat.
Proof.
  destruct v; cbn; try lia. unfold substring0. rewrite length_take. lia.
Qed.

End ValidationFacts.

(** ** The storage service *)

Section StorageFacts.

Import Validation Storage Spec.

Lemma has_id_spec (id : jsstring) (r : AccountInput) :
  has_id id r = true <-> in_accountId r = VStr id.
Proof.
  unfold has_id. destruct (in_accountId r); try (split; discriminate).
  rewrite bool_decide_eq_true. split; congruence.
Qed.

Lemma record_ok_has_id (r : AccountInput) :
  record_ok r = true -> exists id, in_accountId r = VStr id.
Proof.
  intros H. apply record_ok_spec in H as [(s & E & _) _]. eauto.
Qed.

Lemma kept_snoc (id : jsstring) (batch : list AccountInput) (r : AccountInput) :
  kept id (batch ++ [r])
  = if record_ok r && has_id id r then Some r else kept id batch.
Proof.
  unfold kept. rewrite List.filter_app. cbn [List.filter].
  destruct (record_ok r && has_id id r).
  - apply last_snoc.
  - now rewrite app_nil_r.
Qed.

(** The object built by the loop holds, for each identifier, the record
    kept for it. *)
Lemma validAccounts_lookup (b : browser) (id : jsstring)
    (batch : list AccountInput) (acc : gmap jsstring AccountMapping) :
  foldl (add_account b) acc batch !! id
  = match kept id batch with
    | Some r => Some (stored_as b id r)
    | None => acc !! id
    end.
Proof.
  induction batch as [|r batch IH] using rev_ind; [reflexivity|].
  rewrite foldl_app, kept_snoc. cbn [foldl]. unfold add_account at 1.
  fold (record_ok r). destruct (record_ok r) eqn:Hok; cbn [andb]; [|exact IH].
  destruct (record_ok_has_id r Hok) as [s Hs]. rewrite Hs.
  unfold has_id. rewrite Hs. case_bool_decide as Hid.
  - subst s. now rewrite lookup_insert_eq.
  - now rewrite lookup_insert_ne.
Qed.

Lemma validAccounts_filter (b : browser) (batch : list AccountInput)
    (acc : gmap jsstring AccountMapping) :
  foldl (add_account b) acc (List.filter record_ok batch)
  = foldl (add_account b) acc batch.
Proof.
  revert acc. induction batch as [|r batch IH]; intros acc; [reflexivity|].
  cbn [List.filter foldl]. destruct (record_ok r) eqn:Hok.
  - cbn [foldl]. apply IH.
  - rewrite IH. unfold add_account at 3. fold (record_ok r). now rewrite Hok.
Qed.

(** When the storage API works, [storeAccounts] succeeds and replaces what
    is kept under ["accounts"] and ["version"]. *)
Lemma storeAccounts_ok (batch : list AccountInput) (b : browser) :
  fault b = None ->
  storeAccounts batch b
  = ({| success := true; error := None |},
     {| area := <["version" := Number (of_Z 1)]>
                  (<["accounts" := Accounts (foldl (add_account b) ∅ batch)]>
                     (area b));
        now := now b; fault := None |}).
Proof.
  intros Hf. unfold storeAccounts, chrome_storage_local_set. rewrite Hf.
  reflexivity.
Qed.

Lemma after_store_accounts (batch : list AccountInput) (t : Z) (b : browser) :
  fault b = None ->
  fault (after_store batch t b) = None
  /\ area (after_store batch t b) !! "accounts"
     = Some (Accounts (foldl (add_account b) ∅ batch)).
Proof.
  intros Hf. unfold after_store, tick. rewrite (storeAccounts_ok batch b Hf).
  cbn. split; [reflexivity|].
  rewrite lookup_insert_ne by discriminate. apply lookup_insert_eq.
Qed.

Lemma getAccountName_invalid (id : value) (b : browser) :
  isValidAccountId id = false -> nr_accountName (getAccountName id b) = None.
Proof. unfold getAccountName. now intros ->. Qed.

(** Reading an identifier when the storage API works. *)
Lemma getAccountName_valid (id : jsstring) (b : browser)
    (m : gmap jsstring AccountMapping) :
  fault b = None ->
  area b !! "accounts" = Some (Accounts m) ->
  isValidAccountId (VStr id) = true ->
  getAccountName (VStr id) b = found (accountName <$> m !! id).
Proof.
  intros Hf Ha Hid. unfold getAccountName, chrome_storage_local_get.
  rewrite Hid, Hf. cbn [negb]. unfold accounts_or_empty.
  assert (E : filter (fun kv : string * item => kv.1 ∈ ["accounts"]) (area b)
              !! "accounts" = Some (Accounts m)).
  { apply map_lookup_filter_Some. split; [exact Ha|]. cbn. set_solver. }
  rewrite E. reflexivity.
Qed.

(** Reading after a store gives the sanitized name of the record kept for
    the identifier, or [null] when the batch keeps none. *)
Lemma getAccountName_after_store (batch : list AccountInput) (t : Z)
    (b : browser) (id : jsstring) :
  fault b = None ->
  isValidAccountId (VStr id) = true ->
  getAccountName (VStr id) (after_store batch t b)
  = found ((fun r => sanitizeAccountName (in_accountName r)) <$> kept id batch).
Proof.
  intros Hf Hid. destruct (after_store_accounts batch t b Hf) as [Hf' Ha].
  rewrite (getAccountName_valid id _ _ Hf' Ha Hid), validAccounts_lookup.
  destruct (kept id batch); reflexivity.
Qed.

Lemma kept_Some (id : jsstring) (batch : list AccountInput) (r : AccountInput) :
  kept id batch = Some r ->
  r ∈ batch /\ record_ok r = true /\ in_accountId r = VStr id.
Proof.
  unfold kept. intros H. apply last_Some_elem_of in H.
  apply list_elem_of_In, List.filter_In in H as [Hin Hp].
  apply andb_true_iff in Hp as [Hok Hid].
  split; [now apply list_elem_of_In|]. split; [exact Hok|].
  now apply has_id_spec.
Qed.

Lemma kept_is_Some (id : jsstring) (batch : list AccountInput) (r : AccountInput) :
  r ∈ batch -> record_ok r = true -> in_accountId r = VStr id ->
  is_Some (kept id batch).
Proof.
  intros Hin Hok Hid. unfold kept.
  assert (H : In r (List.filter (fun r => record_ok r && has_id id r) batch)).
  { apply List.filter_In. split; [now apply list_elem_of_In|].
    rewrite Hok. now apply has_id_spec. }
  destruct (List.filter _ batch) as [|x l] eqn:E using rev_ind; [destruct H|].
  rewrite last_snoc. eauto.
Qed.

(** When the accepted records carry distinct identifiers, the record kept
    for an identifier is the accepted record that carries it. *)
Lemma kept_unique (id : jsstring) (batch : list AccountInput)
    (r r' : AccountInput) :
  NoDup (ids (List.filter record_ok batch)) ->
  r ∈ batch -> record_ok r = true -> in_accountId r = VStr id ->
  kept id batch = Some r' -> r' = r.
Proof.
  intros Hnd Hin Hok Hid Hk. apply kept_Some in Hk as (Hin' & Hok' & Hid').
  assert (H : forall x, x ∈ batch -> record_ok x = true ->
                        x ∈ List.filter record_ok batch).
  { intros x Hx Hox. apply list_elem_of_In, List.filter_In.
    split; [now apply list_elem_of_In | exact Hox]. }
  pose proof (H r Hin Hok) as Hr. pose proof (H r' Hin' Hok') as Hr'.
  unfold ids in Hnd.
  apply list_elem_of_lookup in Hr as [i Hi], Hr' as [j Hj].
  assert (Hij : i = j).
  { eapply NoDup_lookup; [exact Hnd | |].
    - rewrite list_lookup_fmap, Hi. reflexivity.
    - rewrite list_lookup_fmap, Hj. cbn. congruence. }
  subst j. congruence.
Qed.

Lemma after_store_fault (batch : list AccountInput) (t : Z) (b : browser) :
  fault b = None -> fault (after_store batch t b) = None.
Proof. intros Hf. apply (after_store_accounts batch t b Hf). Qed.

Lemma ids_valid (batch : list AccountInput) (id : value) :
  Forall (fun r => record_ok r = true) batch -> id ∈ ids batch ->
  exists (s : jsstring) (r : AccountInput),
    id = VStr s /\ r ∈ batch /\ record_ok r = true /\ in_accountId r = VStr s
    /\ isValidAccountId (VStr s) = true.
Proof.
  intros Hall Hin. apply list_elem_of_fmap in Hin as (r & -> & Hr).
  rewrite Forall_forall in Hall. pose proof (Hall r Hr) as Hok.
  destruct (record_ok_has_id r Hok) as [s Hs]. exists s, r.
  repeat split; try assumption.
  unfold record_ok in Hok. apply andb_true_iff in Hok as [Hid _].
  now rewrite Hs in Hid.
Qed.

(** C7.  With a working storage API, storing a batch [A] of well-formed
    mappings and then a batch [B] of well-formed mappings leaves exactly
    the identifiers of [B] resolvable: reading an identifier gives a name
    if and only if [B] mentions it, and an identifier of [A] that [B] does
    not mention reads as absent. *)
Theorem full_replace (A B : list AccountInput) (b : browser) (t1 t2 : Z) :
  fault b = None ->
  Forall (fun r => record_ok r = true) A ->
  Forall (fun r => record_ok r = true) B ->
  success (storeAccounts A b).1 = true
  /\ success (storeAccounts B (after_store A t1 b)).1 = true
  /\ (forall id : value,
        is_Some (nr_accountName
                   (getAccountName id (after_store B t2 (after_store A t1 b))))
        <-> id ∈ ids B)
  /\ (forall id : value,
        id ∈ ids A -> id ∉ ids B ->
        getAccountName id (after_store B t2 (after_store A t1 b)) = found None).
Proof.
  intros Hf HA HB. pose proof (after_store_fault A t1 b Hf) as Hf1.
  split; [now rewrite (storeAccounts_ok A b Hf)|].
  split; [now rewrite (storeAccounts_ok B _ Hf1)|].
  assert (Hread : forall s, isValidAccountId (VStr s) = true ->
            (is_Some (kept s B) <-> VStr s ∈ ids B)).
  { intros s Hs. split.
    - intros [r Hr]. apply kept_Some in Hr as (Hin & _ & Hid).
      apply list_elem_of_fmap. exists r. split; [now rewrite Hid | exact Hin].
    - intros Hin. destruct (ids_valid B _ HB Hin) as (s' & r & E & Hr & Hok & Hid & _).
      injection E as <-. exact (kept_is_Some s B r Hr Hok Hid). }
  split.
  - intros id. destruct (isValidAccountId id) eqn:Hid.
    + pose proof Hid as Hd. apply isValidAccountId_spec in Hd as (s & -> & _).
      rewrite (getAccountName_after_store B t2 _ s Hf1 Hid). cbn [found nr_accountName].
      rewrite <- (Hread s Hid). apply fmap_is_Some.
    + rewrite (getAccountName_invalid id _ Hid). split.
      * intros [x Hx]. discriminate.
      * intros Hin. destruct (ids_valid B _ HB Hin) as (s & _ & -> & _ & _ & _ & Hv).
        congruence.
  - intros id HinA HninB.
    destruct (ids_valid A _ HA HinA) as (s & _ & -> & _ & _ & _ & Hv).
    rewrite (getAccountName_after_store B t2 _ s Hf1 Hv).
    destruct (kept s B) as [r|] eqn:Hk; [|reflexivity].
    exfalso. apply HninB, (Hread s Hv). eauto.
Qed.

(** C8.  With a working storage API, after storing a batch of well-formed
    mappings, reading the identifier of any of its records succeeds and
    gives the sanitized name of the record kept for that identifier (the
    last one that carries it; the record itself when identifiers are not
    repeated).  The sanitized name is the name without the white space
    around it, of at most 256 characters.  Storing ["  Prod  "] under
    ["123456789012"] and reading it gives ["Prod"]. *)
Theorem storage_round_trip (batch : list AccountInput) (b : browser) (t : Z) :
  fault b = None ->
  Forall (fun r => record_ok r = true) batch ->
  success (storeAccounts batch b).1 = true
  /\ (forall r : AccountInput,
        r ∈ batch ->
        exists (id : jsstring) (r' : AccountInput),
          in_accountId r = VStr id
          /\ kept id batch = Some r'
          /\ r' ∈ batch /\ in_accountId r' = in_accountId r
          /\ getAccountName (in_accountId r) (after_store batch t b)
             = found (Some (sanitizeAccountName (in_accountName r')))
          /\ (NoDup (ids batch) -> r' = r))
  /\ (forall (r : AccountInput),
        r ∈ batch ->
        exists (name pre post : jsstring),
          in_accountName r = VStr name
          /\ sanitizeAccountName (in_accountName r) = trim name
          /\ name = pre ++ trim name ++ post /\ blank pre /\ blank post
          /\ (forall c, head (trim name) = Some c -> is_space c = false)
          /\ (forall c, last (trim name) = Some c -> is_space c = false)
          /\ (0 < length (trim name) <= 256)%nat)
  /\ getAccountName (VStr (lit "123456789012"))
       (after_store [Samples.account "123456789012" "  Prod  "] t b)
     = found (Some (lit "Prod")).
Proof.
  intros Hf Hall.
  split; [now rewrite (storeAccounts_ok batch b Hf)|].
  assert (Hfilter : List.filter record_ok batch = batch).
  { clear Hf. induction Hall as [|r l Hr _ IH]; [reflexivity|].
    cbn. now rewrite Hr, IH. }
  split; [|split].
  - intros r Hr. rewrite Forall_forall in Hall. pose proof (Hall r Hr) as Hok.
    destruct (record_ok_has_id r Hok) as [id Hid].
    destruct (kept_is_Some id batch r Hr Hok Hid) as [r' Hk].
    pose proof (kept_Some id batch r' Hk) as (Hin' & Hok' & Hid').
    exists id, r'. repeat split; try assumption; try congruence.
    + rewrite Hid. rewrite getAccountName_after_store, Hk; [reflexivity|exact Hf|].
      unfold record_ok in Hok. apply andb_true_iff in Hok as [Hv _].
      now rewrite Hid in Hv.
    + intros Hnd. apply (kept_unique id batch r r'); try assumption.
      now rewrite Hfilter.
  - intros r Hr. rewrite Forall_forall in Hall. pose proof (Hall r Hr) as Hok.
    apply record_ok_spec in Hok as [_ (name & Hn & Hne & Hlen)].
    destruct (trim_spec name) as (pre & post & E & Hpre & Hpost & Hh & Hl).
    exists name, pre, post. rewrite Hn.
    repeat split; try assumption.
    + now apply sanitizeAccountName_trim.
    + destruct (trim name); [congruence | cbn; lia].
    + pose proof (length_trim name). lia.
  - rewrite getAccountName_after_store; [reflexivity | exact Hf | reflexivity].
Qed.

(** C9.  With a working storage API, [storeAccounts] succeeds on any batch;
    the records it rejects are exactly the malformed ones (identifier not
    made of 12 ASCII digits, or name empty once trimmed or longer than 256
    characters); they are dropped, the store being the same as for the
    batch without them; and the identifier of every well-formed record of
    the batch reads back as the sanitized name of the well-formed record
    kept for it, while an identifier that is not well formed resolves to
    nothing. *)
Theorem malformed_records_dropped (batch : list AccountInput) (b : browser)
    (t : Z) :
  fault b = None ->
  success (storeAccounts batch b).1 = true
  /\ (forall r : AccountInput, record_ok r = false <-> malformed r)
  /\ storeAccounts batch b = storeAccounts (List.filter record_ok batch) b
  /\ (forall r : AccountInput,
        r ∈ batch -> ~ malformed r ->
        exists (id : jsstring) (r' : AccountInput),
          in_accountId r = VStr id
          /\ kept id batch = Some r'
          /\ r' ∈ batch /\ ~ malformed r' /\ in_accountId r' = in_accountId r
          /\ getAccountName (in_accountId r) (after_store batch t b)
             = found (Some (sanitizeAccountName (in_accountName r')))
          /\ (NoDup (ids (List.filter record_ok batch)) -> r' = r))
  /\ (forall id : value,
        ~ twelve_digits id ->
        nr_accountName (getAccountName id (after_store batch t b)) = None).
Proof.
  intros Hf.
  split; [now rewrite (storeAccounts_ok batch b Hf)|].
  split; [exact record_ok_malformed|].
  split.
  { rewrite !(storeAccounts_ok _ b Hf). now rewrite validAccounts_filter. }
  split.
  - intros r Hr Hwf.
    assert (Hok : record_ok r = true).
    { destruct (record_ok r) eqn:E; [reflexivity|].
      exfalso. now apply Hwf, record_ok_malformed. }
    destruct (record_ok_has_id r Hok) as [id Hid].
    destruct (kept_is_Some id batch r Hr Hok Hid) as [r' Hk].
    pose proof (kept_Some id batch r' Hk) as (Hin' & Hok' & Hid').
    exists id, r'. repeat split; try assumption; try congruence.
    + intros Hm. apply record_ok_malformed in Hm. congruence.
    + rewrite Hid. rewrite getAccountName_after_store, Hk; [reflexivity|exact Hf|].
      unfold record_ok in Hok. apply andb_true_iff in Hok as [Hv _].
      now rewrite Hid in Hv.
    + intros Hnd. now apply (kept_unique id batch r r').
  - intros id Hid. apply getAccountName_invalid.
    destruct (isValidAccountId id) eqn:E; [|reflexivity].
    exfalso. now apply Hid, isValidAccountId_spec.
Qed.

End StorageFacts.

Section StorageRuns.

Import Validation Storage Spec Samples.

Example sanitize_Prod : sanitizeAccountName (VStr (lit "  Prod  ")) = lit "Prod".
Proof. reflexivity. Qed.

(** A later record replaces an earlier one with the same identifier. *)
Example last_record_wins :
  getAccountName (VStr (lit "123456789012"))
    (after_store [account "123456789012" "Old"; account "123456789012" "New"]
       1 fresh)
  = found (Some (lit "New")).
Proof.
  rewrite getAccountName_after_store; reflexivity.
Qed.

Lemma full_replace_witness :
  getAccountName (VStr (lit "111111111111"))
    (after_store [account "222222222222" "Dev"] 2
       (after_store [account "111111111111" "Prod"] 1 fresh))
  = found None.
Proof.
  destruct (full_replace [account "111111111111" "Prod"]
              [account "222222222222" "Dev"] fresh 1 2 eq_refl)
    as (_ & _ & _ & H).
  - repeat constructor.
  - repeat constructor.
  - apply H.
    + apply list_elem_of_here.
    + intros Hin. apply list_elem_of_singleton in Hin.
      vm_compute in Hin. discriminate Hin.
Defined.

Lemma storage_round_trip_witness :
  getAccountName (VStr (lit "123456789012"))
    (after_store [account "123456789012" "  Prod  "] 1 fresh)
  = found (Some (lit "Prod")).
Proof.
  destruct (storage_round_trip [account "123456789012" "  Prod  "] fresh 1
              eq_refl) as (_ & _ & _ & H).
  - repeat constructor.
  - exact H.
Defined.

Lemma malformed_records_dropped_witness :
  success
    (storeAccounts [account "12345" "Short"; account "123456789012" "Prod";
                    account "210987654321" "   "] fresh).1 = true
  /\ storeAccounts [account "12345" "Short"; account "123456789012" "Prod";
                    account "210987654321" "   "] fresh
     = storeAccounts [account "123456789012" "Prod"] fresh.
Proof.
  destruct (malformed_records_dropped
              [account "12345" "Short"; account "123456789012" "Prod";
               account "210987654321" "   "] fresh 1 eq_refl)
    as (Hs & _ & Hd & _).
  split; [exact Hs | exact Hd].
Defined.

End StorageRuns.

(** ** More on the backoff calculator *)

Section DelayFacts.

Import Retry Spec.

Lemma strict_eq_lit_true (v : value) (s : string) :
  strict_eq_lit v s = true <-> v = VStr (lit s).
Proof.
  unfold strict_eq_lit. destruct v; try (split; [discriminate|congruence]).
  rewrite bool_decide_eq_true. split; congruence.
Qed.

(** *** Numbers that are not negative *)

Lemma nonneg_cases (x : number) :
  nonneg x = true -> x = PosInf \/ exists d : Q, x = Fin d /\ (0 <= d)%Q.
Proof.
  destruct x as [d| | |]; try discriminate; [right|now left].
  exists d. split; [reflexivity|]. now apply Qle_bool_iff.
Qed.

Lemma nonneg_Fin (d : Q) : (0 <= d)%Q -> nonneg (Fin d) = true.
Proof. intros H. now apply Qle_bool_iff. Qed.

Lemma leb_PosInf (x : number) : nonneg x = true -> leb x PosInf = true.
Proof. now destruct x. Qed.

Lemma scale_inf_pos (i : Q) : (0 < i)%Q -> scale_inf true i = PosInf.
Proof. intros H. unfold scale_inf. apply Qgt_alt in H. now rewrite H. Qed.

Lemma mul_nonneg_Fin (i p : Q) :
  (0 <= i)%Q -> (0 <= p)%Q -> nonneg (mul (Fin i) (Fin p)) = true.
Proof. intros Hi Hp. apply to_double_nonneg. now apply Qmult_le_0_compat. Qed.

Lemma mul_nonneg (i : Q) (x : number) :
  (0 < i)%Q -> nonneg x = true -> nonneg (mul (Fin i) x) = true.
Proof.
  intros Hi [->|(p & -> & Hp)]%nonneg_cases.
  - cbn [mul]. now rewrite scale_inf_pos.
  - apply mul_nonneg_Fin; [now apply Qlt_le_weak | exact Hp].
Qed.

Lemma mul_mono (i : Q) (x y : number) :
  (0 < i)%Q -> nonneg x = true -> leb x y = true ->
  leb (mul (Fin i) x) (mul (Fin i) y) = true.
Proof.
  intros Hi [->|(p & -> & Hp)]%nonneg_cases Hxy.
  - destruct y; try discriminate. cbn [mul]. now rewrite scale_inf_pos.
  - destruct y as [q| | |]; try discriminate.
    + cbn [mul]. apply Qle_bool_iff in Hxy. apply to_double_mono.
      * apply Qmult_le_0_compat; [now apply Qlt_le_weak | exact Hp].
      * apply Qmult_le_l; assumption.
    + change (mul (Fin i) PosInf) with (scale_inf true i).
      rewrite scale_inf_pos by exact Hi. apply leb_PosInf.
      apply mul_nonneg_Fin; [now apply Qlt_le_weak | exact Hp].
Qed.

Lemma add_nonneg (i : Q) (x : number) :
  (0 <= i)%Q -> nonneg x = true -> nonneg (add (Fin i) x) = true.
Proof.
  intros Hi [->|(p & -> & Hp)]%nonneg_cases; [reflexivity|].
  apply to_double_nonneg. rewrite <- (Qplus_0_r 0). now apply Qplus_le_compat.
Qed.

Lemma add_mono (i : Q) (x y : number) :
  (0 <= i)%Q -> nonneg x = true -> leb x y = true ->
  leb (add (Fin i) x) (add (Fin i) y) = true.
Proof.
  intros Hi [->|(p & -> & Hp)]%nonneg_cases Hxy.
  - now destruct y.
  - destruct y as [q| | |]; try discriminate.
    + cbn [add]. apply Qle_bool_iff in Hxy. apply to_double_mono.
      * rewrite <- (Qplus_0_r 0). now apply Qplus_le_compat.
      * apply Qplus_le_compat; [apply Qle_refl | exact Hxy].
    + change (add (Fin i) PosInf) with PosInf. apply leb_PosInf.
      apply (add_nonneg i (Fin p) Hi). now apply nonneg_Fin.
Qed.

(** The cap [Math.min(delay, maxDelay)] on a delay that is not negative. *)
Lemma Math_min_cap (x : number) (M : Q) :
  nonneg x = true -> (0 <= M)%Q ->
  exists d : Q, Math_min x (Fin M) = Fin d /\ (0 <= d)%Q /\ (d <= M)%Q.
Proof.
  intros [->|(p & -> & Hp)]%nonneg_cases HM.
  - exists M. split; [reflexivity|]. split; [exact HM | apply Qle_refl].
  - exists (Qmin p M). split; [apply Math_min_Fin|].
    split; [now apply Q.min_glb | apply Q.le_min_r].
Qed.

Lemma Math_min_mono (x y : number) (M : Q) :
  nonneg x = true -> leb x y = true ->
  exists d d' : Q,
    Math_min x (Fin M) = Fin d /\ Math_min y (Fin M) = Fin d' /\ (d <= d')%Q.
Proof.
  intros [->|(p & -> & Hp)]%nonneg_cases Hxy.
  - destruct y; try discriminate. exists M, M. repeat split. apply Qle_refl.
  - destruct y as [q| | |]; try discriminate.
    + exists (Qmin p M), (Qmin q M). rewrite !Math_min_Fin. repeat split.
      apply Q.min_le_compat_r. now apply Qle_bool_iff.
    + exists (Qmin p M), M. rewrite Math_min_Fin. repeat split.
      apply Q.le_min_r.
Qed.

(** *** The delay before the cap *)

Lemma Math_pow_nonneg (b : Q) (n : nat) :
  (0 < b)%Q -> nonneg (Math_pow (Fin b) n) = true.
Proof.
  intros Hb. rewrite Math_pow_Fin. apply to_double_nonneg.
  apply Qpower_0_le. now apply Qlt_le_weak.
Qed.

Lemma Math_pow_mono (b : Q) (n n' : nat) :
  (1 <= b)%Q -> (n <= n')%nat ->
  leb (Math_pow (Fin b) n) (Math_pow (Fin b) n') = true.
Proof.
  intros Hb Hn. rewrite !Math_pow_Fin. apply to_double_mono.
  - apply Qpower_0_le. lra.
  - apply Qpower_le_compat_l; [lia | exact Hb].
Qed.

Lemma linear_step_nonneg (b : Q) (n : nat) :
  (0 < b)%Q -> nonneg (mul (Fin b) (of_nat n)) = true.
Proof.
  intros Hb. apply mul_nonneg_Fin; [now apply Qlt_le_weak|].
  change 0%Q with (inject_Z 0). rewrite <- Zle_Qle. lia.
Qed.

Lemma linear_step_mono (b : Q) (n n' : nat) :
  (0 < b)%Q -> (n <= n')%nat ->
  leb (mul (Fin b) (of_nat n)) (mul (Fin b) (of_nat n')) = true.
Proof.
  intros Hb Hn. cbn [mul of_nat of_Z]. apply to_double_mono.
  - apply Qmult_le_0_compat; [now apply Qlt_le_weak|].
    change 0%Q with (inject_Z 0). rewrite <- Zle_Qle. lia.
  - apply Qmult_le_l; [exact Hb|]. rewrite <- Zle_Qle. lia.
Qed.

(** The first delay, for an [initialDelay] that is a binary64 value. *)
Lemma first_delay (c : RetryConfig) (i M : Q) (b : number) :
  initialDelay c = Fin i -> backoffMultiplier c = b -> maxDelay c = Fin M ->
  is_finite b = true -> is_double i -> (i <= M)%Q ->
  exists d0 : Q, calculateDelay 0 c = Fin d0 /\ (d0 == i)%Q.
Proof.
  intros Hi Hb HM Fb Di HiM. unfold calculateDelay. rewrite Hi, Hb, HM.
  destruct b as [b| | |]; try discriminate.
  assert (E : exists x, (x == i)%Q
                /\ (if strict_eq_lit (backoffType c) "exponential"
                    then mul (Fin i) (Math_pow (Fin b) 0)
                    else add (Fin i) (mul (Fin b) (of_nat 0))) = Fin x).
  { exists (Qred i). split; [apply Qred_correct|].
    destruct (strict_eq_lit (backoffType c) "exponential").
    - cbn [Math_pow mul]. rewrite <- Di. apply to_double_Qeq. ring.
    - cbn [mul of_nat of_Z]. rewrite (to_double_0 (b * inject_Z (Z.of_nat 0)))
        by (change (inject_Z (Z.of_nat 0)) with 0%Q; ring).
      cbn [add]. rewrite <- Di. apply to_double_Qeq. ring. }
  destruct E as (x & Hx & ->). rewrite Math_min_Fin.
  eexists. split; [reflexivity|]. rewrite Hx. apply Q.min_l. exact HiM.
Qed.

(** Under an accepted configuration with finite fields every delay lies
    between zero and [maxDelay]: always under linear backoff, and under
    exponential backoff as long as [initialDelay] is positive or the power
    [backoffMultiplier^n] has not overflowed.  With [initialDelay] zero and
    an overflowed power the delay is NaN.  The first delay is
    [initialDelay], when that is a binary64 value. *)
Theorem calculateDelay_bounds (config : value) (c : RetryConfig) (n : nat)
    (i b M : Q) :
  validateConfig config = true -> fields config = Some c ->
  initialDelay c = Fin i -> backoffMultiplier c = Fin b -> maxDelay c = Fin M ->
  ((backoffType c = VStr (lit "exponential") ->
    (0 < i)%Q \/ is_finite (Math_pow (Fin b) n) = true) ->
   exists d : Q, calculateDelay n c = Fin d /\ (0 <= d)%Q /\ (d <= M)%Q)
  /\ (backoffType c = VStr (lit "exponential") -> (i == 0)%Q ->
      is_finite (Math_pow (Fin b) n) = false ->
      calculateDelay n c = NaN)
  /\ (is_double i ->
      exists d0 : Q, calculateDelay 0 c = Fin d0 /\ (d0 == i)%Q).
Proof.
  intros Hv Hf Hi Hb HM.
  destruct (validateConfig_numeric config c Hv Hf) as (_ & Hi0 & HM0 & Hb0 & HMi).
  rewrite Hi in Hi0, HMi. rewrite HM in HM0, HMi. rewrite Hb in Hb0.
  apply ltb_Fin_false in Hi0, HM0, HMi. apply leb_Fin_false in Hb0.
  change (inject_Z 0) with 0%Q in *.
  pose proof (Math_pow_nonneg b n Hb0) as Hp.
  split; [|split].
  - intros Hexp. unfold calculateDelay. rewrite Hi, Hb, HM.
    apply Math_min_cap; [|exact HM0].
    destruct (strict_eq_lit (backoffType c) "exponential") eqn:E.
    + apply strict_eq_lit_true in E. destruct (Hexp E) as [Pi|Fp].
      * now apply mul_nonneg.
      * destruct (nonneg_cases _ Hp) as [Inf|(p & Ep & Hp0)];
          [rewrite Inf in Fp; discriminate|].
        rewrite Ep. now apply mul_nonneg_Fin.
    + apply add_nonneg; [exact Hi0|]. now apply linear_step_nonneg.
  - intros E Zi Fp. unfold calculateDelay. rewrite Hi, Hb, HM.
    apply strict_eq_lit_true in E. rewrite E.
    destruct (nonneg_cases _ Hp) as [Inf|(p & Ep & _)];
      [|rewrite Ep in Fp; discriminate].
    rewrite Inf. cbn [mul]. unfold scale_inf.
    apply Qeq_alt in Zi. now rewrite Zi.
  - intros Di. now apply (first_delay c i M (Fin b)).
Qed.

(** Delays never shrink from one attempt to the next under linear backoff,
    nor under exponential backoff when the multiplier is at least 1 and
    [initialDelay] is positive. *)
Theorem calculateDelay_monotone (config : value) (c : RetryConfig)
    (n n' : nat) (i b M : Q) :
  validateConfig config = true -> fields config = Some c ->
  initialDelay c = Fin i -> backoffMultiplier c = Fin b -> maxDelay c = Fin M ->
  (backoffType c = VStr (lit "exponential") -> (1 <= b)%Q /\ (0 < i)%Q) ->
  (n <= n')%nat ->
  exists d d' : Q,
    calculateDelay n c = Fin d /\ calculateDelay n' c = Fin d' /\ (d <= d')%Q.
Proof.
  intros Hv Hf Hi Hb HM Hexp Hn.
  destruct (validateConfig_numeric config c Hv Hf) as (_ & Hi0 & _ & Hb0 & _).
  rewrite Hi in Hi0. rewrite Hb in Hb0.
  apply ltb_Fin_false in Hi0. apply leb_Fin_false in Hb0.
  change (inject_Z 0) with 0%Q in *.
  unfold calculateDelay. rewrite Hi, Hb, HM.
  destruct (strict_eq_lit (backoffType c) "exponential") eqn:E.
  - apply strict_eq_lit_true in E. destruct (Hexp E) as [Hone Pi].
    apply Math_min_mono.
    + apply mul_nonneg; [exact Pi | now apply Math_pow_nonneg].
    + apply mul_mono; [exact Pi | now apply Math_pow_nonneg
                       | now apply Math_pow_mono].
  - apply Math_min_mono.
    + apply add_nonneg; [exact Hi0 | now apply linear_step_nonneg].
    + apply add_mono; [exact Hi0 | now apply linear_step_nonneg
                       | now apply linear_step_mono].
Qed.

Lemma calculateDelay_bounds_witness :
  (exists d : Q,
     calculateDelay 3 RETRY_CONFIG_portal = Fin d /\ (0 <= d)%Q /\ (d <= 2000)%Q)
  /\ calculateDelay 309 Samples.zero_start = NaN
  /\ (exists d0 : Q,
        calculateDelay 0 RETRY_CONFIG_portal = Fin d0 /\ (d0 == 200)%Q).
Proof.
  destruct (calculateDelay_bounds (to_object RETRY_CONFIG_portal)
              RETRY_CONFIG_portal 3 200 2 2000
              eq_refl eq_refl eq_refl eq_refl eq_refl) as (Hin & _ & Hfirst).
  destruct (calculateDelay_bounds (to_object Samples.zero_start)
              Samples.zero_start 309 0 10 1000
              eq_refl eq_refl eq_refl eq_refl eq_refl) as (_ & Hnan & _).
  split; [|split].
  - apply Hin. intros _. left. reflexivity.
  - apply Hnan; reflexivity.
  - apply Hfirst. reflexivity.
Defined.

Lemma calculateDelay_monotone_witness :
  exists d d' : Q,
    calculateDelay 1 RETRY_CONFIG_portal = Fin d
    /\ calculateDelay 4 RETRY_CONFIG_portal = Fin d' /\ (d <= d')%Q.
Proof.
  apply (calculateDelay_monotone (to_object RETRY_CONFIG_portal)
           RETRY_CONFIG_portal 1 4 200 2 2000);
    try reflexivity; [intros _; split; [discriminate | reflexivity] | lia].
Defined.

Lemma validateConfig_nan_free_witness :
  nan_free (to_object RETRY_CONFIG_portal) = true
  /\ validateConfig (to_object RETRY_CONFIG_portal)
     = valid_config (to_object RETRY_CONFIG_portal).
Proof.
  split; [reflexivity|].
  apply (validateConfig_nan_free (to_object RETRY_CONFIG_portal)). reflexivity.
Defined.

End DelayFacts.

(** ** More on the retry executor: any probe, and the waits *)

Section RunFacts.

Import Retry Spec Notions.

Context {World : Type}.
Variable fn : World -> outcome * World.
Variable setTimeout : number -> World -> World.

Local Abbreviation state := (@state World).
Local Abbreviation attempts := (attempts fn setTimeout).
Local Abbreviation retryWithBackoff := (retryWithBackoff fn setTimeout).
Local Abbreviation outcome_at := (outcome_at fn setTimeout).
Local Abbreviation world_at := (world_at fn setTimeout).

Lemma keep_falsy_falsy (os : list outcome) (last : value) :
  Forall (fun o => failed o = true) os -> truthy last = false ->
  truthy (foldl keep_falsy last os) = false.
Proof.
  revert last. induction os as [|o os IH]; intros last Hall Hlast; [exact Hlast|].
  inversion Hall as [|? ? Ho Hos]; subst. cbn [foldl]. apply IH; [exact Hos|].
  destruct o as [v|e]; cbn in *; [now apply negb_true_iff in Ho | exact Hlast].
Qed.

(** Every run of the loop under a bound that is not [Infinity]: the calls
    it makes, the waits between them, and how it ends. *)
Lemma attempts_run (c : RetryConfig) (n : nat) :
  rounds (maxAttempts c) = Some n ->
  forall (d a : nat) (last : value) (s : state) (fuel : nat),
    (n <= a + d)%nat -> (d < fuel)%nat ->
    exists (v : value) (s' : state) (os : list outcome),
      attempts fuel c a last s = Some (inl (v, s'))
      /\ calls (trace s') = calls (trace s) ++ os
      /\ delays (trace s')
         = delays (trace s)
           ++ ((fun i => calculateDelay i c) <$> seq a (length os - 1))
      /\ ((exists pre : list outcome,
             os = pre ++ [Returns v] /\ truthy v = true
             /\ Forall (fun o => failed o = true) pre
             /\ (a + length pre < n)%nat)
          \/ (length os = (n - a)%nat
              /\ Forall (fun o => failed o = true) os
              /\ v = foldl keep_falsy last os)).
Proof.
  intros Hr.
  assert (Hexit : forall a last (s : state) fuel, (n <= a)%nat ->
            exists (v : value) (s' : state) (os : list outcome),
              attempts (S fuel) c a last s = Some (inl (v, s'))
              /\ calls (trace s') = calls (trace s) ++ os
              /\ delays (trace s')
                 = delays (trace s)
                   ++ ((fun i => calculateDelay i c) <$> seq a (length os - 1))
              /\ ((exists pre : list outcome,
                     os = pre ++ [Returns v] /\ truthy v = true
                     /\ Forall (fun o => failed o = true) pre
                     /\ (a + length pre < n)%nat)
                  \/ (length os = (n - a)%nat
                      /\ Forall (fun o => failed o = true) os
                      /\ v = foldl keep_falsy last os))).
  { intros a last s fuel Ha. cbn [Retry.attempts].
    rewrite (loop_test _ n a Hr), bool_decide_eq_false_2 by lia.
    unfold bind, console, ret; cbn [world trace].
    exists last, {| world := world s;
                    trace := trace s ++ [Warn_exhausted (maxAttempts c)] |}, [].
    split; [reflexivity|]. cbn [trace]. rewrite calls_snoc, delays_snoc. cbn.
    rewrite !app_nil_r. repeat split; try reflexivity.
    right. repeat split; [lia | constructor]. }
  induction d as [|d IH]; intros a last s fuel Had Hfuel;
    (destruct fuel as [|fuel]; [lia|]).
  - apply Hexit. lia.
  - destruct (decide (n <= a)%nat) as [Hge|Hlt]; [now apply Hexit|].
    cbn [Retry.attempts].
    rewrite (loop_test _ n a Hr), bool_decide_eq_true_2 by lia.
    destruct (failed (fn (world s)).1) eqn:Hf.
    + destruct (attempt_body_failed fn setTimeout c a last s Hf)
        as (s1 & E & _ & Hc1 & Hd1).
      unfold bind at 1. rewrite E.
      rewrite (pause_test c n a Hr) in Hd1.
      destruct (IH (S a) (keep_falsy last (fn (world s)).1) s1 fuel)
        as (v & s' & os & E' & Hc' & Hd' & Hend); try lia.
      exists v, s', ((fn (world s)).1 :: os).
      split; [exact E'|]. split; [now rewrite Hc', Hc1, <- app_assoc|].
      assert (Hlen : (os = [] /\ ~ (S a < n)%nat)
                     \/ (exists k, length os = S k /\ (S a < n)%nat)).
      { destruct Hend as [(pre & -> & _ & _ & Hlt')|(Hlen & _ & _)].
        - right. exists (length pre). rewrite length_app. cbn. lia.
        - destruct os as [|o os']; [left; split; [reflexivity|cbn in Hlen; lia]|].
          right. exists (length os'). cbn in *. lia. }
      split.
      * rewrite Hd', Hd1, <- app_assoc. f_equal.
        destruct Hlen as [[-> Hn]|(k & Hk & Hn)].
        -- rewrite bool_decide_eq_false_2 by exact Hn. reflexivity.
        -- rewrite bool_decide_eq_true_2 by exact Hn. cbn [length].
           rewrite Hk. cbn. now rewrite Nat.sub_0_r.
      * destruct Hend as [(pre & -> & Hv & Hpre & Hlt')|(Hlen' & Hall & ->)].
        -- left. exists ((fn (world s)).1 :: pre). repeat split; try assumption.
           ++ now constructor.
           ++ cbn. lia.
        -- right. repeat split.
           ++ cbn. lia.
           ++ now constructor.
    + destruct (fn (world s)).1 as [v|e] eqn:Ho; [|discriminate].
      cbn in Hf. apply negb_false_iff in Hf.
      destruct (attempt_body_success fn setTimeout c a last v s Ho Hf)
        as (s' & E & Hc & Hd).
      unfold bind. rewrite E. unfold ret.
      exists v, s', [Returns v]. split; [reflexivity|]. split; [exact Hc|].
      split; [cbn; now rewrite app_nil_r|].
      left. exists []. split; [reflexivity|]. split; [exact Hf|].
      split; [constructor | cbn; lia].
Qed.

(** Whatever the probe does, under an accepted configuration whose loop can
    go round [n] times the executor ends, invokes the probe at most [n]
    times, and either returns the truthy value of the last invocation, all
    earlier ones having failed, or has made [n] invocations that all failed
    and returns the falsy value returned last.  Its result is truthy
    exactly in the first case. *)
Theorem retryWithBackoff_any_probe (config : value) (c : RetryConfig) (n : nat)
    (w : World) (fuel : nat) :
  validateConfig config = true -> fields config = Some c ->
  rounds (maxAttempts c) = Some n ->
  (n < fuel)%nat ->
  exists (v : value) (s' : state),
    retryWithBackoff fuel config (start w) = Some (inl (v, s'))
    /\ (length (calls (trace s')) <= n)%nat
    /\ ((truthy v = true
         /\ exists pre : list outcome,
              calls (trace s') = pre ++ [Returns v]
              /\ Forall (fun o => failed o = true) pre)
        \/ (truthy v = false
            /\ length (calls (trace s')) = n
            /\ Forall (fun o => failed o = true) (calls (trace s'))
            /\ v = last_falsy (calls (trace s')))).
Proof.
  intros Hv Hf Hr Hfuel.
  rewrite (retryWithBackoff_accepted fn setTimeout _ _ _ _
             (accepted_Some config c Hv Hf)).
  destruct (attempts_run c n Hr n 0%nat VNull (start w) fuel)
    as (v & s' & os & E & Hc & _ & Hend); try lia.
  change (calls (trace (start w))) with (@nil outcome) in Hc.
  cbn [app] in Hc.
  exists v, s'. split; [exact E|]. rewrite Hc.
  destruct Hend as [(pre & -> & Htr & Hpre & Hlt)|(Hlen & Hall & ->)].
  - split; [rewrite length_app; cbn [length]; cbn in Hlt; lia|]. left. eauto.
  - split; [lia|]. right. repeat split; try assumption; try lia.
    now apply keep_falsy_falsy.
Qed.

(** *** Invocations and waits in program order *)

Lemma steps_snoc (tr : list event) (e : event) :
  steps (tr ++ [e]) = steps tr ++ steps [e].
Proof. unfold steps. apply omap_app. Qed.

(** The wait after a failed attempt is taken exactly when the loop goes
    round once more. *)
Lemma pause_next (c : RetryConfig) (a : nat) :
  pause c a = ltb (of_nat (S a)) (maxAttempts c).
Proof.
  unfold pause. destruct (maxAttempts c) as [q| | |]; try reflexivity.
  change (sub (Fin q) one) with (Fin (q + - inject_Z 1)).
  apply eq_true_iff_eq. unfold of_nat, of_Z. cbn [ltb].
  rewrite !Qlt_bool_iff, Nat2Z.inj_succ. unfold Z.succ.
  rewrite inject_Z_plus. split; intros H; lra.
Qed.

(** One pass through the loop body: the probe is invoked once; a wait
    follows when the pass goes on to the next one and [pause] holds. *)
Lemma attempt_body_steps (c : RetryConfig) (a : nat) (last : value) (s : state) :
  exists (p : pass) (s' : state),
    attempt_body fn setTimeout c a last s = Some (inl (p, s'))
    /\ calls (trace s') = calls (trace s) ++ [(fn (world s)).1]
    /\ steps (trace s')
       = steps (trace s)
         ++ Call (fn (world s)).1
            :: match p with
               | Return_ _ => []
               | Next _ => if pause c a then [Wait (calculateDelay a c)] else []
               end.
Proof.
  unfold attempt_body, try_catch, bind, console, await_fn, sleep, ret, pause.
  cbn [world trace]. destruct (fn (world s)) as [[v|e] w1]; cbn [fst snd].
  - destruct (truthy v);
      [|destruct (ltb (of_nat a) (sub (maxAttempts c) one))];
      cbn [world trace]; eexists _, _; (split; [reflexivity|]);
      cbn [world trace]; rewrite ?calls_snoc, ?steps_snoc; cbn;
      rewrite ?app_nil_r, <- ?app_assoc; split; reflexivity.
  - destruct (ltb (of_nat a) (sub (maxAttempts c) one));
      cbn [world trace]; eexists _, _; (split; [reflexivity|]);
      cbn [world trace]; rewrite ?calls_snoc, ?steps_snoc; cbn;
      rewrite ?app_nil_r, <- ?app_assoc; split; reflexivity.
Qed.

(** Every run of the loop that ends, whatever the bound and the probe: the
    invocations alternate with the waits, and no wait follows the last
    invocation. *)
Lemma attempts_steps (c : RetryConfig) :
  forall (fuel a : nat) (last : value) (s : state) (v : value) (s' : state),
    attempts fuel c a last s = Some (inl (v, s')) ->
    exists os : list outcome,
      calls (trace s') = calls (trace s) ++ os
      /\ steps (trace s') = steps (trace s) ++ alternating c a os
      /\ (os = [] <-> ltb (of_nat a) (maxAttempts c) = false).
Proof.
  induction fuel as [|fuel IH]; intros a last s v s' E; [discriminate|].
  cbn [Retry.attempts] in E.
  destruct (ltb (of_nat a) (maxAttempts c)) eqn:T.
  - destruct (attempt_body_steps c a last s) as (p & s1 & Eb & Hc1 & Hs1).
    unfold bind at 1 in E. rewrite Eb in E. destruct p as [r|l].
    + unfold ret in E. injection E as <- <-.
      exists [(fn (world s)).1]. split; [exact Hc1|]. split; [exact Hs1|].
      split; discriminate.
    + destruct (IH (S a) l s1 v s' E) as (os & Hc & Hs & Hos).
      exists ((fn (world s)).1 :: os).
      split; [now rewrite Hc, Hc1, <- app_assoc|].
      split; [|split; discriminate].
      rewrite Hs, Hs1, <- app_assoc. f_equal. cbn [app alternating]. f_equal.
      rewrite pause_next. destruct os as [|o os].
      * now rewrite (proj1 Hos eq_refl).
      * destruct (ltb (of_nat (S a)) (maxAttempts c)); [reflexivity|].
        discriminate (proj2 Hos eq_refl).
  - unfold bind, console, ret in E; cbn [world trace] in E.
    injection E as <- <-. exists []. cbn [trace].
    rewrite calls_snoc, steps_snoc. cbn. rewrite !app_nil_r.
    repeat split; reflexivity.
Qed.

(** The executor runs the loop under the effective configuration, after
    the warning when the caller's configuration was rejected. *)
Lemma retryWithBackoff_effective (fuel : nat) (config : value) (w : World) :
  retryWithBackoff fuel config (start w)
  = attempts fuel (effective config) 0 VNull
      {| world := w;
         trace := if validateConfig config then [] else [Warn_invalid_config] |}.
Proof.
  unfold Retry.retryWithBackoff, effective.
  destruct (validateConfig config) eqn:V.
  - destruct (validateConfig_fields config V) as [c Hc].
    rewrite (accepted_Some config c V Hc). reflexivity.
  - apply accepted_None in V. rewrite V. reflexivity.
Qed.

Lemma run_steps (fuel : nat) (config : value) (w : World) (v : value)
    (s' : state) :
  retryWithBackoff fuel config (start w) = Some (inl (v, s')) ->
  steps (trace s') = alternating (effective config) 0 (calls (trace s')).
Proof.
  rewrite retryWithBackoff_effective. intros E.
  destruct (attempts_steps _ _ _ _ _ _ _ E) as (os & Hc & Hs & _).
  cbn [trace] in Hc, Hs. rewrite Hs, Hc.
  now destruct (validateConfig config).
Qed.

(** In every run of the executor that ends, under the caller's
    configuration or under the preset that replaces a rejected one, the
    invocations of the probe and the timer waits alternate in the trace:
    exactly one wait between two consecutive invocations, none before the
    first and none after the last, and the wait that follows the invocation
    number [i] (from 0) lasts [calculateDelay(i, config)], after a falsy
    return and after a raised error alike.  Under a bound that is not
    [Infinity] the run does end. *)
Theorem retryWithBackoff_waits (config : value) (w : World) (fuel : nat) :
  (forall (v : value) (s' : state),
     retryWithBackoff fuel config (start w) = Some (inl (v, s')) ->
     steps (trace s') = alternating (effective config) 0 (calls (trace s')))
  /\ (forall n : nat,
        rounds (maxAttempts (effective config)) = Some n -> (n < fuel)%nat ->
        exists (v : value) (s' : state),
          retryWithBackoff fuel config (start w) = Some (inl (v, s'))
          /\ steps (trace s')
             = alternating (effective config) 0 (calls (trace s'))).
Proof.
  split; [intros v s'; apply run_steps|].
  intros n Hr Hfuel.
  destruct (attempts_terminate fn setTimeout (effective config) n Hr n 0%nat VNull
              {| world := w;
                 trace := if validateConfig config then []
                          else [Warn_invalid_config] |} fuel)
    as (v & s' & E); try lia.
  rewrite <- retryWithBackoff_effective in E.
  exists v, s'. split; [exact E|]. now apply (run_steps fuel config w v).
Qed.

(** With [maxAttempts] set to [Infinity], which the validator accepts, a
    probe that keeps failing is retried for ever: the executor never
    returns. *)
Theorem retryWithBackoff_unbounded (config : value) (c : RetryConfig)
    (w : World) :
  validateConfig config = true -> fields config = Some c ->
  maxAttempts c = PosInf ->
  (forall i, failed (outcome_at c w i) = true) ->
  forall fuel, retryWithBackoff fuel config (start w) = None.
Proof.
  intros Hv Hf Hm Hfail fuel.
  rewrite (retryWithBackoff_accepted fn setTimeout _ _ _ _
             (accepted_Some config c Hv Hf)).
  assert (H : forall fuel a last (s : state),
            world s = world_at c a w -> attempts fuel c a last s = None).
  { clear fuel. induction fuel as [|fuel IH]; intros a last s Hs; [reflexivity|].
    cbn [Retry.attempts]. rewrite Hm. cbn [ltb of_nat of_Z].
    assert (Hf' : failed (fn (world s)).1 = true) by (rewrite Hs; apply Hfail).
    destruct (attempt_body_failed fn setTimeout c a last s Hf')
      as (s1 & E & Hw1 & _).
    unfold bind. rewrite E. apply IH.
    rewrite Hw1. unfold pause. rewrite Hm. cbn. now rewrite Hs. }
  now apply H.
Qed.

(** *** The run under the preset that replaces a rejected configuration *)

Lemma portal_waits (k : nat) :
  (k <= 4)%nat ->
  (fun i => calculateDelay i RETRY_CONFIG_portal) <$> seq 0 k
  = take k (of_Z <$> [200; 400; 800; 1600]).
Proof.
  intros Hk. destruct k as [|[|[|[|[|k]]]]]; [reflexivity..|lia].
Qed.

(** C6.  On a configuration the validator rejects the executor first
    warns and then runs the retry sequence under the portal preset, which
    itself validates.  The run is the preset's run preceded by the warning,
    and no error reaches the caller.  Whatever the probe does, the run ends after
    between one and five invocations, separated by waits of 200, 400, 800
    and 1600 ms, and either returns the truthy value of the last invocation,
    all earlier ones having failed, or has made five invocations that all
    failed and returns the falsy value returned last.  Against the schedule
    of the preset: a probe whose first five invocations fail is invoked
    exactly five times, and one that first succeeds on its [k]-th
    invocation, [k <= 5], is invoked exactly [k] times and its value is
    returned. *)
Theorem invalid_config_fallback (config : value) (w : World) (fuel : nat) :
  validateConfig config = false ->
  retryWithBackoff fuel config (start w)
  = after_events [Warn_invalid_config]
      (retryWithBackoff fuel (to_object RETRY_CONFIG_portal) (start w))
  /\ accepted (to_object RETRY_CONFIG_portal) = Some RETRY_CONFIG_portal
  /\ (forall e s', retryWithBackoff fuel config (start w) <> Some (inr (e, s')))
  /\ ((5 < fuel)%nat ->
      exists (v : value) (s' : state),
        retryWithBackoff fuel config (start w) = Some (inl (v, s'))
        /\ head (trace s') = Some Warn_invalid_config
        /\ (1 <= length (calls (trace s')) <= 5)%nat
        /\ steps (trace s')
           = alternating RETRY_CONFIG_portal 0 (calls (trace s'))
        /\ delays (trace s')
           = take (length (calls (trace s')) - 1)
               (of_Z <$> [200; 400; 800; 1600])
        /\ ((truthy v = true
             /\ exists pre : list outcome,
                  calls (trace s') = pre ++ [Returns v]
                  /\ Forall (fun o => failed o = true) pre)
            \/ (truthy v = false
                /\ length (calls (trace s')) = 5%nat
                /\ Forall (fun o => failed o = true) (calls (trace s'))
                /\ v = last_falsy (calls (trace s')))))
  /\ ((forall i, (i < 5)%nat ->
         failed (outcome_at RETRY_CONFIG_portal w i) = true) ->
      (5 < fuel)%nat ->
      exists s' : state,
        retryWithBackoff fuel config (start w)
        = Some (inl (last_falsy (outcomes fn setTimeout RETRY_CONFIG_portal w 5), s'))
        /\ calls (trace s') = outcomes fn setTimeout RETRY_CONFIG_portal w 5
        /\ delays (trace s') = of_Z <$> [200; 400; 800; 1600])
  /\ (forall (k : nat) (v : value),
        (1 <= k <= 5)%nat ->
        (forall i, (i < k - 1)%nat ->
           failed (outcome_at RETRY_CONFIG_portal w i) = true) ->
        outcome_at RETRY_CONFIG_portal w (k - 1) = Returns v ->
        truthy v = true ->
        (k <= fuel)%nat ->
        exists s' : state,
          retryWithBackoff fuel config (start w) = Some (inl (v, s'))
          /\ calls (trace s') = outcomes fn setTimeout RETRY_CONFIG_portal w k).
Proof.
  intros Hinv.
  assert (Hrun : retryWithBackoff fuel config (start w)
                 = attempts fuel RETRY_CONFIG_portal 0 VNull
                     {| world := w; trace := [Warn_invalid_config] |}).
  { rewrite retryWithBackoff_effective, Hinv. unfold effective.
    apply accepted_None in Hinv. now rewrite Hinv. }
  assert (Heq : retryWithBackoff fuel config (start w)
                = after_events [Warn_invalid_config]
                    (retryWithBackoff fuel (to_object RETRY_CONFIG_portal)
                       (start w))).
  { rewrite Hrun.
    rewrite (retryWithBackoff_accepted fn setTimeout fuel
               (to_object RETRY_CONFIG_portal) RETRY_CONFIG_portal (start w)
               eq_refl).
    apply (framed_attempts fn setTimeout fuel RETRY_CONFIG_portal 0%nat VNull w
             [Warn_invalid_config] []). }
  split; [exact Heq|].
  split; [reflexivity|]. split; [apply no_throw_retryWithBackoff|].
  split; [|split].
  - intros Hfuel.
    destruct (attempts_run RETRY_CONFIG_portal 5 eq_refl 5 0%nat VNull
                {| world := w; trace := [Warn_invalid_config] |} fuel)
      as (v & s' & os & E & Hc & Hd & Hend); try lia.
    cbn [trace] in Hc, Hd.
    change (calls [Warn_invalid_config]) with (@nil outcome) in Hc.
    change (delays [Warn_invalid_config]) with (@nil number) in Hd.
    cbn [app] in Hc, Hd.
    rewrite <- Hrun in E. exists v, s'. split; [exact E|].
    assert (Hlen : (1 <= length os <= 5)%nat).
    { destruct Hend as [(pre & -> & _ & _ & Hlt)|(Hlen & _ & _)].
      - rewrite length_app. cbn [length]. cbn in Hlt. lia.
      - lia. }
    split.
    { pose proof E as E'. rewrite Heq in E'.
      destruct (retryWithBackoff fuel (to_object RETRY_CONFIG_portal) (start w))
        as [[[a s0]|[e s0]]|]; cbn in E'; try discriminate.
      now injection E' as _ <-. }
    rewrite Hc. split; [exact Hlen|].
    split.
    { rewrite <- Hc. replace RETRY_CONFIG_portal with (effective config) at 1.
      - now apply (run_steps fuel config w v).
      - unfold effective. apply accepted_None in Hinv. now rewrite Hinv. }
    split; [rewrite Hd; apply portal_waits; lia|].
    destruct Hend as [(pre & -> & Htr & Hpre & Hlt)|(Hlen' & Hall & ->)].
    + left. eauto.
    + right. repeat split; try assumption.
      now apply keep_falsy_falsy.
  - intros Hfail Hfuel. rewrite Hrun.
    destruct (attempts_all_failed fn setTimeout RETRY_CONFIG_portal w 5 eq_refl
                5 0%nat VNull {| world := w; trace := [Warn_invalid_config] |}
                fuel) as (s' & E & Hc & Hd); try lia; try reflexivity.
    + intros i Hi. apply Hfail. lia.
    + exists s'. split; [exact E|]. split; [exact Hc|]. exact Hd.
  - intros k v Hk Hfail Hok Htruthy Hfuel. rewrite Hrun.
    destruct (attempts_first_success fn setTimeout RETRY_CONFIG_portal w 5
                (k - 1) v eq_refl ltac:(lia) Hok Htruthy
                (k - 1)%nat 0%nat VNull
                {| world := w; trace := [Warn_invalid_config] |} fuel)
      as (s' & E & Hc); try lia; try reflexivity.
    + intros i Hi. apply Hfail. lia.
    + exists s'. split; [exact E|].
      cbn [trace] in Hc. replace (S (k - 1)) with k in Hc by lia. exact Hc.
Qed.

End RunFacts.

Section RunWitnesses.

Import Retry Spec Samples Notions.

Lemma retryWithBackoff_any_probe_witness :
  exists (v : value) s',
    retryWithBackoff third_time_lucky idle 6 (to_object RETRY_CONFIG_portal)
      (start 0%nat)
    = Some (inl (v, s'))
    /\ (length (calls (trace s')) <= 5)%nat
    /\ ((truthy v = true
         /\ exists pre : list outcome,
              calls (trace s') = pre ++ [Returns v]
              /\ Forall (fun o => failed o = true) pre)
        \/ (truthy v = false
            /\ length (calls (trace s')) = 5%nat
            /\ Forall (fun o => failed o = true) (calls (trace s'))
            /\ v = last_falsy (calls (trace s')))).
Proof.
  apply (retryWithBackoff_any_probe third_time_lucky idle
           (to_object RETRY_CONFIG_portal) RETRY_CONFIG_portal 5 0%nat 6);
    [reflexivity | reflexivity | reflexivity | lia].
Defined.

Lemma retryWithBackoff_waits_witness :
  exists (v : value) s',
    retryWithBackoff null_then_error idle 6 VNull (start 0%nat)
    = Some (inl (v, s'))
    /\ steps (trace s')
       = [Call (Returns VNull); Wait (of_Z 200);
          Call (Throws (VStr (lit "boom"))); Wait (of_Z 400);
          Call (Returns data_x)].
Proof.
  destruct (retryWithBackoff_waits null_then_error idle VNull 0%nat 6)
    as [_ H].
  destruct (H 5%nat eq_refl ltac:(lia)) as (v & s' & E & Hs).
  exists v, s'. split; [exact E|]. rewrite Hs.
  injection E as _ <-. reflexivity.
Defined.

Lemma invalid_config_fallback_witness :
  validateConfig VNull = false
  /\ retryWithBackoff always_null idle 6 VNull (start 0%nat)
     = after_events [Warn_invalid_config]
         (retryWithBackoff always_null idle 6 (to_object RETRY_CONFIG_portal)
            (start 0%nat))
  /\ exists s',
       retryWithBackoff always_null idle 6 VNull (start 0%nat)
       = Some (inl (VNull, s'))
       /\ length (calls (trace s')) = 5%nat
       /\ delays (trace s') = of_Z <$> [200; 400; 800; 1600].
Proof.
  split; [reflexivity|].
  destruct (invalid_config_fallback always_null idle VNull 0%nat 6 eq_refl)
    as (Heq & _ & _ & _ & Hall & _).
  split; [exact Heq|].
  destruct Hall as (s' & E & Hc & Hd); [|lia|].
  - intros i Hi. destruct i as [|[|[|[|[|i]]]]]; [reflexivity..|lia].
  - exists s'. split; [exact E|]. split; [now rewrite Hc|exact Hd].
Defined.

Lemma retryWithBackoff_unbounded_witness :
  validateConfig (to_object unbounded) = true
  /\ retryWithBackoff always_null idle 1000 (to_object unbounded) (start 0%nat)
     = None.
Proof.
  split; [reflexivity|].
  apply (retryWithBackoff_unbounded always_null idle (to_object unbounded)
           unbounded 0%nat); try reflexivity.
Defined.

End RunWitnesses.

(** ** More on the element poller: when it gives up *)

Section PollerBound.

Import Retry Poller Notions.

Context {World : Type}.
Variable Date_now : World -> number.
Variable querySelector : jsstring -> World -> outcome.
Variable setTimeout : Z -> World -> World.

(** The clock read by [Date.now()], and timers that never fire early. *)
Variable time : World -> Z.
Hypothesis Date_now_time : forall w, Date_now w = of_Z (time w).
Hypothesis timer_not_early :
  forall delay w, time w + delay <= time (setTimeout delay w).

Local Abbreviation check := (check Date_now querySelector setTimeout).
Local Abbreviation waitForElement :=
  (waitForElement Date_now querySelector setTimeout).

Lemma queries_snoc (tr : list event) (e : event) :
  queries (tr ++ [e]) = (queries tr + queries [e])%nat.
Proof. unfold queries. now rewrite List.filter_app, length_app. Qed.

Lemma elapsed_reaches (q : Q) (t0 t : Z) :
  Qceiling q <= t - t0 ->
  geb (sub (of_Z t) (of_Z t0)) (Fin q) = true.
Proof.
  intros H. cbn. apply Qle_bool_iff.
  apply Qle_trans with (inject_Z (Qceiling q)); [apply Qle_ceiling|].
  apply Qle_trans with (inject_Z (t - t0)); [now rewrite <- Zle_Qle|].
  unfold Z.sub. rewrite inject_Z_plus, inject_Z_opp. apply Qle_refl.
Qed.

Lemma max_polls_enough (q : Q) :
  Qceiling q
  <= elementPolling_pollInterval * Z.of_nat (Nat.pred (max_polls q)).
Proof.
  unfold max_polls, elementPolling_pollInterval. cbn [Nat.pred].
  destruct (Z.le_gt_cases (Qceiling q) 0) as [Hle|Hgt].
  - lia.
  - pose proof (Z.div_mod (Qceiling q + 99) 100 ltac:(lia)) as Hdm.
    pose proof (Z.mod_pos_bound (Qceiling q + 99) 100 ltac:(lia)) as Hmod.
    assert (0 <= (Qceiling q + 99) / 100) by (apply Z.div_pos; lia).
    rewrite Z2Nat.id by assumption. lia.
Qed.

(** From poll number [i] on, at most [k + 1] more polls are made when the
    timeout is reached by poll number [i + k] at the latest. *)
Lemma check_settles (selector : jsstring) (q : Q) (t0 : Z) :
  forall (k : nat) (first : bool) (w : World) (tr : list event) (fuel : nat),
    Qceiling q <= time w - t0 + elementPolling_pollInterval * Z.of_nat k ->
    (k < fuel)%nat ->
    exists (p : promise) (w' : World) (tr' : list event),
      check fuel first selector (Fin q) (of_Z t0) w tr = Some (p, w', tr')
      /\ (queries tr' <= queries tr + S k)%nat.
Proof.
  induction k as [|k IH]; intros first w tr fuel Hq Hfuel;
    (destruct fuel as [|fuel]; [lia|]); cbn [Poller.check];
    destruct (querySelector selector w) as [el|e].
  - destruct (truthy el).
    + eexists _, _, _. split; [reflexivity|].
      rewrite !queries_snoc. cbn. lia.
    + rewrite Date_now_time, elapsed_reaches by lia.
      eexists _, _, _. split; [reflexivity|].
      rewrite !queries_snoc. cbn. lia.
  - eexists _, _, _. split; [reflexivity|]. rewrite !queries_snoc. cbn. lia.
  - destruct (truthy el).
    + eexists _, _, _. split; [reflexivity|].
      rewrite !queries_snoc. cbn. lia.
    + destruct (geb (sub (Date_now w) (of_Z t0)) (Fin q)).
      * eexists _, _, _. split; [reflexivity|].
        rewrite !queries_snoc. cbn. lia.
      * destruct (IH false (setTimeout elementPolling_pollInterval w)
                    ((tr ++ [Queried selector (Returns el)])
                       ++ [Timer elementPolling_pollInterval]) fuel)
          as (p & w' & tr' & E & Hcount); [|lia|].
        -- pose proof (timer_not_early elementPolling_pollInterval w). lia.
        -- exists p, w', tr'. split; [exact E|].
           rewrite !queries_snoc in Hcount. cbn in Hcount. lia.
  - eexists _, _, _. split; [reflexivity|]. rewrite !queries_snoc. cbn. lia.
Qed.

(** With a finite timeout and timers that never fire early, polling always
    comes to an end, after at most [max_polls] queries: about one per
    polling interval until the timeout has elapsed. *)
Theorem waitForElement_settles (selector : jsstring) (timeout : option number)
    (q : Q) (w : World) (fuel : nat) :
  default (of_Z elementPolling_timeout) timeout = Fin q ->
  (max_polls q <= fuel)%nat ->
  exists (p : promise) (w' : World) (tr : list event),
    waitForElement fuel selector timeout w = Some (p, w', tr)
    /\ (queries tr <= max_polls q)%nat.
Proof.
  intros Hto Hfuel. unfold Poller.waitForElement. rewrite Hto, Date_now_time.
  destruct (check_settles selector q (time w) (Nat.pred (max_polls q)) true w []
              fuel) as (p & w' & tr & E & Hcount).
  - pose proof (max_polls_enough q). lia.
  - unfold max_polls in *. cbn [Nat.pred]. lia.
  - exists p, w', tr. split; [exact E|].
    unfold max_polls in *. cbn [Nat.pred] in Hcount. cbn in Hcount. lia.
Qed.

End PollerBound.

Section PollerForever.

Import Retry Poller Notions.

Context {World : Type}.
Variable Date_now : World -> number.
Variable querySelector : jsstring -> World -> outcome.
Variable setTimeout : Z -> World -> World.

(** With a timeout of NaN the test [elapsed >= timeout] never holds: while
    the query finds nothing, and does not raise, polling never ends. *)
Theorem waitForElement_NaN_timeout (selector : jsstring) (w : World) :
  (forall i, exists el,
      querySelector selector (page_at setTimeout i w) = Returns el
      /\ truthy el = false) ->
  forall fuel,
    waitForElement Date_now querySelector setTimeout fuel selector (Some NaN) w
    = None.
Proof.
  intros Hq fuel. unfold Poller.waitForElement.
  change (default (of_Z elementPolling_timeout) (Some NaN)) with NaN.
  destruct (check_keeps_polling Date_now querySelector setTimeout selector NaN
              (Date_now w) fuel 0 true w []) as [tr' E].
  - intros i _. unfold keeps_polling. destruct (Hq i) as (el & -> & ->).
    destruct (sub _ _); reflexivity.
  - rewrite Nat.add_0_r in E. rewrite E. reflexivity.
Qed.

End PollerForever.

Section PollerBoundRuns.

Import Retry Poller Samples Notions.

Lemma page_at_elements (i : nat) (p : page) :
  elements (page_at page_timer i p) = elements p.
Proof. induction i as [|i IH]; [reflexivity | exact IH]. Qed.

Lemma waitForElement_settles_witness :
  exists (p : promise) (w' : page) (tr : list event),
    waitForElement page_now page_query page_timer 31 (lit "#menu") None
      empty_page
    = Some (p, w', tr)
    /\ (queries tr <= max_polls 3000)%nat.
Proof.
  apply (waitForElement_settles page_now page_query page_timer clock
           (fun w => eq_refl)
           (fun delay w => Z.le_refl (clock w + delay))
           (lit "#menu") None 3000 empty_page 31).
  - reflexivity.
  - vm_compute. lia.
Defined.

Lemma waitForElement_NaN_timeout_witness :
  waitForElement page_now page_query page_timer 500 (lit "#menu") (Some NaN)
    empty_page
  = None.
Proof.
  apply (waitForElement_NaN_timeout page_now page_query page_timer
           (lit "#menu") empty_page).
  intros i. exists VNull. split; [|reflexivity].
  unfold page_query. cbn [lit fmap list_fmap String.list_ascii_of_string].
  now rewrite page_at_elements.
Defined.

End PollerBoundRuns.

(** ** More on validation, storage and display *)

Section SanitizeFacts.

Import Validation Spec.

Lemma trimStart_id (s : jsstring) :
  (forall c, head s = Some c -> is_space c = false) -> trimStart s = s.
Proof.
  destruct s as [|c s]; [reflexivity|]. intros H. cbn [trimStart].
  now rewrite (H c eq_refl).
Qed.

Lemma trimEnd_id (s : jsstring) :
  (forall c, last s = Some c -> is_space c = false) -> trimEnd s = s.
Proof.
  intros H. unfold trimEnd. rewrite trimStart_id; [apply rev_involutive|].
  intros c Hc. apply H. rewrite <- Hc, (rev_alt s). symmetry.
  apply head_reverse.
Qed.

(** Trimming twice is trimming once. *)
Lemma trim_idempotent (s : jsstring) : trim (trim s) = trim s.
Proof.
  destruct (trim_spec s) as (_ & _ & _ & _ & _ & Hh & Hl).
  unfold trim at 1. rewrite (trimStart_id _ Hh). now apply trimEnd_id.
Qed.

Lemma sanitize_keeps_valid (name : value) :
  isValidAccountName name = true ->
  isValidAccountName (VStr (sanitizeAccountName name)) = true
  /\ sanitizeAccountName (VStr (sanitizeAccountName name))
     = sanitizeAccountName name.
Proof.
  intros H. apply isValidAccountName_spec in H as (s & -> & Hne & Hlen).
  rewrite (sanitizeAccountName_trim s Hlen).
  pose proof (length_trim s) as Hle.
  split.
  - apply isValidAccountName_spec. exists (trim s).
    rewrite trim_idempotent. repeat split; [exact Hne | lia].
  - rewrite sanitizeAccountName_trim by lia. apply trim_idempotent.
Qed.

(** A name the validator accepts is still accepted once sanitized, and
    sanitizing it again changes nothing. *)
Theorem sanitizeAccountName_valid (name : value) :
  isValidAccountName name = true ->
  isValidAccountName (VStr (sanitizeAccountName name)) = true
  /\ sanitizeAccountName (VStr (sanitizeAccountName name))
     = sanitizeAccountName name.
Proof. exact (sanitize_keeps_valid name). Qed.

Lemma sanitizeAccountName_valid_witness :
  isValidAccountName (VStr (sanitizeAccountName (VStr (lit "  Prod  ")))) = true
  /\ sanitizeAccountName (VStr (sanitizeAccountName (VStr (lit "  Prod  "))))
     = sanitizeAccountName (VStr (lit "  Prod  ")).
Proof.
  apply (sanitizeAccountName_valid (VStr (lit "  Prod  "))). reflexivity.
Defined.

End SanitizeFacts.

Section StoreFacts.

Import Validation Storage Spec.

(** With a working storage API every mapping found in storage after a
    store is well formed: it is kept under a 12-digit identifier, which it
    also carries; its name passes the validator and has no white space
    around it; it bears the time of the store; and it comes from a record
    of the batch with that identifier. *)
Theorem stored_mappings_well_formed (batch : list AccountInput) (b : browser)
    (t : Z) (id : jsstring) (m : AccountMapping) :
  fault b = None ->
  ar_accounts (getAllAccounts (after_store batch t b)) !! id = Some m ->
  ar_success (getAllAccounts (after_store batch t b)) = true
  /\ isValidAccountId (VStr id) = true
  /\ accountId m = id
  /\ isValidAccountName (VStr (accountName m)) = true
  /\ trim (accountName m) = accountName m
  /\ lastUpdated m = now b
  /\ exists r : AccountInput,
       r ∈ batch /\ in_accountId r = VStr id
       /\ accountName m = sanitizeAccountName (in_accountName r).
Proof.
  intros Hf. destruct (after_store_accounts batch t b Hf) as [Hf' Ha].
  unfold getAllAccounts, chrome_storage_local_get. rewrite Hf'.
  cbn [ar_accounts ar_success]. unfold accounts_or_empty.
  assert (E : filter (fun kv : string * item => kv.1 ∈ ["accounts"])
                (area (after_store batch t b)) !! "accounts"
              = Some (Accounts (foldl (add_account b) ∅ batch))).
  { apply map_lookup_filter_Some. split; [exact Ha|]. cbn. set_solver. }
  rewrite E, validAccounts_lookup.
  destruct (kept id batch) as [r|] eqn:Hk; [|rewrite lookup_empty; discriminate].
  intros [= <-]. apply kept_Some in Hk as (Hin & Hok & Hid).
  unfold record_ok in Hok. apply andb_true_iff in Hok as [Hvid Hvname].
  rewrite Hid in Hvid. cbn [stored_as accountId accountName lastUpdated].
  destruct (sanitize_keeps_valid _ Hvname) as [Hv' _].
  pose proof Hvname as Hs. apply isValidAccountName_spec in Hs as (s & Es & _ & Hlen).
  repeat split; try assumption; try reflexivity.
  - rewrite Es, (sanitizeAccountName_trim s Hlen). apply trim_idempotent.
  - exists r. repeat split; assumption.
Qed.

Lemma getAccountName_cleared (b : browser) (id : value) :
  fault b = None -> isValidAccountId id = true ->
  getAccountName id (clearAllAccounts b).2 = found None.
Proof.
  intros Hf Hid. unfold clearAllAccounts, chrome_storage_local_clear.
  rewrite Hf. cbn [snd]. unfold getAccountName, chrome_storage_local_get.
  rewrite Hid. cbn [negb fault area]. unfold accounts_or_empty.
  rewrite map_filter_empty, lookup_empty.
  destruct id; first [reflexivity | now rewrite lookup_empty].
Qed.

(** With a working storage API, after [clearAllAccounts] the storage area
    is empty, every identifier reads as absent, and no mapping is listed. *)
Theorem clear_totality (b : browser) :
  fault b = None ->
  success (clearAllAccounts b).1 = true
  /\ area (clearAllAccounts b).2 = ∅
  /\ (forall id : value,
        nr_accountName (getAccountName id (clearAllAccounts b).2) = None)
  /\ (forall id : value,
        isValidAccountId id = true ->
        getAccountName id (clearAllAccounts b).2 = found None)
  /\ getAllAccounts (clearAllAccounts b).2
     = {| ar_success := true; ar_accounts := ∅; ar_error := None |}.
Proof.
  intros Hf. unfold clearAllAccounts, chrome_storage_local_clear. rewrite Hf.
  cbn [fst snd success].
  assert (Hget : forall id, isValidAccountId id = true ->
            getAccountName id {| area := ∅; now := now b; fault := None |}
            = found None).
  { intros id Hid. unfold getAccountName, chrome_storage_local_get.
    rewrite Hid. cbn [negb fault area]. unfold accounts_or_empty.
    rewrite map_filter_empty, lookup_empty.
    destruct id; first [reflexivity | now rewrite lookup_empty]. }
  split; [reflexivity|]. split; [reflexivity|]. split; [|split].
  - intros id. destruct (isValidAccountId id) eqn:Hid.
    + now rewrite (Hget id Hid).
    + now apply getAccountName_invalid.
  - exact Hget.
  - unfold getAllAccounts, chrome_storage_local_get. cbn [fault area].
    unfold accounts_or_empty. now rewrite map_filter_empty, lookup_empty.
Qed.

End StoreFacts.

Section StoreRuns.

Import Validation Storage Spec Samples.

Lemma stored_mappings_well_formed_witness :
  exists m : AccountMapping,
    ar_accounts
      (getAllAccounts (after_store [account "123456789012" "  Prod  "] 1 fresh))
    !! lit "123456789012" = Some m
    /\ accountId m = lit "123456789012"
    /\ isValidAccountName (VStr (accountName m)) = true.
Proof.
  assert (E : ar_accounts
                (getAllAccounts
                   (after_store [account "123456789012" "  Prod  "] 1 fresh))
              !! lit "123456789012"
              = Some (stored_as fresh (lit "123456789012")
                        (account "123456789012" "  Prod  "))).
  { vm_compute. reflexivity. }
  eexists. split; [exact E|].
  destruct (stored_mappings_well_formed
              [account "123456789012" "  Prod  "] fresh 1
              (lit "123456789012") _ eq_refl E)
    as (_ & _ & Hid & Hname & _).
  split; [exact Hid | exact Hname].
Defined.

Lemma clear_totality_witness :
  getAccountName (VStr (lit "123456789012"))
    (clearAllAccounts
       (after_store [account "123456789012" "Prod"] 1 fresh)).2
  = found None.
Proof.
  destruct (clear_totality
              (after_store [account "123456789012" "Prod"] 1 fresh) eq_refl)
    as (_ & _ & _ & H & _).
  apply H. reflexivity.
Defined.

End StoreRuns.

Section TruncateFacts.

Import Display.

(** For a maximal length of at least 3, the truncated text is never longer
    than the maximal length, it begins like the text, and truncating it
    again changes nothing. *)
Theorem truncateText_within (text : jsstring) (maxLength : Z) :
  3 <= maxLength ->
  Z.of_nat (length (truncateText text maxLength)) <= maxLength
  /\ take (Z.to_nat (maxLength - 3)) (truncateText text maxLength)
     = take (Z.to_nat (maxLength - 3)) text
  /\ truncateText (truncateText text maxLength) maxLength
     = truncateText text maxLength.
Proof.
  intros Hm.
  assert (Hlen : Z.of_nat (length (truncateText text maxLength)) <= maxLength).
  { unfold truncateText. destruct text as [|c text]; [cbn; lia|].
    cbn [truthy negb orb].
    destruct (Z.leb_spec (Z.of_nat (length (c :: text))) maxLength) as [H|H];
      [exact H|].
    rewrite length_app, length_take.
    change (length (lit "...")) with 3%nat. lia. }
  split; [exact Hlen|]. split.
  - unfold truncateText. destruct text as [|c text]; [reflexivity|].
    cbn [truthy negb orb].
    destruct (Z.leb_spec (Z.of_nat (length (c :: text))) maxLength) as [H|H];
      [reflexivity|].
    rewrite take_app_le by (rewrite length_take; lia).
    apply take_idemp.
  - unfold truncateText at 1.
    rewrite (proj2 (Z.leb_le _ _) Hlen). now rewrite orb_true_r.
Qed.

Lemma truncateText_within_witness :
  Z.of_nat (length (truncateText (lit "Production account") 10)) <= 10
  /\ take (Z.to_nat (10 - 3)) (truncateText (lit "Production account") 10)
     = take (Z.to_nat (10 - 3)) (lit "Production account")
  /\ truncateText (truncateText (lit "Production account") 10) 10
     = truncateText (lit "Production account") 10.
Proof. apply (truncateText_within (lit "Production account") 10). lia. Defined.

(** Below 3 the bound is lost: the dots alone are longer. *)
Example truncateText_short_limit :
  truncateText (lit "Production") 2 = lit "...".
Proof. reflexivity. Qed.

End TruncateFacts.

(** ** The background service worker *)

Section WorkerStoreFacts.

Import Validation Storage Spec Notions.

Lemma collect_nullish (b : browser) (accounts : list value) :
  Exists (fun v => nullish v = true) accounts ->
  forall acc, Background.collect b accounts acc = None.
Proof.
  induction 1 as [v l Hv|v l _ IH]; intros acc; cbn [Background.collect].
  - destruct v; try discriminate; reflexivity.
  - destruct (Background.read_account v); [apply IH | reflexivity].
Qed.

Lemma collect_records (b : browser) (accounts : list value) :
  Forall (fun v => nullish v = false) accounts ->
  forall acc,
    Background.collect b accounts acc
    = Some (foldl (add_account b) acc (as_record <$> accounts)).
Proof.
  induction 1 as [|v l Hv _ IH]; intros acc; [reflexivity|].
  cbn [Background.collect fmap list_fmap foldl].
  destruct v; try discriminate; cbn [Background.read_account]; apply IH.
Qed.

Lemma worker_store_records (accounts : list value) (b : browser) :
  Forall (fun v => nullish v = false) accounts ->
  Background.storeAccounts accounts b
  = (as_status (storeAccounts (as_record <$> accounts) b).1,
     (storeAccounts (as_record <$> accounts) b).2).
Proof.
  intros H. unfold Background.storeAccounts, storeAccounts.
  rewrite (collect_records b accounts H).
  destruct (chrome_storage_local_set _ b) as [[[]|msg] b']; reflexivity.
Qed.

Lemma worker_getAccountName (id : value) (b : browser) :
  Background.getAccountName id b = as_name (getAccountName id b).
Proof.
  unfold Background.getAccountName, getAccountName.
  destruct (negb (isValidAccountId id)); [reflexivity|].
  destruct (chrome_storage_local_get ["accounts"] b); reflexivity.
Qed.

(** The worker's [storeAccounts] and [getAccountName] against those of
    storage.js.  An array that holds [null] or [undefined] makes the store
    fail as a whole: nothing is written, whatever the other elements are.
    On any other array the worker stores what storage.js stores for the
    records read off the elements, and both read names alike. *)
Theorem worker_storeAccounts (accounts : list value) (b : browser) :
  (Exists (fun v => nullish v = true) accounts ->
   Background.storeAccounts accounts b
   = (Background.Status false (Some Background.TypeError), b))
  /\ (Forall (fun v => nullish v = false) accounts ->
      Background.storeAccounts accounts b
      = (as_status (storeAccounts (as_record <$> accounts) b).1,
         (storeAccounts (as_record <$> accounts) b).2))
  /\ (forall id : value,
        Background.getAccountName id b = as_name (getAccountName id b)).
Proof.
  split; [|split].
  - intros H. unfold Background.storeAccounts.
    now rewrite (collect_nullish b accounts H).
  - apply worker_store_records.
  - intros id. apply worker_getAccountName.
Qed.

End WorkerStoreFacts.

Section WorkerByNameFacts.

Import Validation Storage Spec Notions.

Variable toLowerCase : jsstring -> jsstring.
Variable Object_entries :
  gmap jsstring AccountMapping -> list (jsstring * AccountMapping).
Hypothesis Object_entries_perm :
  forall m : gmap jsstring AccountMapping, Object_entries m ≡ₚ map_to_list m.

Local Abbreviation getAccountByName :=
  (Background.getAccountByName toLowerCase Object_entries).
Local Abbreviation same_name := (Background.same_name toLowerCase).
Local Abbreviation similar_name := (Background.similar_name toLowerCase).

Lemma In_Object_entries (m : gmap jsstring AccountMapping) (id : jsstring)
    (a : AccountMapping) :
  In (id, a) (Object_entries m) <-> m !! id = Some a.
Proof.
  rewrite <- list_elem_of_In, (Object_entries_perm m).
  apply elem_of_map_to_list.
Qed.

Lemma includes_empty (s : jsstring) : Background.includes s [] = true.
Proof. destruct s; reflexivity. Qed.

Lemma by_name_cases (name : jsstring) (b : browser) :
  fault b = None ->
  (exists (id : jsstring) (m : AccountMapping),
      getAccountByName (VStr name) b
      = Background.Id true (Some id) (Some (accountName m)) None
      /\ stored b !! id = Some m
      /\ (same_name (trim (toLowerCase name)) (id, m) = true
          \/ ((forall id' m', stored b !! id' = Some m' ->
                 same_name (trim (toLowerCase name)) (id', m') = false)
              /\ similar_name (trim (toLowerCase name)) (id, m) = true)))
  \/ (getAccountByName (VStr name) b = Background.Id true None None None
      /\ forall id m, stored b !! id = Some m ->
           same_name (trim (toLowerCase name)) (id, m) = false
           /\ similar_name (trim (toLowerCase name)) (id, m) = false).
Proof.
  intros Hf. unfold stored, getAllAccounts, Background.getAccountByName.
  destruct (chrome_storage_local_get ["accounts"] b) as [result|msg] eqn:Hget;
    [|unfold chrome_storage_local_get in Hget; rewrite Hf in Hget; discriminate].
  cbn [ar_accounts].
  destruct (List.find (same_name (trim (toLowerCase name)))
              (Object_entries (accounts_or_empty result)))
    as [[id m]|] eqn:H1.
  - left. exists id, m. apply List.find_some in H1 as [Hin Hsame].
    split; [reflexivity|]. split; [now apply In_Object_entries|]. now left.
  - pose proof (List.find_none _ _ H1) as Hnone.
    destruct (List.find (similar_name (trim (toLowerCase name)))
                (Object_entries (accounts_or_empty result)))
      as [[id m]|] eqn:H2.
    + left. exists id, m. apply List.find_some in H2 as [Hin Hsim].
      split; [reflexivity|]. split; [now apply In_Object_entries|].
      right. split; [|exact Hsim].
      intros id' m' Hm'. apply (Hnone (id', m')). now apply In_Object_entries.
    + right. split; [reflexivity|]. intros id m Hm.
      pose proof (List.find_none _ _ H2) as Hnone2.
      split; [apply (Hnone (id, m)) | apply (Hnone2 (id, m))];
        now apply In_Object_entries.
Qed.

(** With a working storage API, a lookup by name answers with a stored
    mapping whose name is the one asked for, letter case and surrounding
    white space apart, if there is one; otherwise with a stored mapping
    whose name contains, or is contained in, the name asked for; and with
    no identifier exactly when no stored name matches in either way. *)
Theorem getAccountByName_result (name : jsstring) (b : browser) :
  fault b = None ->
  (exists (id : jsstring) (m : AccountMapping),
      getAccountByName (VStr name) b
      = Background.Id true (Some id) (Some (accountName m)) None
      /\ stored b !! id = Some m
      /\ (same_name (trim (toLowerCase name)) (id, m) = true
          \/ ((forall id' m', stored b !! id' = Some m' ->
                 same_name (trim (toLowerCase name)) (id', m') = false)
              /\ similar_name (trim (toLowerCase name)) (id, m) = true)))
  \/ (getAccountByName (VStr name) b = Background.Id true None None None
      /\ forall id m, stored b !! id = Some m ->
           same_name (trim (toLowerCase name)) (id, m) = false
           /\ similar_name (trim (toLowerCase name)) (id, m) = false).
Proof. exact (by_name_cases name b). Qed.

(** Asking for the name of a stored mapping, in any letter case, gives a
    mapping with that name, letter case and surrounding white space apart
    (the asked one, or another one with such a name). *)
Theorem getAccountByName_exact (name : jsstring) (b : browser)
    (id0 : jsstring) (m0 : AccountMapping) :
  fault b = None ->
  stored b !! id0 = Some m0 ->
  trim (toLowerCase (accountName m0)) = trim (toLowerCase name) ->
  exists (id : jsstring) (m : AccountMapping),
    getAccountByName (VStr name) b
    = Background.Id true (Some id) (Some (accountName m)) None
    /\ stored b !! id = Some m
    /\ trim (toLowerCase (accountName m)) = trim (toLowerCase name).
Proof.
  intros Hf H0 Hsame.
  assert (Hs0 : same_name (trim (toLowerCase name)) (id0, m0) = true).
  { unfold Background.same_name. now apply bool_decide_eq_true. }
  destruct (by_name_cases name b Hf)
    as [(id & m & E & Hm & [Hs|[Hnone _]])|[_ Hnone]].
  - exists id, m. repeat split; try assumption.
    unfold Background.same_name in Hs. now apply bool_decide_eq_true in Hs.
  - rewrite (Hnone id0 m0 H0) in Hs0. discriminate.
  - destruct (Hnone id0 m0 H0) as [Hn _]. rewrite Hn in Hs0. discriminate.
Qed.

(** A name made of white space only matches every stored name: as soon as
    one mapping is stored the lookup answers with some mapping. *)
Theorem getAccountByName_blank (name : jsstring) (b : browser)
    (id0 : jsstring) (m0 : AccountMapping) :
  fault b = None ->
  stored b !! id0 = Some m0 ->
  trim (toLowerCase name) = [] ->
  exists (id : jsstring) (m : AccountMapping),
    getAccountByName (VStr name) b
    = Background.Id true (Some id) (Some (accountName m)) None
    /\ stored b !! id = Some m.
Proof.
  intros Hf H0 Hblank.
  destruct (by_name_cases name b Hf)
    as [(id & m & E & Hm & _)|[_ Hnone]]; [eauto|].
  destruct (Hnone id0 m0 H0) as [_ Hsim]. rewrite Hblank in Hsim.
  unfold Background.similar_name in Hsim.
  now rewrite includes_empty in Hsim.
Qed.

Local Abbreviation handleMessage :=
  (Background.handleMessage toLowerCase Object_entries).

Lemma read_record_object (batch : list AccountInput) :
  as_record <$> (record_object <$> batch) = batch.
Proof.
  induction batch as [|[i n] batch IH]; [reflexivity|].
  cbn [fmap list_fmap]. cbn [fmap list_fmap] in IH. now rewrite IH.
Qed.

Lemma record_object_not_nullish (batch : list AccountInput) :
  Forall (fun v => nullish v = false) (record_object <$> batch).
Proof. induction batch; constructor; [reflexivity | assumption]. Qed.

Lemma handle_STORE_ACCOUNTS (items : list value) (b : browser) :
  handleMessage (Background.STORE_ACCOUNTS items) b
  = Background.storeAccounts items b.
Proof. reflexivity. Qed.

Lemma handle_GET_ACCOUNT_NAME (id : value) (b : browser) :
  truthy id = true ->
  handleMessage (Background.GET_ACCOUNT_NAME id) b
  = (Background.getAccountName id b, b).
Proof.
  intros H. unfold Background.handleMessage, Background.GET_ACCOUNT_NAME.
  cbn [Background.type Background.accountId]. rewrite H. reflexivity.
Qed.

Lemma handle_CLEAR_DATA (b : browser) :
  handleMessage Background.CLEAR_DATA b = Background.clearAllAccounts b.
Proof. reflexivity. Qed.

(** Through the message handler, with a working storage API: a
    [STORE_ACCOUNTS] message with an array of records succeeds; a
    [GET_ACCOUNT_NAME] message for the identifier of a well-formed record of
    the array is then answered with the sanitized name of the record kept
    for that identifier; and after a [CLEAR_DATA] message the same request
    is answered with [null]. *)
Theorem message_round_trip (batch : list AccountInput) (b : browser)
    (r : AccountInput) :
  fault b = None -> r ∈ batch -> record_ok r = true ->
  exists (id : jsstring) (r' : AccountInput),
    in_accountId r = VStr id /\ kept id batch = Some r'
    /\ (handleMessage (Background.STORE_ACCOUNTS (record_object <$> batch)) b).1
       = Background.Status true None
    /\ (handleMessage (Background.GET_ACCOUNT_NAME (in_accountId r))
          (handleMessage
             (Background.STORE_ACCOUNTS (record_object <$> batch)) b).2).1
       = Background.Name true (Some (sanitizeAccountName (in_accountName r')))
           None
    /\ (handleMessage Background.CLEAR_DATA
          (handleMessage
             (Background.STORE_ACCOUNTS (record_object <$> batch)) b).2).1
       = Background.Status true None
    /\ (handleMessage (Background.GET_ACCOUNT_NAME (in_accountId r))
          (handleMessage Background.CLEAR_DATA
             (handleMessage
                (Background.STORE_ACCOUNTS (record_object <$> batch)) b).2).2).1
       = Background.Name true None None.
Proof.
  intros Hf Hin Hok.
  destruct (record_ok_has_id r Hok) as [id Hid].
  destruct (kept_is_Some id batch r Hin Hok Hid) as [r' Hk].
  exists id, r'. split; [exact Hid|]. split; [exact Hk|].
  assert (Hvid : isValidAccountId (VStr id) = true).
  { unfold record_ok in Hok. apply andb_true_iff in Hok as [Hv _].
    now rewrite Hid in Hv. }
  assert (Htruthy : truthy (VStr id) = true).
  { apply isValidAccountId_spec in Hvid as (s & [= <-] & Hl & _).
    destruct id; [discriminate | reflexivity]. }
  assert (Hstore : handleMessage
                     (Background.STORE_ACCOUNTS (record_object <$> batch)) b
                   = (Background.Status true None, after_store batch (now b) b)).
  { rewrite handle_STORE_ACCOUNTS.
    rewrite (worker_store_records _ b (record_object_not_nullish batch)),
      read_record_object.
    unfold after_store, tick. rewrite (storeAccounts_ok batch b Hf).
    reflexivity. }
  rewrite Hstore. cbn [fst snd].
  pose proof (after_store_fault batch (now b) b Hf) as Hf1.
  assert (Hget : forall b', (handleMessage
                    (Background.GET_ACCOUNT_NAME (in_accountId r)) b').1
                 = as_name (getAccountName (VStr id) b')).
  { intros b'. rewrite Hid, (handle_GET_ACCOUNT_NAME _ _ Htruthy). cbn [fst].
    apply worker_getAccountName. }
  split; [reflexivity|]. split.
  - rewrite Hget, (getAccountName_after_store batch _ b id Hf Hvid), Hk.
    reflexivity.
  - pose proof (fun id => getAccountName_cleared
                           (after_store batch (now b) b) id Hf1) as Hread.
    assert (Hclear : handleMessage Background.CLEAR_DATA
                       (after_store batch (now b) b)
                     = (Background.Status true None,
                        (clearAllAccounts (after_store batch (now b) b)).2)).
    { rewrite handle_CLEAR_DATA.
      unfold Background.clearAllAccounts, clearAllAccounts,
        chrome_storage_local_clear. rewrite Hf1. reflexivity. }
    rewrite Hclear. cbn [fst snd]. split; [reflexivity|].
    rewrite Hget, (Hread (VStr id) Hvid). reflexivity.
Qed.

End WorkerByNameFacts.

Section WorkerRuns.

Import Validation Storage Spec Samples Notions.

(** A browser in which one mapping is stored. *)
Local Abbreviation one_stored :=
  (after_store [account "123456789012" "Prod"] 1 fresh).

Lemma one_stored_lookup :
  stored one_stored !! lit "123456789012"
  = Some (stored_as fresh (lit "123456789012") (account "123456789012" "Prod")).
Proof. vm_compute. reflexivity. Qed.

Lemma worker_storeAccounts_witness :
  Background.storeAccounts
    [record_object (account "123456789012" "Prod"); VNull] one_stored
  = (Background.Status false (Some Background.TypeError), one_stored).
Proof.
  destruct (worker_storeAccounts
              [record_object (account "123456789012" "Prod"); VNull] one_stored)
    as (H & _).
  apply H. apply Exists_cons_tl, Exists_cons_hd. reflexivity.
Defined.

Lemma getAccountByName_result_witness :
  (exists (id : jsstring) (m : AccountMapping),
      Background.getAccountByName ascii_lower map_to_list (VStr (lit "rod"))
        one_stored
      = Background.Id true (Some id) (Some (accountName m)) None
      /\ stored one_stored !! id = Some m
      /\ (Background.same_name ascii_lower (trim (ascii_lower (lit "rod")))
            (id, m) = true
          \/ ((forall id' m', stored one_stored !! id' = Some m' ->
                 Background.same_name ascii_lower
                   (trim (ascii_lower (lit "rod"))) (id', m') = false)
              /\ Background.similar_name ascii_lower
                   (trim (ascii_lower (lit "rod"))) (id, m) = true)))
  \/ (Background.getAccountByName ascii_lower map_to_list (VStr (lit "rod"))
        one_stored
      = Background.Id true None None None
      /\ forall id m, stored one_stored !! id = Some m ->
           Background.same_name ascii_lower (trim (ascii_lower (lit "rod")))
             (id, m) = false
           /\ Background.similar_name ascii_lower
                (trim (ascii_lower (lit "rod"))) (id, m) = false).
Proof.
  apply (getAccountByName_result ascii_lower map_to_list
           (fun m => Permutation_refl _) (lit "rod") one_stored).
  reflexivity.
Defined.

Lemma getAccountByName_exact_witness :
  exists (id : jsstring) (m : AccountMapping),
    Background.getAccountByName ascii_lower map_to_list (VStr (lit " PROD "))
      one_stored
    = Background.Id true (Some id) (Some (accountName m)) None
    /\ stored one_stored !! id = Some m
    /\ trim (ascii_lower (accountName m)) = trim (ascii_lower (lit " PROD ")).
Proof.
  apply (getAccountByName_exact ascii_lower map_to_list
           (fun m => Permutation_refl _) (lit " PROD ") one_stored
           (lit "123456789012")
           (stored_as fresh (lit "123456789012")
              (account "123456789012" "Prod"))).
  - reflexivity.
  - exact one_stored_lookup.
  - reflexivity.
Defined.

Lemma getAccountByName_blank_witness :
  exists (id : jsstring) (m : AccountMapping),
    Background.getAccountByName ascii_lower map_to_list (VStr (lit "   "))
      one_stored
    = Background.Id true (Some id) (Some (accountName m)) None
    /\ stored one_stored !! id = Some m.
Proof.
  apply (getAccountByName_blank ascii_lower map_to_list
           (fun m => Permutation_refl _) (lit "   ") one_stored
           (lit "123456789012")
           (stored_as fresh (lit "123456789012")
              (account "123456789012" "Prod"))).
  - reflexivity.
  - exact one_stored_lookup.
  - reflexivity.
Defined.

Lemma message_round_trip_witness :
  exists (id : jsstring) (r' : AccountInput),
    in_accountId (account "123456789012" "  Prod  ") = VStr id
    /\ kept id [account "123456789012" "  Prod  "] = Some r'
    /\ (Background.handleMessage ascii_lower map_to_list
          (Background.GET_ACCOUNT_NAME
             (in_accountId (account "123456789012" "  Prod  ")))
          (Background.handleMessage ascii_lower map_to_list
             (Background.STORE_ACCOUNTS
                (record_object <$> [account "123456789012" "  Prod  "]))
             fresh).2).1
       = Background.Name true
           (Some (sanitizeAccountName (in_accountName r'))) None.
Proof.
  destruct (message_round_trip ascii_lower map_to_list
              [account "123456789012" "  Prod  "] fresh
              (account "123456789012" "  Prod  ") eq_refl)
    as (id & r' & Hid & Hk & _ & Hget & _).
  - apply list_elem_of_here.
  - reflexivity.
  - exists id, r'. repeat split; assumption.
Defined.

End WorkerRuns.

(** ** Storing a batch without any well-formed record *)

Section EraseFacts.

Import Validation Storage Spec Notions.

(** With a working storage API, a batch in which no record is well formed,
    the empty batch included, is stored with success and leaves no mapping
    in storage: whatever was stored before is erased. *)
Theorem store_nothing_valid_erases (batch : list AccountInput) (b : browser)
    (t : Z) :
  fault b = None ->
  Forall (fun r => record_ok r = false) batch ->
  success (storeAccounts batch b).1 = true
  /\ stored (after_store batch t b) = ∅
  /\ forall id : value,
       nr_accountName (getAccountName id (after_store batch t b)) = None.
Proof.
  intros Hf Hall.
  assert (Hkept : forall id, kept id batch = None).
  { intros id. unfold kept.
    replace (List.filter (fun r => record_ok r && has_id id r) batch)
      with (@nil AccountInput); [reflexivity|].
    induction Hall as [|r l Hr _ IH]; [reflexivity|].
    cbn [List.filter]. now rewrite Hr. }
  split; [now rewrite (storeAccounts_ok batch b Hf)|]. split.
  - destruct (after_store_accounts batch t b Hf) as [Hf' Ha].
    unfold stored, getAllAccounts, chrome_storage_local_get. rewrite Hf'.
    cbn [ar_accounts]. unfold accounts_or_empty.
    assert (E : filter (fun kv : string * item => kv.1 ∈ ["accounts"])
                  (area (after_store batch t b)) !! "accounts"
                = Some (Accounts (foldl (add_account b) ∅ batch))).
    { apply map_lookup_filter_Some. split; [exact Ha|]. cbn. set_solver. }
    rewrite E. apply map_eq. intros id.
    now rewrite validAccounts_lookup, Hkept.
  - intros id. destruct (isValidAccountId id) eqn:Hid.
    + pose proof Hid as Hd. apply isValidAccountId_spec in Hd as (s & -> & _).
      now rewrite (getAccountName_after_store batch t b s Hf Hid), Hkept.
    + now apply getAccountName_invalid.
Qed.

End EraseFacts.

Section EraseRuns.

Import Validation Storage Spec Samples Notions.

Lemma store_nothing_valid_erases_witness :
  stored (after_store [account "123456789012" "   "] 2
            (after_store [account "123456789012" "Prod"] 1 fresh))
  = ∅.
Proof.
  destruct (store_nothing_valid_erases [account "123456789012" "   "]
              (after_store [account "123456789012" "Prod"] 1 fresh) 2 eq_refl)
    as (_ & H & _).
  - repeat constructor.
  - exact H.
Defined.

End EraseRuns.

(** ** Waiting for the account menu *)

Section MenuFacts.

Import Retry Poller Spec Notions.

Context {World : Type}.
Variable querySelector : jsstring -> World -> outcome.
Variable Date_now : World -> number.
Variable setTimeout : number -> World -> World.

Local Abbreviation menu_probe := (Console.menu_probe querySelector).
Local Abbreviation waitForAccountElement :=
  (Console.waitForAccountElement querySelector Date_now setTimeout).

Lemma menu_probe_outcome (w : World) : null_or_found (menu_probe w).1.
Proof.
  unfold Console.menu_probe. cbn [fst].
  destruct (Console.query_menu querySelector w) as [el|e]; cbn; [|exact I].
  destruct (truthy el) eqn:E; [right; exact E | now left].
Qed.

Lemma last_falsy_null (os : list outcome) (last : value) :
  Forall null_or_found os -> Forall (fun o => failed o = true) os ->
  last = VNull -> foldl keep_falsy last os = VNull.
Proof.
  revert last. induction os as [|o os IH]; intros last Hn Hf Hl; [exact Hl|].
  inversion Hn as [|? ? Ho Hos]; inversion Hf as [|? ? Fo Fos]; subst.
  cbn [foldl]. apply IH; try assumption.
  destruct o as [v|e]; cbn in *; [|reflexivity].
  destruct Ho as [->|Ht]; [reflexivity|].
  rewrite Ht in Fo. discriminate.
Qed.

(** The outcomes recorded by a run are outcomes of the probe. *)
Lemma attempts_calls_from_probe (P : outcome -> Prop)
    (fn : World -> outcome * World) (c : RetryConfig) :
  (forall w, P (fn w).1) ->
  forall fuel a last (s : @state World) v s',
    attempts fn setTimeout fuel c a last s = Some (inl (v, s')) ->
    Forall P (calls (trace s)) -> Forall P (calls (trace s')).
Proof.
  intros HP. induction fuel as [|fuel IH]; intros a last s v s' E Hs;
    [discriminate|].
  cbn [attempts] in E. destruct (ltb (of_nat a) (maxAttempts c)).
  - unfold bind at 1 in E.
    destruct (failed (fn (world s)).1) eqn:Hf.
    + destruct (attempt_body_failed fn setTimeout c a last s Hf)
        as (s1 & E1 & _ & Hc1 & _).
      rewrite E1 in E. apply (IH _ _ _ _ _ E). rewrite Hc1.
      apply Forall_app. split; [exact Hs|]. constructor; [apply HP|constructor].
    + destruct (fn (world s)).1 as [r|e] eqn:Ho; [|discriminate].
      cbn in Hf. apply negb_false_iff in Hf.
      destruct (attempt_body_success fn setTimeout c a last r s Ho Hf)
        as (s1 & E1 & Hc1 & _).
      rewrite E1 in E. unfold ret in E. injection E as <- <-. rewrite Hc1.
      apply Forall_app. split; [exact Hs|].
      constructor; [|constructor]. rewrite <- Ho. apply HP.
  - unfold bind, console, ret in E. injection E as <- <-. cbn [trace].
    rewrite calls_snoc. cbn. now rewrite app_nil_r.
Qed.

(** When the retry function is loaded, waiting for the account menu takes
    at most five probes, separated by waits of 500, 1000, 1500 and 2000
    milliseconds; it resolves, never rejects, to the element found or to
    [null]; and the timeout argument plays no part in it. *)
Theorem waitForAccountElement_with_retry (timeout : option number) (w : World)
    (fuel : nat) :
  (5 < fuel)%nat ->
  exists (v : value) (w' : World) (tr : list Retry.event),
    waitForAccountElement true fuel timeout w = Some (Resolved v, w', tr)
    /\ (v = VNull \/ truthy v = true)
    /\ (length (calls tr) <= 5)%nat
    /\ delays tr
       = take (length (calls tr) - 1) (of_Z <$> [500; 1000; 1500; 2000])
    /\ forall timeout' : option number,
         waitForAccountElement true fuel timeout' w
         = waitForAccountElement true fuel timeout w.
Proof.
  intros Hfuel. unfold Console.waitForAccountElement. cbn [negb].
  rewrite (retryWithBackoff_accepted menu_probe setTimeout fuel
             (to_object RETRY_CONFIG_console) RETRY_CONFIG_console (start w)
             eq_refl).
  destruct (attempts_run menu_probe setTimeout RETRY_CONFIG_console 5 eq_refl
              5%nat 0%nat VNull (start w) fuel)
    as (v & s' & os & E & Hc & Hd & Hend); try lia.
  change (calls (trace (start w))) with (@nil outcome) in Hc.
  change (delays (trace (start w))) with (@nil number) in Hd.
  cbn [app] in Hc, Hd.
  assert (Hprobe : Forall null_or_found (calls (trace s'))).
  { apply (attempts_calls_from_probe null_or_found menu_probe
             RETRY_CONFIG_console menu_probe_outcome _ _ _ _ _ _ E).
    constructor. }
  rewrite E. exists v, (world s'), (trace s'). split; [reflexivity|].
  rewrite Hc in *.
  assert (Hlen : (length os <= 5)%nat).
  { destruct Hend as [(pre & -> & _ & _ & Hlt)|(Hlen & _ & _)];
      [rewrite length_app; cbn [length]; cbn in Hlt; lia | lia]. }
  split; [|split; [exact Hlen|split; [|reflexivity]]].
  - destruct Hend as [(pre & _ & Ht & _)|(_ & Hall & ->)]; [now right|left].
    now apply last_falsy_null.
  - rewrite Hd.
    destruct (length os) as [|[|[|[|[|[|n]]]]]]; try reflexivity; lia.
Qed.

End MenuFacts.

Section MenuRuns.

Import Retry Poller Samples Notions.

Lemma waitForAccountElement_with_retry_witness :
  exists (v : value) (w' : page) (tr : list Retry.event),
    Console.waitForAccountElement page_query page_now
      (fun _ (p : page) => page_timer 0 p) true 6 None empty_page
    = Some (Resolved v, w', tr)
    /\ (v = VNull \/ truthy v = true)
    /\ (length (calls tr) <= 5)%nat
    /\ delays tr
       = take (length (calls tr) - 1) (of_Z <$> [500; 1000; 1500; 2000])
    /\ forall timeout' : option number,
         Console.waitForAccountElement page_query page_now
           (fun _ (p : page) => page_timer 0 p) true 6 timeout' empty_page
         = Console.waitForAccountElement page_query page_now
             (fun _ (p : page) => page_timer 0 p) true 6 None empty_page.
Proof.
  apply (waitForAccountElement_with_retry page_query page_now
           (fun _ (p : page) => page_timer 0 p) None empty_page 6).
  lia.
Defined.

End MenuRuns.

(** ** Extraction from a portal element *)

Section PortalFacts.

Import Validation Storage Spec Notions.

Lemma twelve_digits_here_valid (s : jsstring) :
  Portal.twelve_digits_here s = true ->
  isValidAccountId (VStr (take 12 s)) = true.
Proof.
  unfold Portal.twelve_digits_here. rewrite andb_true_iff, Nat.leb_le.
  intros [Hl Hd]. cbn [isValidAccountId]. rewrite Hd, andb_true_r.
  apply Nat.eqb_eq. rewrite length_take. lia.
Qed.

Lemma match_id_valid (s : jsstring) :
  forall (prev : bool) (id : jsstring),
    Portal.match_id prev s = Some id -> isValidAccountId (VStr id) = true.
Proof.
  induction s as [|c s IH]; intros prev id; [discriminate|].
  cbn [Portal.match_id].
  destruct (negb prev && Portal.twelve_digits_here (c :: s)
            && match drop 12 (c :: s) with
               | [] => true
               | d :: _ => negb (Portal.is_word d)
               end) eqn:E.
  - intros [= <-]. apply andb_true_iff in E as [E _].
    apply andb_true_iff in E as [_ E].
    exact (twelve_digits_here_valid (c :: s) E).
  - apply IH.
Qed.

Lemma digits_only_valid (text : jsstring) :
  length (List.filter is_digit text) = 12%nat ->
  isValidAccountId (VStr (List.filter is_digit text)) = true.
Proof.
  intros Hl. cbn [isValidAccountId]. rewrite Hl. cbn [Nat.eqb andb].
  apply forallb_forall. intros c Hc. now apply List.filter_In in Hc.
Qed.

Lemma first_line_trimmed (ls : list jsstring) (l : jsstring)
    (rest : list jsstring) :
  List.filter Portal.nonempty (trim <$> ls) = l :: rest ->
  trim l = l /\ l <> [].
Proof.
  intros E.
  assert (Hin : In l (List.filter Portal.nonempty (trim <$> ls)))
    by (rewrite E; now left).
  apply List.filter_In in Hin as [Hin Hne].
  apply list_elem_of_In, list_elem_of_fmap in Hin as (l' & -> & _).
  split; [apply trim_idempotent|]. intros Hnil. now rewrite Hnil in Hne.
Qed.

Lemma isValidAccountName_trimmed (name : jsstring) :
  trim name = name ->
  isValidAccountName (VStr name)
  = Portal.nonempty name && (length name <=? 256)%nat.
Proof.
  intros Ht. cbn [isValidAccountName]. rewrite Ht. now destruct name.
Qed.

(** Whatever the element, an extracted account carries a 12-digit
    identifier that the validator of the storage accepts, and a name without
    white space around it; storage keeps the record unless that name is
    empty or longer than 256 characters.  When the name or the identifier
    had to be read off the text of the element, the name is not empty. *)
Theorem extracted_account_well_formed (el : Portal.element)
    (x : Portal.extracted) :
  Portal.extractAccountFromElement el = Some x ->
  isValidAccountId (VStr (Portal.accountId x)) = true
  /\ trim (Portal.accountName x) = Portal.accountName x
  /\ record_ok (Portal.to_record x)
     = Portal.nonempty (Portal.accountName x)
       && (length (Portal.accountName x) <=? 256)%nat
  /\ (Portal.or_else (Portal.name_primary el) (Portal.name_fallback el) = None
      \/ Portal.or_else (Portal.id_primary el) (Portal.id_fallback el) = None ->
      Portal.accountName x <> []).
Proof.
  intros E.
  assert (H : isValidAccountId (VStr (Portal.accountId x)) = true
              /\ trim (Portal.accountName x) = Portal.accountName x
              /\ (Portal.or_else (Portal.name_primary el)
                    (Portal.name_fallback el) = None
                  \/ Portal.or_else (Portal.id_primary el)
                       (Portal.id_fallback el) = None ->
                  Portal.accountName x <> [])).
  { unfold Portal.extractAccountFromElement in E.
    assert (Htext :
      match Portal.match_id false (Portal.textContent el) with
      | Some id =>
          Some {| Portal.accountId := id;
                  Portal.accountName :=
                    if Portal.nonempty
                         (trim (Portal.remove_twelve_digits
                            match List.filter Portal.nonempty
                                    (trim <$> Portal.split_lines
                                                (Portal.textContent el)) with
                            | l :: _ => l
                            | [] => lit "Unknown"
                            end))
                    then trim (Portal.remove_twelve_digits
                            match List.filter Portal.nonempty
                                    (trim <$> Portal.split_lines
                                                (Portal.textContent el)) with
                            | l :: _ => l
                            | [] => lit "Unknown"
                            end)
                    else match List.filter Portal.nonempty
                                 (trim <$> Portal.split_lines
                                             (Portal.textContent el)) with
                         | l :: _ => l
                         | [] => lit "Unknown"
                         end |}
      | None => None
      end = Some x ->
      isValidAccountId (VStr (Portal.accountId x)) = true
      /\ trim (Portal.accountName x) = Portal.accountName x
      /\ Portal.accountName x <> []).
    { destruct (Portal.match_id false (Portal.textContent el)) as [id|] eqn:Hm;
        [|discriminate].
      intros [= <-]. cbn [Portal.accountId Portal.accountName].
      split; [exact (match_id_valid _ _ _ Hm)|].
      destruct (Portal.nonempty (trim (Portal.remove_twelve_digits _))) eqn:Hc.
      - split; [apply trim_idempotent|]. intros Hnil. now rewrite Hnil in Hc.
      - destruct (List.filter Portal.nonempty _) as [|l rest] eqn:Hl.
        + split; [reflexivity | discriminate].
        + exact (first_line_trimmed _ _ _ Hl). }
    destruct (Portal.or_else (Portal.name_primary el) (Portal.name_fallback el))
      as [nameText|];
      destruct (Portal.or_else (Portal.id_primary el) (Portal.id_fallback el))
        as [idText|];
      try (destruct (Htext E) as (H1 & H2 & H3); repeat split; tauto).
    destruct (length (List.filter is_digit idText) =? 12)%nat eqn:Hl;
      [|discriminate].
    cbn [negb] in E. injection E as <-.
    cbn [Portal.accountId Portal.accountName]. apply Nat.eqb_eq in Hl.
    split; [now apply digits_only_valid|]. split; [apply trim_idempotent|].
    intros [?|?]; discriminate. }
  destruct H as (Hid & Htrim & Hname).
  repeat split; try assumption.
  unfold record_ok, Portal.to_record. cbn [in_accountId in_accountName].
  rewrite Hid. cbn [andb]. now apply isValidAccountName_trimmed.
Qed.

End PortalFacts.

Section PortalRuns.

Import Validation Storage Spec Notions.

Example extract_audit_card :
  Portal.extractAccountFromElement audit_card
  = Some {| Portal.accountId := lit "641945723773";
            Portal.accountName := lit "Audit" |}.
Proof. reflexivity. Qed.

(** An identifier glued to a letter is not matched. *)
Example extract_needs_word_boundary :
  Portal.extractAccountFromElement
    {| Portal.textContent := lit "Audit641945723773";
       Portal.name_primary := None; Portal.id_primary := None;
       Portal.name_fallback := None; Portal.id_fallback := None |}
  = None.
Proof. reflexivity. Qed.

Lemma extracted_account_well_formed_witness :
  isValidAccountId (VStr (lit "641945723773")) = true
  /\ record_ok
       (Portal.to_record {| Portal.accountId := lit "641945723773";
                            Portal.accountName := lit "Audit" |})
     = true.
Proof.
  destruct (extracted_account_well_formed audit_card _ extract_audit_card)
    as (Hid & _ & Hok & _).
  split; [exact Hid | exact Hok].
Defined.

End PortalRuns.

(** ** Runs of the element poller on concrete pages *)

Section PollerWitnesses.

Import Retry Poller Samples Notions.

Lemma waitForElement_found_witness :
  exists tr : list event,
    waitForElement page_now page_query page_timer 10 (lit "#menu") None
      late_page
    = Some (Resolved menu, page_at page_timer 2 late_page, tr).
Proof.
  apply (waitForElement_found page_now page_query page_timer (lit "#menu") None
           late_page 2 10 menu).
  - intros i Hi. destruct i as [|[|i]]; [reflexivity | reflexivity | lia].
  - reflexivity.
  - reflexivity.
  - lia.
Defined.

Lemma waitForElement_timed_out_witness :
  exists tr : list event,
    waitForElement page_now page_query page_timer 10 (lit "#menu")
      (Some (of_Z 250)) empty_page
    = Some (Resolved VNull, page_at page_timer 3 empty_page, tr).
Proof.
  apply (waitForElement_timed_out page_now page_query page_timer (lit "#menu")
           (Some (of_Z 250)) empty_page 3 10 VNull).
  - intros i Hi.
    destruct i as [|[|[|i]]]; [reflexivity | reflexivity | reflexivity | lia].
  - reflexivity.
  - reflexivity.
  - reflexivity.
  - lia.
Defined.

Lemma waitForElement_query_raises_witness :
  exists tr : list event,
    waitForElement of_Z
      (fun _ now => if now <? 100 then Returns VNull else Throws SyntaxError)
      (fun delay now => now + delay) 10 (lit "#menu") None 0
    = Some (Pending SyntaxError, 100, tr).
Proof.
  apply (waitForElement_query_raises of_Z
           (fun _ now => if now <? 100 then Returns VNull else Throws SyntaxError)
           (fun delay now => now + delay) (lit "#menu") None 0 1 10 SyntaxError).
  - intros i Hi. destruct i as [|i]; [reflexivity | lia].
  - reflexivity.
  - lia.
Defined.

End PollerWitnesses.
